(** * ScaleCircle: the pitch-class circle's parsing, layout and rendering

    A shallow embedding of [utils.js], [export.js] and [script.js], and
    the properties of the specification proved or refuted on it.

    - JavaScript strings are sequences of UTF-16 code units ([list N]).
    - JavaScript numbers are IEEE 754 binary64 values, kept as the exact
      rational they denote ([Fin q]) next to NaN, the infinities and the
      negative zero; every arithmetic operation computes the exact result
      and rounds it to nearest, ties to even ([round64]), overflowing to an
      infinity and underflowing to a signed zero.  [Number] and
      [parseFloat] round the decimal they read the same way.
    - [Math.log], [Math.cos] and [Math.sin], which ECMA-262 leaves to the
      implementation up to their special cases, are the roundings of a
      fixed-point evaluation of their series.
    - The page is a record of the values the scripts read from its
      elements, which are taken to be present, and the SVG they build is a
      tree of elements with their attributes as strings.
    - Where a property is about the logarithm itself, the value the code
      computes is measured against the logarithm of the real numbers of
      the Standard Library. *)

From Stdlib Require Import ZArith NArith QArith Qround Qabs Qpower List Bool Lia
  Lqa.
From Stdlib Require Import String Ascii.
From Stdlib Require Reals Lra Qreals.
Import ListNotations.

Set Implicit Arguments.

(* ================================================================== *)
(** * Part I. The JavaScript built-ins the program uses               *)
(* ================================================================== *)

(** ** Strings *)

Module JSString.

Definition jsstring := list N.

(** An ASCII literal as a JavaScript string. *)
Definition str (s : string) : jsstring :=
  map N_of_ascii (list_ascii_of_string s).

Definition eqb (a b : jsstring) : bool :=
  if list_eq_dec N.eq_dec a b then true else false.

Definition LF : N := 10.
Definition CR : N := 13.
Definition CENT_SIGN : N := 162.   (* U+00A2, the cent sign *)

(** The ASCII code units the program names. *)
Abbreviation HASH := 35%N (only parsing).
Abbreviation PLUS := 43%N (only parsing).
Abbreviation MINUS := 45%N (only parsing).
Abbreviation POINT := 46%N (only parsing).
Abbreviation SLASH := 47%N (only parsing).
Abbreviation LETTER_c := 99%N (only parsing).

(** WhiteSpace and LineTerminator of ECMA-262: what [trim], the class [\s]
    and StrWhiteSpaceChar all strip. *)
Definition isWhiteSpace (c : N) : bool :=
  existsb (N.eqb c)
    [9; 10; 11; 12; 13; 32; 160; 5760; 8232; 8233; 8239; 8287; 12288; 65279]%N
  || ((8192 <=? c) && (c <=? 8202))%N.

Fixpoint trimStart (s : jsstring) : jsstring :=
  match s with
  | [] => []
  | c :: t => if isWhiteSpace c then trimStart t else s
  end.

Fixpoint trimEnd (s : jsstring) : jsstring :=
  match s with
  | [] => []
  | c :: t =>
      match trimEnd t with
      | [] => if isWhiteSpace c then [] else [c]
      | t' => c :: t'
      end
  end.

(** [String.prototype.trim] *)
Definition trim (s : jsstring) : jsstring := trimEnd (trimStart s).

(** [String.prototype.startsWith] *)
Fixpoint startsWith (s p : jsstring) : bool :=
  match p, s with
  | [], _ => true
  | _ :: _, [] => false
  | a :: p', b :: s' => (a =? b)%N && startsWith s' p'
  end.

(** [String.prototype.includes] *)
Fixpoint includes (s p : jsstring) : bool :=
  startsWith s p ||
  match s with
  | [] => false
  | _ :: t => includes t p
  end.

Definition cons_head (c : N) (parts : list jsstring) : list jsstring :=
  match parts with
  | [] => [[c]]
  | p :: ps => (c :: p) :: ps
  end.

(** [String.prototype.split] with a separator of one code unit. *)
Fixpoint split (sep : N) (s : jsstring) : list jsstring :=
  match s with
  | [] => [[]]
  | c :: t => if (c =? sep)%N then [] :: split sep t
              else cons_head c (split sep t)
  end.

(** [s.split(/\r?\n/)]: the separators are the leftmost matches of an
    optional carriage return followed by a line feed. *)
Fixpoint splitLines (s : jsstring) : list jsstring :=
  match s with
  | [] => [[]]
  | c :: t =>
      if (c =? LF)%N then [] :: splitLines t
      else
        match t with
        | c' :: t' =>
            if (c =? CR)%N && (c' =? LF)%N then [] :: splitLines t'
            else cons_head c (splitLines t)
        | [] => [[c]]
        end
  end.

(** [s.replace(/[...]/g, '')] for a class of single code units. *)
Definition removeAll (cls : N -> bool) (s : jsstring) : jsstring :=
  filter (fun c => negb (cls c)) s.

(** Decimal digits of a natural number, most significant first. *)
Fixpoint digitsFuel (fuel : nat) (n : N) (acc : jsstring) : jsstring :=
  match fuel with
  | O => acc
  | S f =>
      let acc' := (48 + n mod 10)%N :: acc in
      if (n <? 10)%N then acc' else digitsFuel f (n / 10)%N acc'
  end.

Definition decimalOfN (n : N) : jsstring :=
  digitsFuel (S (N.to_nat (N.log2 n))) n [].

Definition decimalOfZ (z : Z) : jsstring :=
  match z with
  | Zneg p => 45%N :: decimalOfN (Npos p)
  | _ => decimalOfN (Z.to_N z)
  end.

End JSString.

(** ** Regular expressions *)

Module RegExp.
Import JSString.

(** The fragment of the pattern language the program's literals use. *)
Inductive re : Type :=
| Eps : re
| Chr : (N -> bool) -> re
| Seq : re -> re -> re
| Alt : re -> re -> re
| Star : re -> re.

Definition Plus (r : re) : re := Seq r (Star r).
Definition Opt (r : re) : re := Alt r Eps.

(** Canonicalize of ECMA-262 for a pattern with the [i] flag and without the
    [u] flag: the code unit's upper case.  Only ASCII letters are folded
    here, which is exact for the patterns below: no other code unit has
    [C], the cent sign or a digit as its upper case. *)
Definition Canonicalize (c : N) : N :=
  if ((97 <=? c) && (c <=? 122))%N then (c - 32)%N else c.

Definition lit (c : N) : re := Chr (N.eqb c).
Definition ilit (c : N) : re :=
  Chr (fun x => (Canonicalize x =? Canonicalize c)%N).

Definition isDigit (c : N) : bool := ((48 <=? c) && (c <=? 57))%N.
Definition digit : re := Chr isDigit.        (* \d *)

Fixpoint nullable (r : re) : bool :=
  match r with
  | Eps => true
  | Chr _ => false
  | Seq a b => nullable a && nullable b
  | Alt a b => nullable a || nullable b
  | Star _ => true
  end.

Fixpoint deriv (c : N) (r : re) : re :=
  match r with
  | Eps => Chr (fun _ => false)
  | Chr p => if p c then Eps else Chr (fun _ => false)
  | Seq a b =>
      if nullable a then Alt (Seq (deriv c a) b) (deriv c b)
      else Seq (deriv c a) b
  | Alt a b => Alt (deriv c a) (deriv c b)
  | Star a => Seq (deriv c a) (Star a)
  end.

(** [/^r$/.test(s)] *)
Fixpoint test (r : re) (s : jsstring) : bool :=
  match s with
  | [] => nullable r
  | c :: t => test (deriv c r) t
  end.

End RegExp.

(** ** Numbers *)

Module JSNumber.
Import JSString.
Local Open Scope Q_scope.

(** A Number value: the exact rational a finite binary64 denotes, or one
    of the special values.  [Fin 0] is the positive zero. *)
Inductive number : Type :=
| NaN : number
| PInf : number
| NInf : number
| NZero : number
| Fin : Q -> number.

Definition Qltb (a b : Q) : bool :=
  match a ?= b with Lt => true | _ => false end.

Definition zero (neg : bool) : number := if neg then NZero else Fin 0.
Definition inf (neg : bool) : number := if neg then NInf else PInf.

(** 2^e and 10^e as rationals, for any integer exponent. *)
Definition pow2 (e : Z) : Q :=
  match e with
  | Zneg p => 1 # (2 ^ p)%positive
  | _ => inject_Z (2 ^ e)
  end.

Definition pow10 (e : Z) : Q :=
  match e with
  | Zneg p => 1 # (10 ^ p)%positive
  | _ => inject_Z (10 ^ e)
  end.

(** floor(log2 q), for q > 0. *)
Definition ilog2 (q : Q) : Z :=
  let e0 := (Z.log2 (Qnum q) - Z.log2 (Zpos (Qden q)))%Z in
  if Qle_bool (pow2 e0) q then e0 else (e0 - 1)%Z.

(** The integer nearest to q >= 0, ties to the even one. *)
Definition roundHalfEven (q : Q) : Z :=
  let f := Qfloor q in
  match ((q - inject_Z f) ?= (1 # 2))%Q with
  | Lt => f
  | Gt => (f + 1)%Z
  | Eq => if Z.even f then f else (f + 1)%Z
  end.

(** Rounding of a real result to binary64, round-to-nearest-even:
    53 significant bits, the least exponent of a unit in the last place is
    -1074, and a result of magnitude 2^1024 or more is an infinity. *)
Definition round64 (q : Q) : number :=
  match q ?= 0 with
  | Eq => Fin 0
  | c =>
      let neg := match c with Lt => true | _ => false end in
      let a := Qabs q in
      let ue := Z.max (ilog2 a - 52) (-1074) in
      let m := roundHalfEven (a / pow2 ue) in
      if (m =? 0)%Z then zero neg
      else if Qle_bool (pow2 1024) (inject_Z m * pow2 ue) then inf neg
      else Fin (Qred ((if neg then -1 else 1) * (inject_Z m * pow2 ue)))
  end.

(** The Number value of a numeric literal of the source. *)
Definition num (z : Z) : number := Fin (inject_Z z).

(** Special values are told apart from non-zero finite ones once. *)
Inductive cls : Type :=
| CNaN : cls
| CInf : bool -> cls
| CZero : bool -> cls
| CFin : Q -> cls.

Definition classify (x : number) : cls :=
  match x with
  | NaN => CNaN
  | PInf => CInf false
  | NInf => CInf true
  | NZero => CZero true
  | Fin q => if Qeq_bool q 0 then CZero false else CFin q
  end.

Definition isNaN (x : number) : bool :=
  match x with NaN => true | _ => false end.

(** The global [isFinite] on a Number. *)
Definition isFinite (x : number) : bool :=
  match x with
  | NaN | PInf | NInf => false
  | NZero | Fin _ => true
  end.

Definition value (x : number) : option Q :=
  match x with
  | Fin q => Some q
  | NZero => Some 0
  | _ => None
  end.

Definition signBit (x : number) : bool :=
  match x with
  | NInf | NZero => true
  | Fin q => Qltb q 0
  | _ => false
  end.

(** Unary minus. *)
Definition neg (x : number) : number :=
  match x with
  | NaN => NaN
  | PInf => NInf
  | NInf => PInf
  | NZero => Fin 0
  | Fin q => if Qeq_bool q 0 then NZero else Fin (- q)
  end.

(** [x * y] *)
Definition mul (x y : number) : number :=
  match classify x, classify y with
  | CNaN, _ | _, CNaN => NaN
  | CInf _, CZero _ | CZero _, CInf _ => NaN
  | CFin a, CFin b => round64 (a * b)
  | CInf _, _ | _, CInf _ => inf (xorb (signBit x) (signBit y))
  | _, _ => zero (xorb (signBit x) (signBit y))
  end.

(** [x / y] *)
Definition div (x y : number) : number :=
  match classify x, classify y with
  | CNaN, _ | _, CNaN => NaN
  | CInf _, CInf _ | CZero _, CZero _ => NaN
  | CFin a, CFin b => round64 (a / b)
  | CInf _, _ | _, CZero _ => inf (xorb (signBit x) (signBit y))
  | _, _ => zero (xorb (signBit x) (signBit y))
  end.

(** [x + y] *)
Definition add (x y : number) : number :=
  match classify x, classify y with
  | CNaN, _ | _, CNaN => NaN
  | CInf s, CInf t => if Bool.eqb s t then inf s else NaN
  | CInf s, _ => inf s
  | _, CInf t => inf t
  | CZero s, CZero t => zero (s && t)
  | CZero _, CFin _ => y
  | CFin _, CZero _ => x
  | CFin a, CFin b => round64 (a + b)
  end.

(** [x - y] *)
Definition sub (x y : number) : number := add x (neg y).

(** The integer part of q, towards zero. *)
Definition Qtrunc (q : Q) : Z :=
  if Qltb q 0 then Qceiling q else Qfloor q.

(** [x % y]: the remainder of the truncating division, with the sign of
    the dividend.  It is always representable, so no rounding occurs. *)
Definition rem (x y : number) : number :=
  match classify x, classify y with
  | CNaN, _ | _, CNaN => NaN
  | CInf _, _ | _, CZero _ => NaN
  | CZero _, _ => x
  | CFin _, CInf _ => x
  | CFin a, CFin b =>
      let r := a - b * inject_Z (Qtrunc (a / b)) in
      if Qeq_bool r 0 then zero (Qltb a 0) else Fin (Qred r)
  end.

(** Numeric comparison; [None] when an operand is NaN. *)
Definition compare (x y : number) : option comparison :=
  match x, y with
  | NaN, _ | _, NaN => None
  | PInf, PInf | NInf, NInf => Some Eq
  | PInf, _ | _, NInf => Some Gt
  | NInf, _ | _, PInf => Some Lt
  | NZero, NZero => Some Eq
  | NZero, Fin b => Some (0 ?= b)
  | Fin a, NZero => Some (a ?= 0)
  | Fin a, Fin b => Some (a ?= b)
  end.

(** [x === y] on Numbers. *)
Definition strictEq (x y : number) : bool :=
  match compare x y with Some Eq => true | _ => false end.

(** [x < y] and [x > y] *)
Definition lt (x y : number) : bool :=
  match compare x y with Some Lt => true | _ => false end.
Definition gt (x y : number) : bool := lt y x.

(** [x <= y] *)
Definition le (x y : number) : bool :=
  match compare x y with Some Lt | Some Eq => true | _ => false end.

End JSNumber.

(** ** The Math object *)

Module JSMath.
Import JSString JSNumber.
Local Open Scope Z_scope.

(** [Math.LN2] and [Math.PI]: the binary64 values nearest to ln 2 and pi. *)
Definition LN2 : number := Fin (6243314768165359 # 9007199254740992).
Definition PI : number := Fin (884279719003555 # 281474976710656).

(** [Math.max(x, y)] and [Math.min(x, y)]; the positive zero is the larger. *)
Definition max (x y : number) : number :=
  match compare x y with
  | None => NaN
  | Some Lt => y
  | Some Gt => x
  | Some Eq => if signBit x then y else x
  end.

Definition min (x y : number) : number :=
  match compare x y with
  | None => NaN
  | Some Lt => x
  | Some Gt => y
  | Some Eq => if signBit x then x else y
  end.

(** [Math.ceil] and [Math.floor] *)
Definition ceil (x : number) : number :=
  match classify x with
  | CFin q =>
      let c := Qceiling q in
      if c =? 0 then zero (Qltb q 0) else Fin (inject_Z c)
  | _ => x
  end.

Definition floor (x : number) : number :=
  match classify x with
  | CFin q => Fin (inject_Z (Qfloor q))
  | _ => x
  end.

(** The transcendental functions are implementation-approximated in
    ECMA-262; only their special cases are fixed.  They are modelled by
    the rounding of a fixed-point evaluation of their series, carried to
    far more bits than a binary64 holds. *)

(** sum over k < fuel of (+/-) z^(2k+1)/(2k+1), in fixed point: [pw] is
    z^(2k+1) and [zz] is z^2, both scaled by [one]. *)
Fixpoint oddSeries (alt : bool) (fuel : nat) (k pw zz one acc : Z) : Z :=
  match fuel with
  | O => acc
  | S f =>
      let t := pw / (2 * k + 1) in
      let acc' := if alt && Z.odd k then acc - t else acc + t in
      oddSeries alt f (k + 1) (pw * zz / one) zz one acc'
  end.

Definition atanhFix (P z : Z) : Z :=
  oddSeries false (Z.to_nat (P / 3) + 2) 0 z (z * z / 2 ^ P) (2 ^ P) 0.

Definition atanFix (P z : Z) : Z :=
  oddSeries true (Z.to_nat (P / 4) + 2) 0 z (z * z / 2 ^ P) (2 ^ P) 0.

(** ln n scaled by 2^P, for an integer n >= 1:
    n = 2^d * f with 1 <= f < 2, and ln f = 2 atanh ((f-1)/(f+1)). *)
Definition lnFix (P n : Z) : Z :=
  let d := Z.log2 n in
  let z := (n - 2 ^ d) * 2 ^ P / (n + 2 ^ d) in
  2 * atanhFix P z + d * (2 * atanhFix P (2 ^ P / 3)).

Definition LOG_BITS : Z := 320.

(** [Math.log] *)
Definition log (x : number) : number :=
  match classify x with
  | CNaN => NaN
  | CInf s => if s then NaN else PInf
  | CZero _ => NInf
  | CFin q =>
      if Qltb q 0 then NaN
      else round64 ((lnFix LOG_BITS (Qnum q) - lnFix LOG_BITS (Zpos (Qden q)))
                    # (2 ^ Z.to_pos LOG_BITS))
  end.

(** pi scaled by 2^P, by Machin's formula. *)
Definition piFix (P : Z) : Z :=
  16 * atanFix P (2 ^ P / 5) - 4 * atanFix P (2 ^ P / 239).

(** sum of the terms r^n/n!, n, n+2, ... with alternating signs. *)
Fixpoint taylor (fuel : nat) (n term r one acc : Z) : Z :=
  match fuel with
  | O => acc
  | S f =>
      taylor f (n + 2) (- (term * r / one * r / one / ((n + 1) * (n + 2))))
             r one (acc + term)
  end.

(** cos q or sin q, for a rational q <> 0: the argument is reduced by a
    multiple of pi/2 computed to enough bits for the size of q. *)
Definition trigFix (wantSin : bool) (q : Q) : number :=
  let P := 320 + Z.abs (ilog2 (Qabs q)) in
  let one := 2 ^ P in
  let x := Qfloor (q * inject_Z one)%Q in
  let halfpi := piFix P / 2 in
  let k := (2 * x + halfpi) / (2 * halfpi) in
  let r := x - k * halfpi in
  let fuel := (Z.to_nat (P / 8) + 10)%nat in
  let s := taylor fuel 1 r r one 0 in
  let c := taylor fuel 0 one r one 0 in
  let v :=
    match k mod 4, wantSin with
    | 0, false | 1, true => c
    | 1, false | 2, true => - s
    | 2, false | 3, true => - c
    | _, _ => s
    end in
  round64 (v # (2 ^ Z.to_pos P)).

(** [Math.cos] and [Math.sin] *)
Definition cos (x : number) : number :=
  match classify x with
  | CNaN | CInf _ => NaN
  | CZero _ => num 1
  | CFin q => trigFix false q
  end.

Definition sin (x : number) : number :=
  match classify x with
  | CNaN | CInf _ => NaN
  | CZero _ => x
  | CFin q => trigFix true q
  end.

End JSMath.

(** ** Conversions between strings and numbers *)

Module JSConv.
Import JSString JSNumber RegExp.
Local Open Scope Z_scope.

Fixpoint span (p : N -> bool) (s : jsstring) : jsstring * jsstring :=
  match s with
  | [] => ([], [])
  | c :: t =>
      if p c then let (a, b) := span p t in (c :: a, b) else ([], s)
  end.

Definition isEmpty (s : jsstring) : bool :=
  match s with [] => true | _ => false end.

(** The value of a digit in a radix up to 16; [None] when it is not one. *)
Definition radixDigit (radix : Z) (c : N) : option Z :=
  let v :=
    if isDigit c then Z.of_N c - 48
    else if ((97 <=? c) && (c <=? 102))%N then Z.of_N c - 87
    else if ((65 <=? c) && (c <=? 70))%N then Z.of_N c - 55
    else radix in
  if v <? radix then Some v else None.

Definition isRadixDigit (radix : Z) (c : N) : bool :=
  match radixDigit radix c with Some _ => true | None => false end.

Definition digitsValue (radix : Z) (ds : jsstring) : Z :=
  fold_left
    (fun acc c => acc * radix + match radixDigit radix c with
                                | Some v => v
                                | None => 0
                                end) ds 0.

(** ExponentPart, when one is there in full; otherwise nothing is taken. *)
Definition parseExponent (s : jsstring) : Z * jsstring :=
  match s with
  | c :: r =>
      if ((c =? 101) || (c =? 69))%N then
        let (sgn, r') :=
          match r with
          | d :: r'' =>
              if (d =? PLUS)%N then (1, r'')
              else if (d =? MINUS)%N then (-1, r'')
              else (1, r)
          | [] => (1, r)
          end in
        let (ds, rest) := span isDigit r' in
        if isEmpty ds then (0, s) else (sgn * digitsValue 10 ds, rest)
      else (0, s)
  | [] => (0, s)
  end.

(** The longest prefix that is a StrUnsignedDecimalLiteral, its Number
    value, and what follows it. *)
Definition parseUnsignedDecimal (s : jsstring) : option (number * jsstring) :=
  if startsWith s (str "Infinity") then Some (PInf, skipn 8 s)
  else
    let (ip, r1) := span isDigit s in
    let '(dot, fp, r2) :=
      match r1 with
      | c :: r =>
          if (c =? POINT)%N then
            let (fp, r') := span isDigit r in (true, fp, r')
          else (false, [], r1)
      | [] => (false, [], r1)
      end in
    if isEmpty ip && isEmpty fp then None
    else
      let (e, rest) := parseExponent r2 in
      Some (round64 (inject_Z (digitsValue 10 (ip ++ fp))
                     * pow10 (e - Z.of_nat (List.length fp)))%Q,
            rest).

(** StrDecimalLiteral: an optional sign before the unsigned literal. *)
Definition parseDecimal (s : jsstring) : option (number * jsstring) :=
  match s with
  | c :: r =>
      if (c =? PLUS)%N then parseUnsignedDecimal r
      else if (c =? MINUS)%N then
        match parseUnsignedDecimal r with
        | Some (v, rest) => Some (neg v, rest)
        | None => None
        end
      else parseUnsignedDecimal s
  | [] => None
  end.

(** NonDecimalIntegerLiteral: 0b, 0o or 0x and digits of that radix. *)
Definition parseNonDecimal (s : jsstring) : option number :=
  match s with
  | z :: p :: ds =>
      let radix :=
        if ((p =? 120) || (p =? 88))%N then 16
        else if ((p =? 111) || (p =? 79))%N then 8
        else if ((p =? 98) || (p =? 66))%N then 2
        else 0 in
      if (z =? 48)%N && (0 <? radix) && negb (isEmpty ds)
         && forallb (isRadixDigit radix) ds
      then Some (round64 (inject_Z (digitsValue radix ds)))
      else None
  | _ => None
  end.

(** [Number(s)] on a string: StringToNumber of ECMA-262. *)
Definition Number (s : jsstring) : number :=
  let t := trim s in
  if isEmpty t then Fin 0
  else
    match parseNonDecimal t with
    | Some v => v
    | None =>
        match parseDecimal t with
        | Some (v, []) => v
        | _ => NaN
        end
    end.

(** [parseFloat(s)] on a string: the longest decimal prefix. *)
Definition parseFloat (s : jsstring) : number :=
  match parseDecimal (trimStart s) with
  | Some (v, _) => v
  | None => NaN
  end.

(** floor(log10 q), for q > 0. *)
Definition ilog10 (q : Q) : Z :=
  let e := ilog2 q * 30103 / 100000 in
  let e := if Qle_bool (pow10 (e + 1)) q then e + 1 else e in
  if Qle_bool (pow10 e) q then e else e - 1.

Definition roundHalfUp (q : Q) : Z := Qfloor (q + (1 # 2))%Q.

(** The shortest decimal [c * 10^e] that rounds to the positive binary64
    [a]: Number::toString looks for the least number of digits, and among
    those for the digits nearest to [a], the even ones on a tie. *)
Fixpoint shortestFuel (fuel : nat) (k : Z) (a : Q) (n0 : Z) : Z * Z :=
  let e := n0 - k in
  let lo := Qfloor (a / pow10 e)%Q in
  let c1 := roundHalfEven (a / pow10 e)%Q in
  let c2 := if c1 =? lo then lo + 1 else lo in
  let hits c :=
    match round64 (inject_Z c * pow10 e)%Q with
    | Fin b => Qeq_bool a b
    | _ => false
    end in
  match fuel with
  | O => (c1, e)
  | S f =>
      if hits c1 then (c1, e)
      else if hits c2 then (c2, e)
      else shortestFuel f (k + 1) a n0
  end.

Fixpoint stripZeros (fuel : nat) (c e : Z) : Z * Z :=
  match fuel with
  | O => (c, e)
  | S f => if (c mod 10 =? 0) && negb (c =? 0)
           then stripZeros f (c / 10) (e + 1) else (c, e)
  end.

Definition zeros (n : Z) : jsstring := repeat 48%N (Z.to_nat n).

(** Number::toString of a positive binary64, radix 10. *)
Definition toStringPos (a : Q) : jsstring :=
  let (c0, e0) := shortestFuel 16 1 a (ilog10 a + 1) in
  let (c, e) := stripZeros 400 c0 e0 in
  let ds := decimalOfZ c in
  let k := Z.of_nat (List.length ds) in
  let n := k + e in
  if (k <=? n) && (n <=? 21) then ds ++ zeros (n - k)
  else if (0 <? n) && (n <=? 21) then
    firstn (Z.to_nat n) ds ++ [46%N] ++ skipn (Z.to_nat n) ds
  else if (-6 <? n) && (n <=? 0) then
    str "0." ++ zeros (- n) ++ ds
  else
    let ex := (if n - 1 <? 0 then 45%N else 43%N)
              :: decimalOfZ (Z.abs (n - 1)) in
    match ds with
    | [d] => d :: 101%N :: ex
    | d :: more => d :: 46%N :: more ++ 101%N :: ex
    | [] => []
    end.

(** [String(x)] on a Number, and its use in template literals. *)
Definition toString (x : number) : jsstring :=
  match classify x with
  | CNaN => str "NaN"
  | CInf s => if s then str "-Infinity" else str "Infinity"
  | CZero _ => str "0"
  | CFin q =>
      if Qltb q 0 then 45%N :: toStringPos (- q) else toStringPos q
  end.

(** [Number.prototype.toFixed(f)] *)
Definition toFixed (x : number) (f : nat) : jsstring :=
  match value x with
  | None => toString x
  | Some q =>
      if Qle_bool (pow10 21) (Qabs q) then toString x
      else
        let a := Qabs q in
        let n := roundHalfUp (a * pow10 (Z.of_nat f))%Q in
        let m := decimalOfZ n in
        let m := repeat 48%N (S f - List.length m) ++ m in
        let k := List.length m in
        (if Qltb q 0 then [45%N] else [])
        ++ match f with
           | O => m
           | _ => firstn (k - f) m ++ [46%N] ++ skipn (k - f) m
           end
  end.

(** [parseInt(s)] on a string, without a radix: an optional sign, an optional
    [0x], and the longest run of digits of the radix. *)
Definition parseInt (s : jsstring) : number :=
  let t := trimStart s in
  let (minus, t) :=
    match t with
    | c :: r =>
        if (c =? MINUS)%N then (true, r)
        else if (c =? PLUS)%N then (false, r)
        else (false, t)
    | [] => (false, t)
    end in
  let (radix, t) :=
    match t with
    | z :: x :: r =>
        if (z =? 48)%N && ((x =? 120) || (x =? 88))%N then (16, r)
        else (10, t)
    | _ => (10, t)
    end in
  let (ds, _) := span (isRadixDigit radix) t in
  if isEmpty ds then NaN
  else
    let v := digitsValue radix ds in
    if v =? 0 then zero minus
    else round64 (inject_Z (if minus then - v else v)).

(** [ToUint32]: the integer part of the number modulo 2^32, and 0 for
    NaN and the infinities. *)
Definition toUint32 (x : number) : Z :=
  match classify x with
  | CFin q => (Qtrunc q mod 2 ^ 32)%Z
  | _ => 0%Z
  end.

End JSConv.

(** ** SVG elements *)

Module SVG.
Import JSString JSNumber JSConv.

(** A value handed to [setAttribute], which stores its string form. *)
Inductive jsval : Type :=
| VNum : number -> jsval
| VStr : jsstring -> jsval.

Definition stringOf (v : jsval) : jsstring :=
  match v with
  | VNum x => toString x
  | VStr s => s
  end.

(** An element: tag, attributes in insertion order, children, and its
    text content. *)
#[warnings="-register-all"] Inductive Element : Type :=
| Elem : jsstring -> list (jsstring * jsstring) -> list Element -> jsstring
         -> Element.

Definition tagName (e : Element) := let 'Elem t _ _ _ := e in t.
Definition attributes (e : Element) := let 'Elem _ a _ _ := e in a.
Definition children (e : Element) := let 'Elem _ _ c _ := e in c.
Definition textContent (e : Element) := let 'Elem _ _ _ x := e in x.

Fixpoint setAttr (k v : jsstring) (attrs : list (jsstring * jsstring)) :=
  match attrs with
  | [] => [(k, v)]
  | (k', v') :: rest =>
      if JSString.eqb k k' then (k, v) :: rest
      else (k', v') :: setAttr k v rest
  end.

(** [elem.setAttribute(key, value)] *)
Definition setAttribute (e : Element) (k : jsstring) (v : jsval) : Element :=
  let 'Elem t a c x := e in Elem t (setAttr k (stringOf v) a) c x.

(** [parent.appendChild(child)] *)
Definition appendChild (parent child : Element) : Element :=
  let 'Elem t a c x := parent in Elem t a (c ++ [child]) x.

(** [elem.textContent = s] *)
Definition setTextContent (e : Element) (s : jsstring) : Element :=
  let 'Elem t a _ _ := e in Elem t a [] s.

(** [while (e.firstChild) e.removeChild(e.firstChild)] *)
Definition removeChildren (e : Element) : Element :=
  let 'Elem t a _ x := e in Elem t a [] x.

Fixpoint getAttr (k : jsstring) (attrs : list (jsstring * jsstring))
  : option jsstring :=
  match attrs with
  | [] => None
  | (k', v) :: rest => if JSString.eqb k k' then Some v else getAttr k rest
  end.

(** [elem.getAttribute(key)]: [None] is [null]. *)
Definition getAttribute (e : Element) (k : jsstring) : option jsstring :=
  getAttr k (attributes e).

End SVG.

(* ================================================================== *)
(** * Part II. utils.js                                               *)
(* ================================================================== *)

Module Utils_js.
Import JSString JSNumber JSConv RegExp SVG.

Definition SVG_NS : jsstring := str "http://www.w3.org/2000/svg".

Module DEFAULTS.
Definition PADDING : number := num 60.
Definition MIN_RADIUS : number := num 20.
Definition MIN_DIMENSION : number := num 400.
Definition POINT_RADIUS : number := round64 (52 # 10).
Definition LABEL_DISTANCE : number := num 35.
Definition EXPORT_PADDING : number := num 30.
Definition EXPORT_MIN_SIZE : number := num 300.
Definition EXPORT_SCALE : number := num 2.
End DEFAULTS.

(** [const log2 = x => Math.log(x) / Math.LN2] *)
Definition log2 (x : number) : number := div (JSMath.log x) JSMath.LN2.

(** [parseRatio]: [None] is the source's [null]. *)
Definition parseRatio (input : jsstring) : option number :=
  let s := trim input in
  if isEmpty s then None
  else if includes s (str "/") then
    match map Number (split SLASH s) with
    | a :: b :: _ =>
        if isFinite a && isFinite b && negb (strictEq b (num 0))
        then Some (div a b) else None
    | _ => None
    end
  else
    let n := Number s in
    if isFinite n && gt n (num 0) then Some n else None.

(** The [type] of a token or an item: ['period'], ['cents'], ['ratio']. *)
Inductive kind : Type := Period | Cents | Ratio.

(** What [parseCentsOrRatioToCents] returns: [{ cents, raw, type }]. *)
Module Token.
Record t : Type := mk { cents : number; raw : jsstring; type : kind }.
End Token.

(** [/^-?\d+(?:\.\d+)?(?:c|¢)?$/i] *)
Definition centsPattern : re :=
  Seq (Opt (lit MINUS))
      (Seq (Plus digit)
           (Seq (Opt (Seq (lit POINT) (Plus digit)))
                (Opt (Alt (ilit LETTER_c) (ilit CENT_SIGN))))).

(** The class [[c¢]] under the [i] flag. *)
Definition isCentUnit (c : N) : bool :=
  ((Canonicalize c =? Canonicalize LETTER_c) ||
   (Canonicalize c =? Canonicalize CENT_SIGN))%N.

(** [parseCentsOrRatioToCents]: [None] is the source's [null]. *)
Definition parseCentsOrRatioToCents (token : jsstring) : option Token.t :=
  let raw := trim token in
  if isEmpty raw || startsWith raw (str "#") then None
  else
    let tryRatio :=
      match parseRatio raw with
      | Some r => Some (Token.mk (mul (num 1200) (log2 r)) raw Ratio)
      | None => None
      end in
    let centsLike := removeAll isWhiteSpace raw in
    if test centsPattern centsLike then
      let n := Number (removeAll isCentUnit centsLike) in
      if isFinite n then Some (Token.mk n raw Cents) else tryRatio
    else tryRatio.

(** [parsePeriodToCents] *)
Definition parsePeriodToCents (input : jsstring) : number :=
  let s := trim input in
  if isEmpty s then NaN
  else if test centsPattern s then Number (removeAll isCentUnit s)
  else
    match parseRatio s with
    | Some r => mul (num 1200) (log2 r)
    | None => NaN
    end.

(** [normalizePeriodLabel] *)
Definition normalizePeriodLabel (inputValue : jsstring) (periodCents : number)
  : jsstring :=
  let s := trim inputValue in
  if isEmpty s then toFixed periodCents 0
  else if includes s (str "/") then s
  else if test centsPattern s then trim (removeAll isCentUnit s)
  else toFixed periodCents 0.

(** An element of the array [buildItems] returns:
    [{ cents, raw, type, deg, x, y }]. *)
Module Item.
Record t : Type := mk
    { cents : number; raw : jsstring; type : kind;
      deg : number; x : number; y : number }.
End Item.

(** Line 139: [((it.cents / periodCents) * 360) % 360] *)
Definition angleDeg (c periodCents : number) : number :=
  rem (mul (div c periodCents) (num 360)) (num 360).

(** The body of the loop of [buildItems] for a parsed line:
    [{ ...it, deg, x, y }]. *)
Definition placeItem (it : Token.t) (cx cy radius periodCents : number)
  : Item.t :=
  let deg := angleDeg (Token.cents it) periodCents in
  let theta := div (mul (sub deg (num 90)) JSMath.PI) (num 180) in
  let x := add cx (mul (JSMath.cos theta) radius) in
  let y := add cy (mul (JSMath.sin theta) radius) in
  Item.mk (Token.cents it) (Token.raw it) (Token.type it) deg x y.

(** [buildItems] *)
Definition buildItems (periodInputValue intervalsText : jsstring)
    (cx cy radius periodCents : number) : list Item.t :=
  let periodLabel := normalizePeriodLabel periodInputValue periodCents in
  let items :=
    [Item.mk (num 0) periodLabel Period (num 0) cx (sub cy radius)] in
  let lines := splitLines intervalsText in
  fold_left
    (fun items line =>
       match parseCentsOrRatioToCents line with
       | None => items
       | Some it => items ++ [placeItem it cx cy radius periodCents]
       end)
    lines items.

(** A bounding rectangle, as far as the program reads it. *)
Module Rect.
Record t : Type := mk { width : number; height : number }.
End Rect.

(** What [calculateDimensions] returns: [{ W, H, cx, cy, radius }]. *)
Module Dims.
Record t : Type := mk
    { W : number; H : number; cx : number; cy : number; radius : number }.
End Dims.

(** [calculateDimensions] *)
Definition calculateDimensions (containerRect : Rect.t)
    (circleSizeMultiplier : number) : Dims.t :=
  let W := JSMath.max (Rect.width containerRect) DEFAULTS.MIN_DIMENSION in
  let H := JSMath.max (Rect.height containerRect) DEFAULTS.MIN_DIMENSION in
  let maxRadius := sub (div (JSMath.min W H) (num 2)) DEFAULTS.PADDING in
  let baseRadius := JSMath.max DEFAULTS.MIN_RADIUS maxRadius in
  let radius := mul baseRadius circleSizeMultiplier in
  Dims.mk W H (div W (num 2)) (div H (num 2)) radius.

(** [createSVGElement]: [attrs] holds the entries of the object in the
    order [Object.entries] lists them, which for the names the scripts
    write, none of them an integer, is the order of writing;
    [setAttribute] takes each of these names. *)
Definition createSVGElement (tag : jsstring) (attrs : list (jsstring * jsval))
  : Element :=
  fold_left (fun elem kv => setAttribute elem (fst kv) (snd kv))
            attrs (Elem tag [] [] []).

End Utils_js.

(* ================================================================== *)
(** * Part III. The page, export.js and script.js                     *)
(* ================================================================== *)

(** What the scripts read from the page's elements, and what [draw]
    writes to them. *)
Module Dom.
Import JSString JSNumber SVG Utils_js.

Record t : Type := mk
  { periodInput : jsstring;            (* periodInput.value *)
    intervalsTA : jsstring;            (* intervalsTA.value *)
    showCircle : bool;                 (* showCircle.checked *)
    showRays : bool;                   (* showRays.checked *)
    showLabels : bool;                 (* showLabels.checked *)
    circleSize : jsstring;             (* circleSize.value *)
    labelSize : jsstring;              (* labelSize.value *)
    labelDistance : option jsstring;   (* labelDistance?.value *)
    containerRect : Rect.t;  (* svg.parentElement.getBoundingClientRect() *)
    panelRect : Rect.t;      (* the rectangle of the panel around it *)
    headerHeight : option number;      (* of the panel's h2, when it has one *)
    paddingTop : jsstring;             (* getComputedStyle(panel) *)
    paddingBottom : jsstring;
    periodInfo : option jsstring;      (* periodInfo.textContent, if present *)
    containerWidth : jsstring;         (* container.style.width *)
    containerHeight : jsstring;        (* container.style.height *)
    svg : Element }.                   (* the live [svg] element *)

End Dom.

Module Export_js.
Import JSString JSNumber JSConv SVG Utils_js.

(** What [calculateExportDimensions] returns: [{ size, radius, cx, cy }]. *)
Module ExportDims.
Record t : Type := mk
  { size : number; radius : number; cx : number; cy : number }.
End ExportDims.

(** [parseFloat(labelDistance?.value || DEFAULTS.LABEL_DISTANCE)]: a missing
    element or an empty value gives way to the default, which [parseFloat]
    reads back from its string form. *)
Definition labelDistanceOf (dom : Dom.t) : number :=
  parseFloat
    match Dom.labelDistance dom with
    | Some v => if isEmpty v then toString DEFAULTS.LABEL_DISTANCE else v
    | None => toString DEFAULTS.LABEL_DISTANCE
    end.

(** [calculateExportDimensions] *)
Definition calculateExportDimensions (dom : Dom.t) : ExportDims.t :=
  let circleSizeValue := parseFloat (Dom.circleSize dom) in
  let rect := Dom.containerRect dom in
  let dims := calculateDimensions rect circleSizeValue in
  let labelDist :=
    if Dom.showLabels dom then labelDistanceOf dom else num 0 in
  let totalRadius := add (Dims.radius dims) labelDist in
  let size :=
    JSMath.max DEFAULTS.EXPORT_MIN_SIZE
      (JSMath.ceil (mul (add totalRadius DEFAULTS.EXPORT_PADDING) (num 2))) in
  ExportDims.mk size (Dims.radius dims) (div size (num 2)) (div size (num 2)).

(** The template literal [`0 0 ${a} ${b}`]. *)
Definition viewBoxOf (a b : number) : jsstring :=
  str "0 0 " ++ toString a ++ str " " ++ toString b.

(** The end of a ray or the anchor of a label: the point at angle [deg]
    on the circle of radius [r] around [(cx, cy)]. *)
Definition onCircle (deg cx cy r : number) : number * number :=
  let angle := div (mul (sub deg (num 90)) JSMath.PI) (num 180) in
  (add cx (mul (JSMath.cos angle) r), add cy (mul (JSMath.sin angle) r)).

Definition rayLine (item : Item.t) (cx cy r : number) : Element :=
  let (x2, y2) := onCircle (Item.deg item) cx cy r in
  createSVGElement (str "line")
    [(str "x1", VNum cx); (str "y1", VNum cy);
     (str "x2", VNum x2); (str "y2", VNum y2);
     (str "stroke", VStr (str "black")); (str "stroke-width", VNum (num 1))].

Definition pointGroup (item : Item.t) (cx cy labelRadius : number)
    (withLabel : bool) (fontSize : jsstring) : Element :=
  let g := createSVGElement (str "g") [] in
  let pt := createSVGElement (str "circle")
    [(str "cx", VNum (Item.x item)); (str "cy", VNum (Item.y item));
     (str "r", VNum DEFAULTS.POINT_RADIUS);
     (str "fill", VStr (str "black")); (str "stroke", VStr (str "none"))] in
  let g := appendChild g pt in
  if withLabel then
    let (lx, ly) := onCircle (Item.deg item) cx cy labelRadius in
    let label := createSVGElement (str "text")
      [(str "x", VNum lx); (str "y", VNum ly);
       (str "fill", VStr (str "black"));
       (str "font-size", VStr fontSize);
       (str "dominant-baseline", VStr (str "middle"));
       (str "text-anchor", VStr (str "middle"))] in
    appendChild g (setTextContent label (Item.raw item))
  else g.

Definition backgroundRect (w h : number) (more : list (jsstring * jsval))
  : Element :=
  createSVGElement (str "rect")
    ([(str "x", VNum (num 0)); (str "y", VNum (num 0));
      (str "width", VNum w); (str "height", VNum h);
      (str "fill", VStr (str "white"))] ++ more).

Definition guideCircle (cx cy r : number) : Element :=
  createSVGElement (str "circle")
    [(str "cx", VNum cx); (str "cy", VNum cy); (str "r", VNum r);
     (str "fill", VStr (str "none")); (str "stroke", VStr (str "black"));
     (str "stroke-width", VNum (num 1))].

(** [createExportSVG] *)
Definition createExportSVG (dom : Dom.t) : Element :=
  let dims := calculateExportDimensions dom in
  let size := ExportDims.size dims in
  let periodCents := parsePeriodToCents (Dom.periodInput dom) in
  if negb (isFinite periodCents) || strictEq periodCents (num 0) then
    let empty := createSVGElement (str "svg")
      [(str "width", VNum size); (str "height", VNum size);
       (str "viewBox", VStr (viewBoxOf size size))] in
    let bg := backgroundRect size size [] in
    appendChild empty bg
  else
    let svg := createSVGElement (str "svg")
      [(str "width", VNum size); (str "height", VNum size);
       (str "viewBox", VStr (viewBoxOf size size));
       (str "xmlns", VStr SVG_NS)] in
    let bg := backgroundRect size size [] in
    let svg := appendChild svg bg in
    let svg :=
      if Dom.showCircle dom then
        appendChild svg (guideCircle (ExportDims.cx dims) (ExportDims.cy dims)
                           (ExportDims.radius dims))
      else svg in
    let items :=
      buildItems (Dom.periodInput dom) (Dom.intervalsTA dom)
        (ExportDims.cx dims) (ExportDims.cy dims) (ExportDims.radius dims)
        periodCents in
    let svg :=
      if Dom.showRays dom then
        fold_left
          (fun svg item =>
             appendChild svg
               (rayLine item (ExportDims.cx dims) (ExportDims.cy dims)
                  (ExportDims.radius dims)))
          items svg
      else svg in
    let labelDist := labelDistanceOf dom in
    let labelRadius := add (ExportDims.radius dims) labelDist in
    fold_left
      (fun svg item =>
         appendChild svg
           (pointGroup item (ExportDims.cx dims) (ExportDims.cy dims)
              labelRadius (Dom.showLabels dom) (Dom.labelSize dom)))
      items svg.

(** [getFilename]: [exportFilename] is the value of the element of that
    id, when the page has one. *)
Definition getFilename (exportFilename : option jsstring)
    (extension : jsstring) : jsstring :=
  let name :=
    match exportFilename with
    | Some value =>
        if isEmpty (trim value) then str "pitch-class-circle" else trim value
    | None => str "pitch-class-circle"
    end in
  name ++ str "." ++ extension.

(** The canvas of [handleRasterExport]: what lines 192 to 199 leave in its
    width and height.  These are [unsigned long] attributes that reflect
    the content attributes: a number assigned to one is converted as
    [ToUint32] does, and a result above 2^31 - 1 gives the default, which
    is 300 for the width and 150 for the height. *)
Module Canvas.
Record t : Type := mk { width : Z; height : Z }.

Definition reflect (default : Z) (x : number) : Z :=
  let v := toUint32 x in
  if (v <=? 2147483647)%Z then v else default.
End Canvas.

(** [String(null)] stands for a missing attribute. *)
Definition rasterCanvas (dom : Dom.t) : Canvas.t :=
  let exportSvg := createExportSVG dom in
  let squareSize :=
    parseInt match getAttribute exportSvg (str "width") with
             | Some v => v
             | None => str "null"
             end in
  Canvas.mk (Canvas.reflect 300 (mul squareSize DEFAULTS.EXPORT_SCALE))
            (Canvas.reflect 150 (mul squareSize DEFAULTS.EXPORT_SCALE)).

End Export_js.

Module Script_js.
Import JSString JSNumber JSConv SVG Utils_js.

(** [clearSVG] *)
Definition clearSVG (svg : Element) : Element := removeChildren svg.

(** [drawBackground] *)
Definition drawBackground (svg : Element) (W H : number) : Element :=
  appendChild svg
    (Export_js.backgroundRect W H [(str "stroke", VStr (str "none"))]).

(** [drawCircle] *)
Definition drawCircle (svg : Element) (cx cy radius : number) : Element :=
  appendChild svg (Export_js.guideCircle cx cy radius).

(** [drawRays] *)
Definition drawRays (svg : Element) (items : list Item.t)
    (cx cy radius : number) : Element :=
  fold_left (fun svg item => appendChild svg (Export_js.rayLine item cx cy radius))
            items svg.

(** [drawPointsAndLabels] *)
Definition drawPointsAndLabels (dom : Dom.t) (svg : Element)
    (items : list Item.t) (cx cy radius : number) : Element :=
  let labelDist := Export_js.labelDistanceOf dom in
  let labelRadius := add radius labelDist in
  let fontSize := Dom.labelSize dom in
  let showLabelsEnabled := Dom.showLabels dom in
  fold_left
    (fun svg item =>
       appendChild svg
         (Export_js.pointGroup item cx cy labelRadius showLabelsEnabled fontSize))
    items svg.

(** [parseFloat(style.paddingTop || '0')] *)
Definition paddingOf (s : jsstring) : number :=
  parseFloat (if isEmpty s then str "0" else s).

Definition withSvg (dom : Dom.t) (svg : Element) : Dom.t :=
  Dom.mk (Dom.periodInput dom) (Dom.intervalsTA dom) (Dom.showCircle dom)
    (Dom.showRays dom) (Dom.showLabels dom) (Dom.circleSize dom)
    (Dom.labelSize dom) (Dom.labelDistance dom) (Dom.containerRect dom)
    (Dom.panelRect dom) (Dom.headerHeight dom) (Dom.paddingTop dom)
    (Dom.paddingBottom dom) (Dom.periodInfo dom) (Dom.containerWidth dom)
    (Dom.containerHeight dom) svg.

(** [container.style.width = w; container.style.height = h].  The style
    takes a value that is a length, as [`${squareSize}px`] is when the
    side is finite: it is then the string of an integer. *)
Definition withContainerSize (dom : Dom.t) (w h : jsstring) : Dom.t :=
  Dom.mk (Dom.periodInput dom) (Dom.intervalsTA dom) (Dom.showCircle dom)
    (Dom.showRays dom) (Dom.showLabels dom) (Dom.circleSize dom)
    (Dom.labelSize dom) (Dom.labelDistance dom) (Dom.containerRect dom)
    (Dom.panelRect dom) (Dom.headerHeight dom) (Dom.paddingTop dom)
    (Dom.paddingBottom dom) (Dom.periodInfo dom) w h (Dom.svg dom).

(** [if (periodInfo) periodInfo.textContent = text] *)
Definition withPeriodInfo (dom : Dom.t) (text : jsstring) : Dom.t :=
  Dom.mk (Dom.periodInput dom) (Dom.intervalsTA dom) (Dom.showCircle dom)
    (Dom.showRays dom) (Dom.showLabels dom) (Dom.circleSize dom)
    (Dom.labelSize dom) (Dom.labelDistance dom) (Dom.containerRect dom)
    (Dom.panelRect dom) (Dom.headerHeight dom) (Dom.paddingTop dom)
    (Dom.paddingBottom dom)
    (match Dom.periodInfo dom with Some _ => Some text | None => None end)
    (Dom.containerWidth dom) (Dom.containerHeight dom) (Dom.svg dom).

(** [draw]: the page after the call. *)
Definition draw (dom : Dom.t) : Dom.t :=
  let dom := withSvg dom (clearSVG (Dom.svg dom)) in
  let panelRect := Dom.panelRect dom in
  let headerH :=
    match Dom.headerHeight dom with Some h => h | None => num 0 end in
  let padTop := paddingOf (Dom.paddingTop dom) in
  let padBottom := paddingOf (Dom.paddingBottom dom) in
  let availableH :=
    JSMath.max (num 0)
      (sub (sub (sub (sub (Rect.height panelRect) headerH) padTop) padBottom)
           (num 18)) in
  let availableW := Rect.width panelRect in
  let squareSize :=
    JSMath.max DEFAULTS.MIN_DIMENSION
      (JSMath.floor (JSMath.min availableW availableH)) in
  let px := toString squareSize ++ str "px" in
  let dom := withContainerSize dom px px in
  let containerRect := Rect.mk squareSize squareSize in
  let dims := calculateDimensions containerRect
                (parseFloat (Dom.circleSize dom)) in
  let svg := Dom.svg dom in
  let svg := setAttribute svg (str "width") (VNum (Dims.W dims)) in
  let svg := setAttribute svg (str "height") (VNum (Dims.H dims)) in
  let svg := setAttribute svg (str "viewBox")
               (VStr (Export_js.viewBoxOf (Dims.W dims) (Dims.H dims))) in
  let svg := drawBackground svg (Dims.W dims) (Dims.H dims) in
  let dom := withSvg dom svg in
  let periodCents := parsePeriodToCents (Dom.periodInput dom) in
  let dom :=
    withPeriodInfo dom
      (if isFinite periodCents
       then str "Period: " ++ toFixed periodCents 3 ++ [CENT_SIGN]
       else str "Period: " ++ [8212%N]) in
  if negb (isFinite periodCents) || strictEq periodCents (num 0) then dom
  else
    let svg := Dom.svg dom in
    let svg :=
      if Dom.showCircle dom
      then drawCircle svg (Dims.cx dims) (Dims.cy dims) (Dims.radius dims)
      else svg in
    let items :=
      buildItems (Dom.periodInput dom) (Dom.intervalsTA dom)
        (Dims.cx dims) (Dims.cy dims) (Dims.radius dims) periodCents in
    let svg :=
      if Dom.showRays dom
      then drawRays svg items (Dims.cx dims) (Dims.cy dims) (Dims.radius dims)
      else svg in
    let svg :=
      drawPointsAndLabels dom svg items (Dims.cx dims) (Dims.cy dims)
        (Dims.radius dims) in
    withSvg dom svg.

End Script_js.

(* ================================================================== *)
(** * Part IV. The vocabulary of the statements                       *)
(* ================================================================== *)

Module Vocabulary.
Import JSString JSNumber JSConv RegExp SVG Utils_js.

(** No code unit of the string is white space. *)
Definition noSpace (s : jsstring) : Prop :=
  forall c, In c s -> isWhiteSpace c = false.

(** What it means for a string to match a pattern as a whole. *)
Inductive Matches : re -> jsstring -> Prop :=
| MEps : Matches Eps []
| MChr p c : p c = true -> Matches (Chr p) [c]
| MSeq a b s t : Matches a s -> Matches b t -> Matches (Seq a b) (s ++ t)
| MAltL a b s : Matches a s -> Matches (Alt a b) s
| MAltR a b s : Matches b s -> Matches (Alt a b) s
| MStar0 a : Matches (Star a) []
| MStarS a s t : Matches a s -> Matches (Star a) t -> Matches (Star a) (s ++ t).

(** The text of a cents token: an optional minus sign, the integer digits,
    the fraction digits after a point when there are any, and an optional
    unit. *)
Definition centsText (minus : bool) (ds fs : jsstring) (unit : option N)
  : jsstring :=
  (if minus then [MINUS] else [])
  ++ ds
  ++ match fs with [] => [] | _ => POINT :: fs end
  ++ match unit with Some u => [u] | None => [] end.

Definition allDigits (s : jsstring) : Prop := forallb isDigit s = true.

Definition isUnit (unit : option N) : Prop :=
  match unit with Some u => isCentUnit u = true | None => True end.

(** The code units a numeric literal can hold: digits, ASCII letters, the
    signs and the point. *)
Definition isNumericChar (c : N) : bool :=
  isDigit c || ((65 <=? c) && (c <=? 90))%N || ((97 <=? c) && (c <=? 122))%N
  || (c =? PLUS)%N || (c =? MINUS)%N || (c =? POINT)%N.

(** The rational a decimal literal denotes, from its integer digits [ds]
    and its fraction digits [fs], and the Number it is read as. *)
Definition decimalValue (ds fs : jsstring) : Q :=
  inject_Z (digitsValue 10 (ds ++ fs)) * pow10 (- Z.of_nat (List.length fs)).

Definition decimalNumber (minus : bool) (ds fs : jsstring) : number :=
  let v := round64 (decimalValue ds fs) in if minus then neg v else v.

(** The valid ratio tokens and the ratio each denotes: a fraction [a/b]
    whose sides are finite numbers with [b] not zero, or a positive decimal
    that is not a cents text. *)
Inductive RatioToken : jsstring -> number -> Prop :=
| RT_fraction (a b : jsstring) :
    ~ In SLASH a -> ~ In SLASH b ->
    isFinite (Number a) = true -> isFinite (Number b) = true ->
    strictEq (Number b) (num 0) = false ->
    RatioToken (a ++ SLASH :: b) (div (Number a) (Number b))
| RT_decimal (s : jsstring) :
    test centsPattern (trim s) = false ->
    isFinite (Number s) = true -> gt (Number s) (num 0) = true ->
    RatioToken s (Number s).

(** [x] is finite and is the rational [q]. *)
Definition denotes (x : number) (q : Q) : Prop :=
  exists v, value x = Some v /\ v == q.

(** The decimal text of 10^309: a one and 309 zeros. *)
Definition tenTo309 : jsstring := 49%N :: repeat 48%N 309.


(** Every code unit of the string is white space. *)
Definition allWhite (s : jsstring) : Prop := forallb isWhiteSpace s = true.

(** The text with every line feed turned into a carriage return and a
    line feed. *)
Definition crlf (text : jsstring) : jsstring :=
  flat_map (fun c => if (c =? LF)%N then [CR; LF] else [c]) text.

(** The tokens of the lines of a text that parse, in the order of the
    lines. *)
Definition tokensOf (intervalsText : jsstring) : list Token.t :=
  flat_map (fun line => match parseCentsOrRatioToCents line with
                        | Some it => [it]
                        | None => []
                        end) (splitLines intervalsText).

(** What an item keeps of its token. *)
Definition tokenOf (item : Item.t) : Token.t :=
  Token.mk (Item.cents item) (Item.raw item) (Item.type item).

(** The kind of an element and of its children, with their texts: what is
    drawn, without where. *)
Definition layer (e : Element) : jsstring * list (jsstring * jsstring) :=
  (tagName e, map (fun c => (tagName c, textContent c)) (children e)).

(** The code units of the string form of a number: digits, the signs, the
    point, the exponent mark and the letters of [NaN] and [Infinity]. *)
Definition isNumeralChar (c : N) : bool :=
  isDigit c ||
  existsb (N.eqb c) [45; 43; 46; 101; 78; 97; 73; 110; 102; 105; 116; 121]%N.

(** The labels of what is drawn: the period label and the texts of the
    lines that parse. *)
Definition labelsOf (dom : Dom.t) : list jsstring :=
  normalizePeriodLabel (Dom.periodInput dom)
    (parsePeriodToCents (Dom.periodInput dom))
  :: map Token.raw (tokensOf (Dom.intervalsTA dom)).

(** What is to be drawn for a page, from the bottom up: the background;
    then, when the period is a finite number other than zero, the guide
    circle if it is shown, a line for each label if the rays are shown, and
    a group for each label, holding a point and the label if the labels are
    shown. *)
Definition layersOf (dom : Dom.t)
  : list (jsstring * list (jsstring * jsstring)) :=
  let periodCents := parsePeriodToCents (Dom.periodInput dom) in
  (str "rect", [])
  :: if negb (isFinite periodCents) || strictEq periodCents (num 0) then []
     else
       (if Dom.showCircle dom then [(str "circle", [])] else [])
       ++ (if Dom.showRays dom
           then map (fun _ => (str "line", [])) (labelsOf dom) else [])
       ++ map (fun raw =>
                 (str "g",
                  (str "circle", [])
                  :: if Dom.showLabels dom then [(str "text", raw)] else []))
              (labelsOf dom).

(** A number is at least [q], or at most [q]: the infinity on that side,
    or a finite number on that side. *)
Definition atLeast (x : number) (q : Q) : Prop :=
  x = PInf \/ exists r, value x = Some r /\ (q <= r)%Q.

Definition atMost (x : number) (q : Q) : Prop :=
  x = NInf \/ exists r, value x = Some r /\ (r <= q)%Q.

(** A line of the text with carriage returns is a line of the text, or
    that line and a carriage return. *)
Definition sameLine (l' l : jsstring) : Prop := l' = l \/ l' = l ++ [CR].

(** Two pages hold the same inputs: what [draw] and the export read and
    do not write. *)
Definition sameInputs (a b : Dom.t) : Prop :=
  Dom.periodInput a = Dom.periodInput b /\
  Dom.intervalsTA a = Dom.intervalsTA b /\
  Dom.showCircle a = Dom.showCircle b /\
  Dom.showRays a = Dom.showRays b /\
  Dom.showLabels a = Dom.showLabels b /\
  Dom.circleSize a = Dom.circleSize b /\
  Dom.labelSize a = Dom.labelSize b /\
  Dom.labelDistance a = Dom.labelDistance b /\
  Dom.containerRect a = Dom.containerRect b /\
  Dom.panelRect a = Dom.panelRect b /\
  Dom.headerHeight a = Dom.headerHeight b /\
  Dom.paddingTop a = Dom.paddingTop b /\
  Dom.paddingBottom a = Dom.paddingBottom b.

(** The three attributes [draw] sets on the live element. *)
Definition setFrame (w h vb : jsstring) (attrs : list (jsstring * jsstring))
  : list (jsstring * jsstring) :=
  setAttr (str "viewBox") vb
    (setAttr (str "height") h (setAttr (str "width") w attrs)).

(** What [Math.ceil] and [Math.floor] return: a special value, a zero, or
    an integer. *)
Inductive integral : number -> Prop :=
| I_NaN : integral NaN
| I_PInf : integral PInf
| I_NInf : integral NInf
| I_NZero : integral NZero
| I_zero q : (q == 0)%Q -> integral (Fin q)
| I_int c : integral (Fin (inject_Z c)).

(** The side of a frame: NaN, infinite, or an integer that is at least
    [least]. *)
Definition frameSide (least : Z) (s : number) : Prop :=
  s = NaN \/ s = PInf \/ exists n : Z, (least <= n)%Z /\ s = num n.

(** One step of reading a decimal numeral. *)
Definition digitStep (acc : Z) (c : N) : Z :=
  acc * 10 + match radixDigit 10 c with Some v => v | None => 0 end.

(** An element as the scripts create one: a tag and attributes, and
    neither children nor text. *)
Definition leaf (tag : jsstring) (attrs : list (jsstring * jsstring))
  : Element := Elem tag attrs [] [].

(** A text in cents format: a cents text with its digits. *)
Definition centsFormat (s : jsstring) : Prop :=
  exists minus ds fs unit,
    s = centsText minus ds fs unit /\
    ds <> [] /\ allDigits ds /\ allDigits fs /\ isUnit unit.

(** The normalized period label, in the words of the specification: a
    text in ratio format, that is, with a slash, is kept as typed, without
    the white space around it; a text in cents format loses its unit; for
    any other text the label is the period in cents, rounded to an
    integer. *)
Inductive NormalizedLabel (inputValue : jsstring) (periodCents : number)
  : jsstring -> Prop :=
| NL_ratio :
    In SLASH (trim inputValue) ->
    NormalizedLabel inputValue periodCents (trim inputValue)
| NL_cents (minus : bool) (ds fs : jsstring) (unit : option N) :
    trim inputValue = centsText minus ds fs unit ->
    ds <> [] -> allDigits ds -> allDigits fs -> isUnit unit ->
    NormalizedLabel inputValue periodCents (centsText minus ds fs None)
| NL_other :
    ~ In SLASH (trim inputValue) -> ~ centsFormat (trim inputValue) ->
    NormalizedLabel inputValue periodCents (toFixed periodCents 0).



(** A binary64 number other than zero, as a fraction: its magnitude is in
    the range of the format, and its numerator and denominator are of
    limited size. *)
Definition sized (q : Q) : Prop :=
  (pow2 (-1074) <= Qabs q)%Q /\ (Qabs q < pow2 1024)%Q /\
  (Z.abs (Qnum q) < 2 ^ 2100)%Z /\ (Z.pos (Qden q) < 2 ^ 2100)%Z.

(** The finite values of a number other than zero are of that kind. *)
Definition rounded (x : number) : Prop :=
  forall q, value x = Some q -> ~ q == 0 -> sized q.

(** The rational [Math.log] rounds, for a rational greater than zero: the
    difference of the fixed-point logarithms of its numerator and of its
    denominator. *)
Definition logFix (q : Q) : Q :=
  (JSMath.lnFix JSMath.LOG_BITS (Qnum q)
   - JSMath.lnFix JSMath.LOG_BITS (Z.pos (Qden q)))
  # (2 ^ Z.to_pos JSMath.LOG_BITS).

End Vocabulary.

(** The logarithm in the reals, by which [Math.log] is measured. *)
Module Analysis.
Import Reals.
Local Open Scope R_scope.

(** The inverse hyperbolic tangent, by which the logarithm is computed:
    ln ((1 + t) / (1 - t)) = 2 atanh t. *)
Definition atanh (t : R) : R := / 2 * (ln (1 + t) - ln (1 - t)).

(** The partial sums of its series, from the term of rank [k], and those
    of its derivative. *)
Fixpoint atanhSum (n k : nat) (t : R) : R :=
  match n with
  | O => 0
  | S n' => / INR (S (2 * k)) * t ^ S (2 * k) + atanhSum n' (S k) t
  end.

Fixpoint evenSum (n k : nat) (t : R) : R :=
  match n with
  | O => 0
  | S n' => t ^ (2 * k) + evenSum n' (S k) t
  end.

(** The scale of the fixed-point numbers of [Math.log]. *)
Definition scale : R := IZR (2 ^ JSMath.LOG_BITS).

End Analysis.

(* ================================================================== *)
(** * Part V. Properties of the built-ins                            *)
(* ================================================================== *)

Module StringFacts.
Import JSString Vocabulary.

Lemma trimStart_app_nonspace (a : jsstring) (c : N) (b : jsstring) :
  isWhiteSpace c = false ->
  trimStart (a ++ c :: b) = trimStart a ++ c :: b.
Proof.
  intros Hc. induction a as [|x a IH]; simpl.
  - now rewrite Hc.
  - destruct (isWhiteSpace x); [exact IH | reflexivity].
Qed.

Lemma trimEnd_cons_nonspace (c : N) (b : jsstring) :
  isWhiteSpace c = false -> trimEnd (c :: b) = c :: trimEnd b.
Proof.
  intros Hc. simpl. destruct (trimEnd b); [now rewrite Hc | reflexivity].
Qed.

Lemma trimEnd_nonempty_cons (x : N) (a : jsstring) :
  trimEnd a <> [] -> trimEnd (x :: a) = x :: trimEnd a.
Proof.
  intros H. simpl. destruct (trimEnd a); [contradiction | reflexivity].
Qed.

Lemma trimEnd_app_nonspace (a : jsstring) (c : N) (b : jsstring) :
  isWhiteSpace c = false ->
  trimEnd (a ++ c :: b) = a ++ c :: trimEnd b.
Proof.
  intros Hc. induction a as [|x a IH].
  - apply trimEnd_cons_nonspace, Hc.
  - change ((x :: a) ++ c :: b) with (x :: (a ++ c :: b)).
    rewrite trimEnd_nonempty_cons; rewrite IH; [reflexivity|].
    destruct a; discriminate.
Qed.

Lemma trimStart_idem (s : jsstring) : trimStart (trimStart s) = trimStart s.
Proof.
  induction s as [|c s IH]; simpl; [reflexivity|].
  destruct (isWhiteSpace c) eqn:E; [exact IH|].
  simpl. now rewrite E.
Qed.

Lemma trimEnd_idem (s : jsstring) : trimEnd (trimEnd s) = trimEnd s.
Proof.
  induction s as [|c s IH]; simpl; [reflexivity|].
  destruct (trimEnd s) as [|d t] eqn:E.
  - destruct (isWhiteSpace c) eqn:Ec; simpl; [reflexivity | now rewrite Ec].
  - rewrite trimEnd_nonempty_cons; [now rewrite IH | rewrite IH; discriminate].
Qed.

Lemma trimEnd_all_space (s : jsstring) :
  (forall c, In c s -> isWhiteSpace c = true) -> trimEnd s = [].
Proof.
  induction s as [|c s IH]; simpl; intros H; [reflexivity|].
  rewrite IH by (intros; apply H; now right).
  now rewrite (H c (or_introl eq_refl)).
Qed.

Lemma trimEnd_nil_all_space (s : jsstring) :
  trimEnd s = [] -> forall c, In c s -> isWhiteSpace c = true.
Proof.
  induction s as [|x s IH]; simpl; intros H c Hin; [contradiction|].
  destruct (trimEnd s) eqn:E; [|discriminate].
  destruct (isWhiteSpace x) eqn:Ex; [|discriminate].
  destruct Hin as [<-|Hin]; [exact Ex | now apply IH].
Qed.

(** Trimming the two ends commutes. *)
Lemma trimStart_trimEnd (s : jsstring) :
  trimStart (trimEnd s) = trimEnd (trimStart s).
Proof.
  induction s as [|c s IH]; [reflexivity|].
  destruct (isWhiteSpace c) eqn:Ec.
  - change (trimStart (c :: s)) with
      (if isWhiteSpace c then trimStart s else c :: s).
    rewrite Ec, <- IH. simpl.
    destruct (trimEnd s); simpl; now rewrite Ec.
  - change (trimStart (c :: s)) with
      (if isWhiteSpace c then trimStart s else c :: s).
    rewrite Ec, trimEnd_cons_nonspace by exact Ec. simpl. now rewrite Ec.
Qed.

Lemma trim_idem (s : jsstring) : trim (trim s) = trim s.
Proof.
  unfold trim.
  now rewrite trimStart_trimEnd, trimStart_idem, trimEnd_idem.
Qed.

Lemma trim_trimStart (s : jsstring) : trim (trimStart s) = trim s.
Proof. unfold trim. now rewrite trimStart_idem. Qed.

Lemma trim_trimEnd (s : jsstring) : trim (trimEnd s) = trim s.
Proof. unfold trim. now rewrite trimStart_trimEnd, trimEnd_idem. Qed.

Lemma trimStart_noSpace (s : jsstring) : noSpace s -> trimStart s = s.
Proof.
  destruct s as [|c s]; [reflexivity|]. intros H. simpl.
  now rewrite (H c (or_introl eq_refl)).
Qed.

Lemma trimEnd_noSpace (s : jsstring) : noSpace s -> trimEnd s = s.
Proof.
  induction s as [|c s IH]; [reflexivity|]. intros H.
  rewrite trimEnd_cons_nonspace by (apply H; now left).
  rewrite IH; [reflexivity|]. intros d Hd. apply H. now right.
Qed.

Lemma trim_noSpace (s : jsstring) : noSpace s -> trim s = s.
Proof.
  intros H. unfold trim. rewrite trimStart_noSpace by exact H.
  now apply trimEnd_noSpace.
Qed.

Lemma removeAll_noSpace (s : jsstring) :
  noSpace s -> removeAll isWhiteSpace s = s.
Proof.
  induction s as [|c s IH]; [reflexivity|]. intros H. simpl.
  rewrite (H c (or_introl eq_refl)). simpl. f_equal.
  apply IH. intros d Hd. apply H. now right.
Qed.

Lemma removeAll_fixed_noSpace (s : jsstring) :
  removeAll isWhiteSpace s = s -> noSpace s.
Proof.
  intros H c Hc. rewrite <- H in Hc. apply filter_In in Hc.
  destruct Hc as [_ Hc]. now destruct (isWhiteSpace c).
Qed.

Lemma removeAll_In (cls : N -> bool) (s : jsstring) (c : N) :
  In c (removeAll cls s) <-> In c s /\ cls c = false.
Proof.
  unfold removeAll. rewrite filter_In.
  destruct (cls c); simpl; intuition congruence.
Qed.

Lemma removeAll_idem (cls : N -> bool) (s : jsstring) :
  removeAll cls (removeAll cls s) = removeAll cls s.
Proof.
  unfold removeAll. induction s as [|c s IH]; [reflexivity|]. simpl.
  destruct (cls c) eqn:E; simpl; [exact IH|]. rewrite E. simpl. now f_equal.
Qed.

Lemma In_trimStart (s : jsstring) (c : N) : In c (trimStart s) -> In c s.
Proof.
  induction s as [|x s IH]; simpl; [tauto|].
  destruct (isWhiteSpace x); simpl; intuition.
Qed.

Lemma In_trimEnd (s : jsstring) (c : N) : In c (trimEnd s) -> In c s.
Proof.
  induction s as [|x s IH]; simpl; [tauto|].
  destruct (trimEnd s) eqn:E.
  - destruct (isWhiteSpace x); simpl; intuition.
  - simpl. intros [->|H]; [now left | right; apply IH; exact H].
Qed.

Lemma In_trim (s : jsstring) (c : N) : In c (trim s) -> In c s.
Proof. intros H. now apply In_trimStart, In_trimEnd. Qed.

(** [includes] and [split] for a separator of one code unit. *)
Lemma startsWith_one (s : jsstring) (c : N) :
  startsWith s [c] = match s with x :: _ => (c =? x)%N | [] => false end.
Proof.
  destruct s as [|x [|y s]]; simpl; [reflexivity | | ]; apply andb_true_r.
Qed.

Lemma includes_one (s : jsstring) (c : N) :
  includes s [c] = existsb (N.eqb c) s.
Proof.
  induction s as [|x s IH]; [reflexivity|].
  change (includes (x :: s) [c]) with (startsWith (x :: s) [c] || includes s [c]).
  rewrite startsWith_one, IH. reflexivity.
Qed.

Lemma includes_one_true (s : jsstring) (c : N) :
  includes s [c] = true <-> In c s.
Proof.
  rewrite includes_one, existsb_exists. split.
  - intros (x & Hx & E). apply N.eqb_eq in E. now subst.
  - intros H. exists c. split; [exact H | apply N.eqb_refl].
Qed.

Lemma includes_one_false (s : jsstring) (c : N) :
  includes s [c] = false <-> ~ In c s.
Proof.
  rewrite <- includes_one_true. destruct (includes s [c]); intuition congruence.
Qed.

Lemma split_no_sep (sep : N) (s : jsstring) :
  ~ In sep s -> split sep s = [s].
Proof.
  induction s as [|c s IH]; [reflexivity|]. intros H. simpl.
  destruct (N.eqb_spec c sep) as [->|_]; [exfalso; apply H; now left|].
  rewrite IH by (intros Hs; apply H; now right). reflexivity.
Qed.

Lemma split_app (sep : N) (a b : jsstring) :
  ~ In sep a -> split sep (a ++ sep :: b) = a :: split sep b.
Proof.
  induction a as [|c a IH]; intros H; simpl.
  - now rewrite N.eqb_refl.
  - destruct (N.eqb_spec c sep) as [->|_]; [exfalso; apply H; now left|].
    rewrite IH by (intros Hs; apply H; now right). reflexivity.
Qed.

End StringFacts.

Module RegExpFacts.
Import JSString RegExp Utils_js Vocabulary.

Lemma nullable_Matches (r : re) : nullable r = true <-> Matches r [].
Proof.
  induction r as [| p | a IHa b IHb | a IHa b IHb | a IHa]; simpl.
  - split; [constructor | reflexivity].
  - split; [discriminate | intros H; inversion H].
  - rewrite andb_true_iff, IHa, IHb. split.
    + intros [Ha Hb]. exact (MSeq Ha Hb).
    + intros H. inversion H as [| | a' b' s t Hs Ht | | | |]; subst.
      match goal with E : _ ++ _ = [] |- _ =>
        apply app_eq_nil in E; destruct E; subst end.
      now split.
  - rewrite orb_true_iff, IHa, IHb. split.
    + intros [H|H]; [now apply MAltL | now apply MAltR].
    + intros H. inversion H; subst; [now left | now right].
  - split; [constructor | reflexivity].
Qed.

Lemma Matches_empty (s : jsstring) : ~ Matches (Chr (fun _ => false)) s.
Proof. intros H. inversion H. discriminate. Qed.

Lemma Matches_star_cons (a : re) (c : N) (s : jsstring) :
  Matches (Star a) (c :: s) ->
  exists s1 s2, s = s1 ++ s2 /\ Matches a (c :: s1) /\ Matches (Star a) s2.
Proof.
  intros H. remember (Star a) as r eqn:Er. remember (c :: s) as w eqn:Ew.
  revert Er Ew.
  induction H as [| | | | | a' | a' u t Hu _ Ht IHt]; intros Er Ew;
    try discriminate.
  injection Er as ->.
  destruct u as [|x u].
  - apply IHt; [reflexivity | exact Ew].
  - simpl in Ew. injection Ew as -> <-. now exists u, t.
Qed.

Lemma deriv_Matches (r : re) (c : N) (s : jsstring) :
  Matches (deriv c r) s <-> Matches r (c :: s).
Proof.
  revert s.
  induction r as [| p | a IHa b IHb | a IHa b IHb | a IHa]; intros s; simpl.
  - split; intros H; [now apply Matches_empty in H | inversion H].
  - destruct (p c) eqn:E.
    + split; intros H.
      * inversion H; subst. now constructor.
      * inversion H; subst. constructor.
    + split; intros H; [now apply Matches_empty in H|].
      inversion H; subst. congruence.
  - assert (Hseq : Matches (Seq (deriv c a) b) s ->
                   Matches (Seq a b) (c :: s)).
    { intros H. inversion H as [| | a' b' u t Hu Ht | | | |]; subst.
      apply IHa in Hu. exact (MSeq Hu Ht). }
    assert (Hinv : Matches (Seq a b) (c :: s) ->
                   Matches (Seq (deriv c a) b) s \/
                   (Matches a [] /\ Matches b (c :: s))).
    { intros H. inversion H as [| | a' b' u t Hu Ht | | | |]; subst.
      match goal with E : _ ++ _ = _ |- _ => rename E into Eq end.
      destruct u as [|x u].
      - right. simpl in Eq. subst. now split.
      - left. simpl in Eq. injection Eq as -> <-.
        apply IHa in Hu. exact (MSeq Hu Ht). }
    destruct (nullable a) eqn:Na.
    + split; intros H.
      * inversion H; subst; [now apply Hseq|].
        apply nullable_Matches in Na.
        match goal with Hb : Matches (deriv c b) s |- _ =>
          apply IHb in Hb; exact (MSeq Na Hb) end.
      * destruct (Hinv H) as [H1|[_ H2]]; [now apply MAltL|].
        apply MAltR. now apply IHb.
    + split; intros H; [now apply Hseq|].
      destruct (Hinv H) as [H1|[H1 _]]; [exact H1|].
      apply nullable_Matches in H1. congruence.
  - split; intros H; inversion H; subst.
    + apply MAltL. now apply IHa.
    + apply MAltR. now apply IHb.
    + apply MAltL. now apply IHa.
    + apply MAltR. now apply IHb.
  - split; intros H.
    + inversion H as [| | a' b' u t Hu Ht | | | |]; subst.
      apply IHa in Hu. exact (MStarS Hu Ht).
    + apply Matches_star_cons in H. destruct H as (s1 & s2 & -> & H1 & H2).
      apply IHa in H1. exact (MSeq H1 H2).
Qed.

(** The matcher decides the relation. *)
Lemma test_Matches (r : re) (s : jsstring) : test r s = true <-> Matches r s.
Proof.
  revert r. induction s as [|c s IH]; intros r; simpl.
  - apply nullable_Matches.
  - rewrite IH. apply deriv_Matches.
Qed.

Lemma Matches_star_chr (p : N -> bool) (s : jsstring) :
  Matches (Star (Chr p)) s <-> forallb p s = true.
Proof.
  split.
  - intros H. remember (Star (Chr p)) as r eqn:Er. revert Er.
    induction H as [| | | | | a | a u t Hu _ Ht IHt]; intros Er;
      try discriminate; [reflexivity|].
    injection Er as ->. inversion Hu; subst. simpl.
    rewrite IHt by reflexivity. now rewrite andb_true_r.
  - induction s as [|c s IH]; simpl; intros H; [constructor|].
    apply andb_true_iff in H. destruct H as [Hc Hs].
    change (c :: s) with ([c] ++ s).
    apply MStarS; [now constructor | now apply IH].
Qed.

Lemma Matches_plus_chr (p : N -> bool) (s : jsstring) :
  Matches (Plus (Chr p)) s <-> s <> [] /\ forallb p s = true.
Proof.
  unfold Plus. split.
  - intros H. inversion H as [| | a b u t Hu Ht | | | |]; subst.
    inversion Hu; subst. apply Matches_star_chr in Ht. simpl.
    split; [discriminate|]. now rewrite Ht, andb_true_r.
  - intros [Hne H]. destruct s as [|c s]; [contradiction|].
    simpl in H. apply andb_true_iff in H. destruct H as [Hc Hs].
    change (c :: s) with ([c] ++ s).
    apply MSeq; [now constructor | now apply Matches_star_chr].
Qed.

Lemma Matches_lit (c : N) (s : jsstring) : Matches (lit c) s <-> s = [c].
Proof.
  unfold lit. split.
  - intros H. inversion H; subst. f_equal. symmetry. now apply N.eqb_eq.
  - intros ->. constructor. apply N.eqb_refl.
Qed.

(** The strings the cents pattern matches. *)
Lemma centsPattern_shape (s : jsstring) :
  test centsPattern s = true <->
  exists minus ds fs unit,
    s = centsText minus ds fs unit /\
    ds <> [] /\ allDigits ds /\ allDigits fs /\ isUnit unit.
Proof.
  rewrite test_Matches. unfold centsPattern, centsText, allDigits. split.
  - intros H.
    inversion H as [| | ? ? s1 t1 H1 Hr1 | | | |]; subst; clear H.
    inversion Hr1 as [| | ? ? s2 t2 H2 Hr2 | | | |]; subst; clear Hr1.
    inversion Hr2 as [| | ? ? s3 t3 H3 H4 | | | |]; subst; clear Hr2.
    apply Matches_plus_chr in H2. destruct H2 as [Hne Hds].
    assert (Hm : exists minus : bool, s1 = if minus then [45%N] else []).
    { inversion H1; subst.
      - exists true. now apply Matches_lit.
      - match goal with E : Matches Eps _ |- _ => inversion E end.
        now exists false. }
    destruct Hm as [minus ->].
    assert (Hf : exists fs, forallb isDigit fs = true /\
                  s3 = match fs with [] => [] | _ => 46%N :: fs end).
    { inversion H3; subst.
      - match goal with E : Matches (Seq _ _) _ |- _ =>
          inversion E as [| | ? ? u v Hu Hv | | | |]; subst end.
        apply Matches_lit in Hu. subst.
        apply Matches_plus_chr in Hv. destruct Hv as [Hv1 Hv2].
        exists v. split; [exact Hv2|]. destruct v; [contradiction | reflexivity].
      - match goal with E : Matches Eps _ |- _ => inversion E end.
        now exists []. }
    destruct Hf as (fs & Hfs & ->).
    assert (Hu : exists unit, isUnit unit /\
                  t3 = match unit with Some u => [u] | None => [] end).
    { inversion H4; subst.
      - match goal with E : Matches (Alt _ _) _ |- _ =>
          inversion E; subst end;
        match goal with E : Matches (ilit _) _ |- _ =>
          unfold ilit in E; inversion E as [| p c Hc | | | | |]; subst end;
        exists (Some c); (split; [|reflexivity]); unfold isUnit, isCentUnit;
        rewrite Hc; [reflexivity | apply orb_true_r].
      - match goal with E : Matches Eps _ |- _ => inversion E end.
        now exists None. }
    destruct Hu as (unit & Hunit & ->).
    now exists minus, s2, fs, unit.
  - intros (minus & ds & fs & unit & -> & Hne & Hds & Hfs & Hu).
    apply MSeq.
    { destruct minus; [apply MAltL; now apply Matches_lit | apply MAltR; constructor]. }
    apply MSeq; [now apply Matches_plus_chr|].
    apply MSeq.
    { destruct fs as [|f fs]; [apply MAltR; constructor|].
      apply MAltL. change (46%N :: f :: fs) with ([46%N] ++ f :: fs).
      apply MSeq; [now apply Matches_lit|].
      apply Matches_plus_chr. split; [discriminate | exact Hfs]. }
    destruct unit as [u|]; [|apply MAltR; constructor].
    apply MAltL. unfold isUnit, isCentUnit in Hu.
    apply orb_true_iff in Hu. destruct Hu as [Hu|Hu].
    + apply MAltL. unfold ilit. now constructor.
    + apply MAltR. unfold ilit. now constructor.
Qed.

End RegExpFacts.

Module ConvFacts.
Import JSString JSNumber JSConv RegExp Utils_js StringFacts Vocabulary.

Lemma isDigit_range (c : N) : isDigit c = true <-> (48 <= c <= 57)%N.
Proof.
  unfold isDigit. rewrite andb_true_iff, !N.leb_le. tauto.
Qed.

Lemma digit_numeric (c : N) : isDigit c = true -> isNumericChar c = true.
Proof. intros H. unfold isNumericChar. now rewrite H. Qed.

Lemma digits_numeric (s : jsstring) :
  forallb isDigit s = true -> forallb isNumericChar s = true.
Proof.
  rewrite !forallb_forall. intros H c Hc. now apply digit_numeric, H.
Qed.

Lemma numeric_not_space (c : N) :
  isNumericChar c = true -> isWhiteSpace c = false.
Proof.
  unfold isNumericChar, isDigit.
  rewrite !orb_true_iff, !andb_true_iff, !N.leb_le, !N.eqb_eq.
  intros H. destruct (isWhiteSpace c) eqn:E; [exfalso|reflexivity].
  unfold isWhiteSpace in E. cbn [existsb] in E.
  rewrite !orb_true_iff, andb_true_iff, !N.eqb_eq, !N.leb_le in E.
  intuition (try discriminate; lia).
Qed.

Lemma span_spec (p : N -> bool) (s : jsstring) :
  s = fst (span p s) ++ snd (span p s) /\ forallb p (fst (span p s)) = true.
Proof.
  induction s as [|c s [IH1 IH2]]; simpl; [now split|].
  destruct (p c) eqn:E; [|now split].
  destruct (span p s) as [a b]; simpl in *. rewrite E, IH2.
  split; [now f_equal | reflexivity].
Qed.

Lemma span_all (p : N -> bool) (a b : jsstring) :
  forallb p a = true ->
  match b with [] => True | c :: _ => p c = false end ->
  span p (a ++ b) = (a, b).
Proof.
  intros Ha Hb. induction a as [|x a IH]; simpl.
  - destruct b as [|c b]; [reflexivity | simpl; now rewrite Hb].
  - simpl in Ha. apply andb_true_iff in Ha. destruct Ha as [Hx Ha].
    now rewrite Hx, IH.
Qed.

(** What the parsers consume is made of numeric characters. *)
Lemma parseExponent_spec (s : jsstring) :
  exists pre, s = pre ++ snd (parseExponent s) /\
              forallb isNumericChar pre = true.
Proof.
  unfold parseExponent. destruct s as [|c r]; [now exists []|].
  destruct ((c =? 101) || (c =? 69))%N eqn:Ec; [|now exists []].
  assert (Hc : isNumericChar c = true).
  { unfold isNumericChar. apply orb_true_iff in Ec.
    destruct Ec as [E|E]; apply N.eqb_eq in E; subst; reflexivity. }
  assert (Hgen : forall (sg : Z) (pre r' : jsstring),
             c :: r = (c :: pre) ++ r' -> forallb isNumericChar pre = true ->
             exists pre0,
               c :: r = pre0 ++
                 snd (let (ds, rest) := span isDigit r' in
                      if isEmpty ds then (0%Z, c :: r)
                      else ((sg * digitsValue 10 ds)%Z, rest)) /\
               forallb isNumericChar pre0 = true).
  { intros sg pre r' Hr Hpre.
    destruct (span_spec isDigit r') as [H1 H2].
    destruct (span isDigit r') as [ds rest]; simpl in *.
    destruct ds as [|d ds]; simpl; [now exists []|].
    exists (c :: pre ++ d :: ds). split.
    - rewrite Hr, H1. simpl. now rewrite <- app_assoc.
    - simpl. rewrite Hc. simpl. rewrite forallb_app, Hpre.
      now apply digits_numeric. }
  destruct r as [|d r''].
  - apply (Hgen 1%Z [] []); reflexivity.
  - destruct (N.eqb_spec d 43) as [->|_].
    + apply (Hgen 1%Z [43%N] r''); reflexivity.
    + destruct (N.eqb_spec d 45) as [->|_].
      * apply (Hgen (-1)%Z [45%N] r''); reflexivity.
      * apply (Hgen 1%Z [] (d :: r'')); reflexivity.
Qed.

Lemma str_Infinity :
  str "Infinity" = [73; 110; 102; 105; 110; 105; 116; 121]%N.
Proof. reflexivity. Qed.

Lemma startsWith_app (s p : jsstring) :
  startsWith s p = true -> s = p ++ skipn (List.length p) s.
Proof.
  revert s. induction p as [|a p IH]; intros s H; [reflexivity|].
  destruct s as [|b s]; [discriminate|]. simpl in H.
  apply andb_true_iff in H. destruct H as [E H]. apply N.eqb_eq in E. subst.
  simpl. f_equal. now apply IH.
Qed.

Lemma parseUnsignedDecimal_spec (s : jsstring) (v : number) (rest : jsstring) :
  parseUnsignedDecimal s = Some (v, rest) ->
  exists pre, s = pre ++ rest /\ forallb isNumericChar pre = true.
Proof.
  unfold parseUnsignedDecimal.
  destruct (startsWith s (str "Infinity")) eqn:Einf.
  - intros H. injection H as _ <-. exists (str "Infinity").
    split; [|reflexivity]. now apply startsWith_app in Einf.
  - destruct (span_spec isDigit s) as [H1 H2].
    destruct (span isDigit s) as [ip r1]; simpl in *.
    assert (Hgen : forall (dot : bool) (fp r2 mid : jsstring),
               r1 = mid ++ r2 -> forallb isNumericChar mid = true ->
               (if isEmpty ip && isEmpty fp then None
                else let (e, rest0) := parseExponent r2 in
                     Some (round64 (inject_Z (digitsValue 10 (ip ++ fp))
                             * pow10 (e - Z.of_nat (List.length fp)))%Q, rest0))
               = Some (v, rest) ->
               exists pre, s = pre ++ rest /\ forallb isNumericChar pre = true).
    { intros dot fp r2 mid Hr Hmid H.
      destruct (isEmpty ip && isEmpty fp); [discriminate|].
      destruct (parseExponent_spec r2) as (pre & Hp1 & Hp2).
      destruct (parseExponent r2) as [e rest0]; simpl in *.
      injection H as _ <-.
      exists (ip ++ mid ++ pre). split.
      - rewrite H1, Hr, Hp1 at 1. now rewrite <- !app_assoc.
      - rewrite !forallb_app, Hmid, Hp2. now rewrite digits_numeric. }
    destruct r1 as [|c r].
    + apply (Hgen false [] [] []); reflexivity.
    + destruct (N.eqb_spec c 46) as [->|_].
      * destruct (span_spec isDigit r) as [H3 H4].
        destruct (span isDigit r) as [fp r']; simpl in *.
        apply (Hgen true fp r' (46%N :: fp)).
        -- simpl. now f_equal.
        -- simpl. now apply digits_numeric.
      * apply (Hgen false [] (c :: r) []); reflexivity.
Qed.

Lemma parseDecimal_spec (s : jsstring) (v : number) (rest : jsstring) :
  parseDecimal s = Some (v, rest) ->
  exists pre, s = pre ++ rest /\ forallb isNumericChar pre = true.
Proof.
  unfold parseDecimal. destruct s as [|c r]; [discriminate|].
  destruct (N.eqb_spec c 43) as [->|_].
  - intros H. apply parseUnsignedDecimal_spec in H.
    destruct H as (pre & -> & Hp). now exists (43%N :: pre).
  - destruct (N.eqb_spec c 45) as [->|_].
    + destruct (parseUnsignedDecimal r) as [[v' rest']|] eqn:E; [|discriminate].
      intros H. injection H as _ <-.
      apply parseUnsignedDecimal_spec in E.
      destruct E as (pre & -> & Hp). now exists (45%N :: pre).
    + apply parseUnsignedDecimal_spec.
Qed.

Lemma radixDigit_numeric (radix : Z) (c : N) :
  isRadixDigit radix c = true -> isNumericChar c = true.
Proof.
  unfold isRadixDigit, radixDigit, isNumericChar.
  destruct (isDigit c); [reflexivity|].
  destruct ((97 <=? c) && (c <=? 102))%N eqn:E1.
  - intros _. apply andb_true_iff in E1. destruct E1 as [A B].
    apply N.leb_le in A, B.
    replace ((97 <=? c) && (c <=? 122))%N with true; [now rewrite orb_true_r|].
    symmetry. apply andb_true_iff. rewrite !N.leb_le. lia.
  - destruct ((65 <=? c) && (c <=? 70))%N eqn:E2.
    + intros _. apply andb_true_iff in E2. destruct E2 as [A B].
      apply N.leb_le in A, B.
      replace ((65 <=? c) && (c <=? 90))%N with true; [reflexivity|].
      symmetry. apply andb_true_iff. rewrite !N.leb_le. lia.
    + rewrite Z.ltb_irrefl. discriminate.
Qed.

Lemma parseNonDecimal_spec (s : jsstring) (v : number) :
  parseNonDecimal s = Some v -> forallb isNumericChar s = true.
Proof.
  unfold parseNonDecimal. destruct s as [|z [|p ds]]; try discriminate.
  set (radix := if ((p =? 120) || (p =? 88))%N then 16%Z
                else if ((p =? 111) || (p =? 79))%N then 8%Z
                else if ((p =? 98) || (p =? 66))%N then 2%Z else 0%Z).
  destruct ((z =? 48)%N && (0 <? radix)%Z && negb (isEmpty ds)
            && forallb (isRadixDigit radix) ds) eqn:E; [|discriminate].
  intros _. rewrite !andb_true_iff in E.
  destruct E as [[[Ez Er] _] Hds]. apply N.eqb_eq in Ez. subst z.
  simpl. apply andb_true_iff. split.
  - subst radix. unfold isNumericChar.
    destruct (N.eqb_spec p 120) as [->|_]; [reflexivity|].
    destruct (N.eqb_spec p 88) as [->|_]; [reflexivity|].
    destruct (N.eqb_spec p 111) as [->|_]; [reflexivity|].
    destruct (N.eqb_spec p 79) as [->|_]; [reflexivity|].
    destruct (N.eqb_spec p 98) as [->|_]; [reflexivity|].
    destruct (N.eqb_spec p 66) as [->|_]; [reflexivity|].
    simpl in Er. discriminate.
  - rewrite forallb_forall in *. intros c Hc.
    eapply radixDigit_numeric, Hds, Hc.
Qed.

(** A string that [Number] does not turn into NaN is, once trimmed, made
    of numeric characters only. *)
Lemma Number_chars (s : jsstring) :
  isNaN (Number s) = false -> forallb isNumericChar (trim s) = true.
Proof.
  unfold Number. destruct (trim s) as [|c t] eqn:Et; [reflexivity|].
  simpl isEmpty. cbv iota.
  destruct (parseNonDecimal (c :: t)) as [v|] eqn:E1.
  - intros _. now apply parseNonDecimal_spec in E1.
  - destruct (parseDecimal (c :: t)) as [[v [|x rest]]|] eqn:E2;
      try discriminate.
    intros _. apply parseDecimal_spec in E2.
    destruct E2 as (pre & -> & Hp). now rewrite app_nil_r.
Qed.

Lemma Number_space_NaN (s : jsstring) (c : N) :
  In c (trim s) -> isNumericChar c = false -> Number s = NaN.
Proof.
  intros Hin Hc. destruct (isNaN (Number s)) eqn:E.
  - now destruct (Number s).
  - apply Number_chars in E. rewrite forallb_forall in E.
    rewrite (E c Hin) in Hc. discriminate.
Qed.

End ConvFacts.

Module CentsFacts.
Import JSString JSNumber JSConv RegExp Utils_js Vocabulary.
Import StringFacts RegExpFacts ConvFacts.

Lemma isCentUnit_cases (u : N) :
  isCentUnit u = true <-> u = 99%N \/ u = 67%N \/ u = 162%N.
Proof.
  unfold isCentUnit, Canonicalize, CENT_SIGN. simpl.
  destruct ((97 <=? u) && (u <=? 122))%N eqn:E.
  - apply andb_true_iff in E. rewrite !N.leb_le in E.
    rewrite orb_true_iff, !N.eqb_eq. lia.
  - apply andb_false_iff in E. rewrite !N.leb_gt in E.
    rewrite orb_true_iff, !N.eqb_eq. lia.
Qed.

Lemma digit_not_unit (c : N) : isDigit c = true -> isCentUnit c = false.
Proof.
  intros H. apply isDigit_range in H.
  destruct (isCentUnit c) eqn:E; [|reflexivity].
  apply isCentUnit_cases in E. lia.
Qed.

Lemma unit_not_space (u : N) : isCentUnit u = true -> isWhiteSpace u = false.
Proof.
  intros H. apply isCentUnit_cases in H.
  destruct H as [->|[->| ->]]; reflexivity.
Qed.

Lemma removeAll_digits (s : jsstring) :
  forallb isDigit s = true -> removeAll isCentUnit s = s.
Proof.
  induction s as [|c s IH]; [reflexivity|]. simpl. intros H.
  apply andb_true_iff in H. destruct H as [Hc Hs].
  rewrite (digit_not_unit _ Hc). simpl. f_equal. now apply IH.
Qed.

Lemma removeAll_app (cls : N -> bool) (a b : jsstring) :
  removeAll cls (a ++ b) = removeAll cls a ++ removeAll cls b.
Proof. unfold removeAll. apply filter_app. Qed.

(** Stripping the unit of a cents text leaves its number. *)
Lemma removeAll_centsText (minus : bool) (ds fs : jsstring) (unit : option N) :
  allDigits ds -> allDigits fs -> isUnit unit ->
  removeAll isCentUnit (centsText minus ds fs unit) = centsText minus ds fs None.
Proof.
  unfold centsText, allDigits, isUnit. intros Hds Hfs Hu.
  rewrite !removeAll_app, (removeAll_digits _ Hds).
  match goal with
  | |- ?a ++ ds ++ ?b ++ ?c = ?a' ++ ds ++ ?b' ++ [] =>
      assert (E1 : a = a') by (now destruct minus);
      assert (E2 : b = b');
      [| assert (E3 : c = []); [| now rewrite E1, E2, E3]]
  end.
  - destruct fs as [|f fs]; [reflexivity|].
    change (removeAll isCentUnit (46%N :: f :: fs))
      with (46%N :: removeAll isCentUnit (f :: fs)).
    now rewrite (removeAll_digits _ Hfs).
  - destruct unit as [u|]; [|reflexivity]. simpl. now rewrite Hu.
Qed.

Lemma centsText_noSpace (minus : bool) (ds fs : jsstring) (unit : option N) :
  allDigits ds -> allDigits fs -> isUnit unit ->
  noSpace (centsText minus ds fs unit).
Proof.
  unfold centsText, allDigits, isUnit, noSpace. intros Hds Hfs Hu c Hc.
  rewrite forallb_forall in Hds, Hfs.
  rewrite !in_app_iff in Hc. destruct Hc as [Hc|[Hc|[Hc|Hc]]].
  - destruct minus; [|contradiction]. destruct Hc as [<-|[]]. reflexivity.
  - now apply numeric_not_space, digit_numeric, Hds.
  - destruct fs as [|f fs]; [contradiction|].
    destruct Hc as [<-|Hc]; [reflexivity|].
    now apply numeric_not_space, digit_numeric, Hfs.
  - destruct unit as [u|]; [|contradiction]. destruct Hc as [<-|[]].
    now apply unit_not_space.
Qed.

Lemma centsText_nonempty (minus : bool) (ds fs : jsstring) (unit : option N) :
  ds <> [] -> isEmpty (centsText minus ds fs unit) = false.
Proof.
  intros H. unfold centsText. destruct minus; [reflexivity|].
  destruct ds; [contradiction | reflexivity].
Qed.

(** The first code unit of a cents text is a minus sign or a digit. *)
Lemma centsText_head (minus : bool) (ds fs : jsstring) (unit : option N) :
  ds <> [] -> allDigits ds ->
  exists c rest, centsText minus ds fs unit = c :: rest /\
                 (c = 45%N \/ isDigit c = true).
Proof.
  intros Hne Hds. unfold centsText.
  destruct minus; [exists 45%N; eexists; split; [reflexivity | now left]|].
  destruct ds as [|d ds]; [contradiction|].
  unfold allDigits in Hds. simpl in Hds. apply andb_true_iff in Hds.
  exists d. eexists. split; [reflexivity | now right].
Qed.

Lemma parseExponent_unit (unit : option N) :
  isUnit unit ->
  parseExponent match unit with Some u => [u] | None => [] end
  = (0%Z, match unit with Some u => [u] | None => [] end).
Proof.
  destruct unit as [u|]; [|reflexivity]. simpl. intros H.
  apply isCentUnit_cases in H. destruct H as [->|[->| ->]]; reflexivity.
Qed.

Lemma startsWith_cons (a b : N) (s p : jsstring) :
  startsWith (b :: s) (a :: p) = (a =? b)%N && startsWith s p.
Proof. reflexivity. Qed.

Lemma parseUnsignedDecimal_digits (ds fs : jsstring) (unit : option N) :
  ds <> [] -> allDigits ds -> allDigits fs -> isUnit unit ->
  parseUnsignedDecimal (centsText false ds fs unit)
  = Some (round64 (decimalValue ds fs),
          match unit with Some u => [u] | None => [] end).
Proof.
  intros Hne Hds Hfs Hu. unfold centsText. simpl app.
  assert (Hne' : isEmpty ds = false)
    by (destruct ds; [contradiction|reflexivity]).
  unfold parseUnsignedDecimal.
  replace (startsWith _ (str "Infinity")) with false.
  2:{ destruct ds as [|d ds]; [contradiction|].
      unfold allDigits in Hds. simpl in Hds. apply andb_true_iff in Hds.
      destruct Hds as [Hd _]. apply isDigit_range in Hd.
      rewrite str_Infinity. simpl app. rewrite startsWith_cons.
      destruct (N.eqb_spec 73 d); [lia | reflexivity]. }
  unfold decimalValue.
  assert (Hu' : unit = None \/ unit = Some 99%N \/ unit = Some 67%N
                \/ unit = Some 162%N).
  { destruct unit as [u|]; [|now left]. right. simpl in Hu.
    apply isCentUnit_cases in Hu. destruct Hu as [->|[->| ->]]; tauto. }
  destruct fs as [|f fs].
  - destruct Hu' as [->|[->|[->| ->]]];
      (rewrite span_all; [|exact Hds|reflexivity]);
      simpl; rewrite Hne'; reflexivity.
  - rewrite span_all; [|exact Hds|reflexivity].
    set (tl := (f :: fs) ++ match unit with Some u => [u] | None => [] end).
    change ((46%N :: f :: fs) ++ match unit with Some u => [u] | None => [] end)
      with (46%N :: tl).
    cbv beta iota. rewrite N.eqb_refl. subst tl.
    destruct Hu' as [->|[->|[->| ->]]];
      (rewrite span_all; [|exact Hfs|reflexivity]);
      cbv beta iota; rewrite Hne'; reflexivity.
Qed.

Lemma parseDecimal_centsText (minus : bool) (ds fs : jsstring) (unit : option N) :
  ds <> [] -> allDigits ds -> allDigits fs -> isUnit unit ->
  parseDecimal (centsText minus ds fs unit)
  = Some (decimalNumber minus ds fs,
          match unit with Some u => [u] | None => [] end).
Proof.
  intros Hne Hds Hfs Hu.
  pose proof (parseUnsignedDecimal_digits unit Hne Hds Hfs Hu) as P.
  unfold decimalNumber. destruct minus.
  - change (centsText true ds fs unit) with (45%N :: centsText false ds fs unit).
    unfold parseDecimal. simpl N.eqb. cbv iota. now rewrite P.
  - rewrite <- P. destruct ds as [|d ds']; [contradiction|].
    unfold allDigits in Hds. simpl in Hds. apply andb_true_iff in Hds.
    destruct Hds as [Hd _]. apply isDigit_range in Hd.
    change (centsText false (d :: ds') fs unit)
      with (d :: centsText false ds' fs unit).
    unfold parseDecimal.
    destruct (N.eqb_spec d 43); [lia|]. destruct (N.eqb_spec d 45); [lia|].
    reflexivity.
Qed.

Lemma parseNonDecimal_centsText (minus : bool) (ds fs : jsstring)
    (unit : option N) :
  allDigits ds -> allDigits fs -> isUnit unit ->
  parseNonDecimal (centsText minus ds fs unit) = None.
Proof.
  intros Hds Hfs Hu. unfold parseNonDecimal.
  destruct (centsText minus ds fs unit) as [|z [|p rest]] eqn:E;
    try reflexivity.
  assert (Hp : (p <> 120 /\ p <> 88 /\ p <> 111 /\ p <> 79 /\ p <> 98
                /\ p <> 66 \/ z <> 48)%N).
  { assert (Hin : In p (centsText minus ds fs unit))
      by (rewrite E; right; now left).
    unfold centsText in Hin, E. unfold allDigits in *.
    rewrite forallb_forall in Hds, Hfs.
    destruct minus; [right; simpl in E; injection E as <- _; discriminate|].
    left. simpl in Hin. rewrite !in_app_iff in Hin.
    destruct Hin as [Hin|[Hin|Hin]].
    - apply Hds, isDigit_range in Hin. lia.
    - destruct fs as [|f fs]; [contradiction|].
      destruct Hin as [<-|Hin]; [lia|]. apply Hfs, isDigit_range in Hin. lia.
    - destruct unit as [u|]; [|contradiction]. destruct Hin as [<-|[]].
      simpl in Hu. apply isCentUnit_cases in Hu. lia. }
  destruct Hp as [(H1 & H2 & H3 & H4 & H5 & H6)|Hz].
  - apply N.eqb_neq in H1, H2, H3, H4, H5, H6.
    rewrite H1, H2, H3, H4, H5, H6. simpl.
    now rewrite andb_false_r.
  - apply N.eqb_neq in Hz. now rewrite Hz.
Qed.

(** [Number] on a cents text: its decimal value without a unit, and NaN
    with one. *)
Lemma Number_centsText (minus : bool) (ds fs : jsstring) (unit : option N) :
  ds <> [] -> allDigits ds -> allDigits fs -> isUnit unit ->
  Number (centsText minus ds fs unit)
  = match unit with Some _ => NaN | None => decimalNumber minus ds fs end.
Proof.
  intros Hne Hds Hfs Hu. unfold Number.
  rewrite trim_noSpace by now apply centsText_noSpace.
  rewrite centsText_nonempty by exact Hne.
  rewrite parseNonDecimal_centsText by assumption.
  rewrite parseDecimal_centsText by assumption.
  now destruct unit.
Qed.

End CentsFacts.

(* ================================================================== *)
(** * Part VI. Properties of the parsers                               *)
(* ================================================================== *)

Module ParseFacts.
Import JSString JSNumber JSConv RegExp Utils_js Vocabulary.
Import StringFacts RegExpFacts ConvFacts CentsFacts.

Lemma str_hash : str "#" = [35%N].
Proof. reflexivity. Qed.

Lemma str_slash : str "/" = [47%N].
Proof. reflexivity. Qed.

Lemma finite_not_NaN (x : number) : isFinite x = true -> isNaN x = false.
Proof. now destruct x. Qed.

Lemma Number_trim_eq (s t : jsstring) : trim s = trim t -> Number s = Number t.
Proof. intros H. unfold Number. now rewrite H. Qed.

Lemma centsText_chars (minus : bool) (ds fs : jsstring) (unit : option N)
    (c : N) :
  allDigits ds -> allDigits fs -> isUnit unit ->
  In c (centsText minus ds fs unit) ->
  c = 45%N \/ c = 46%N \/ isDigit c = true \/ isCentUnit c = true.
Proof.
  unfold centsText, allDigits, isUnit. intros Hds Hfs Hu Hc.
  rewrite forallb_forall in Hds, Hfs.
  rewrite !in_app_iff in Hc. destruct Hc as [Hc|[Hc|[Hc|Hc]]].
  - destruct minus; [|destruct Hc]. destruct Hc as [<-|[]]. now left.
  - right; right; left. now apply Hds.
  - destruct fs as [|f fs]; [destruct Hc|].
    destruct Hc as [<-|Hc]; [right; left; reflexivity|].
    right; right; left. now apply Hfs.
  - destruct unit as [u|]; [|destruct Hc]. destruct Hc as [<-|[]].
    right; right; right. exact Hu.
Qed.

Lemma pattern_chars (s : jsstring) (c : N) :
  test centsPattern s = true -> In c s ->
  c = 45%N \/ c = 46%N \/ isDigit c = true \/ isCentUnit c = true.
Proof.
  intros H Hc. apply centsPattern_shape in H.
  destruct H as (minus & ds & fs & unit & -> & _ & Hds & Hfs & Hu).
  exact (@centsText_chars minus ds fs unit c Hds Hfs Hu Hc).
Qed.

Lemma pattern_not (s : jsstring) (c : N) :
  c <> 45%N -> c <> 46%N -> isDigit c = false -> isCentUnit c = false ->
  In c s -> test centsPattern s = false.
Proof.
  intros H1 H2 H3 H4 Hc. destruct (test centsPattern s) eqn:E; [|reflexivity].
  destruct (@pattern_chars s c E Hc) as [?|[?|[?|?]]]; congruence.
Qed.

Lemma pattern_noSpace (s : jsstring) : test centsPattern s = true -> noSpace s.
Proof.
  intros H. apply centsPattern_shape in H.
  destruct H as (minus & ds & fs & unit & -> & _ & Hds & Hfs & Hu).
  now apply centsText_noSpace.
Qed.

Lemma noSpace_dec (s : jsstring) :
  noSpace s \/ exists c, In c s /\ isWhiteSpace c = true.
Proof.
  induction s as [|x s [IH|(c & Hc & Hw)]].
  - left. intros c [].
  - destruct (isWhiteSpace x) eqn:E.
    + right. exists x. split; [now left | exact E].
    + left. intros c [<-|Hc]; [exact E | now apply IH].
  - right. exists c. split; [now right | exact Hw].
Qed.

Lemma space_not_numeric (c : N) :
  isWhiteSpace c = true -> isNumericChar c = false.
Proof.
  intros H. destruct (isNumericChar c) eqn:E; [|reflexivity].
  apply numeric_not_space in E. congruence.
Qed.

(** What holds of a token whose text, without its whitespace, matches the
    cents pattern. *)
Lemma centsLike_raw (token : jsstring) :
  test centsPattern (removeAll isWhiteSpace (trim token)) = true ->
  isEmpty (trim token) = false /\
  startsWith (trim token) (str "#") = false /\
  includes (trim token) (str "/") = false.
Proof.
  intros H. set (raw := trim token) in *.
  assert (Hin : forall c, In c raw -> isWhiteSpace c = false ->
                c = 45%N \/ c = 46%N \/ isDigit c = true \/ isCentUnit c = true).
  { intros c Hc Hw. apply (@pattern_chars _ c H). now apply removeAll_In. }
  split; [|split].
  - destruct raw; [discriminate H | reflexivity].
  - rewrite str_hash, startsWith_one. destruct raw as [|x r]; [reflexivity|].
    destruct (N.eqb_spec 35 x) as [<-|]; [|reflexivity].
    destruct (Hin 35%N (or_introl eq_refl) eq_refl) as [?|[?|[?|?]]];
      discriminate.
  - rewrite str_slash. apply includes_one_false. intros Hc.
    destruct (Hin 47%N Hc eq_refl) as [?|[?|[?|?]]]; discriminate.
Qed.

(** A string with white space inside, or one whose number is not finite,
    is no ratio. *)
Lemma parseRatio_not_finite (raw : jsstring) :
  includes raw (str "/") = false -> isFinite (Number raw) = false ->
  parseRatio raw = None.
Proof.
  intros Hs Hn. unfold parseRatio.
  destruct (isEmpty (trim raw)); [reflexivity|].
  assert (E : includes (trim raw) (str "/") = false).
  { rewrite str_slash in *. apply includes_one_false.
    apply includes_one_false in Hs. intros Hc. apply Hs. now apply In_trim. }
  rewrite E. rewrite (Number_trim_eq (trim raw) raw) by apply trim_idem.
  now rewrite Hn.
Qed.

(** The interval parser on a token that is a cents text once its white
    space is removed: a Cents token holding the decimal number when that
    is finite, and nothing otherwise. *)
Lemma parse_centsLike (token : jsstring) :
  test centsPattern (removeAll isWhiteSpace (trim token)) = true ->
  exists minus ds fs unit,
    removeAll isWhiteSpace (trim token) = centsText minus ds fs unit /\
    ds <> [] /\ allDigits ds /\ allDigits fs /\ isUnit unit /\
    parseCentsOrRatioToCents token =
      if isFinite (decimalNumber minus ds fs)
      then Some (Token.mk (decimalNumber minus ds fs) (trim token) Cents)
      else None.
Proof.
  intros H. destruct (@centsLike_raw token H) as (Hne & Hhash & Hslash).
  pose proof H as Hshape. apply centsPattern_shape in Hshape.
  destruct Hshape as (minus & ds & fs & unit & E & Hds0 & Hds & Hfs & Hu).
  exists minus, ds, fs, unit. repeat (split; [assumption|]).
  unfold parseCentsOrRatioToCents. rewrite Hne, Hhash, H. simpl orb. cbv iota.
  rewrite E, removeAll_centsText by assumption.
  rewrite (@Number_centsText minus ds fs None Hds0 Hds Hfs I).
  destruct (isFinite (decimalNumber minus ds fs)) eqn:Hfin; [reflexivity|].
  rewrite parseRatio_not_finite; [reflexivity | exact Hslash |].
  destruct (noSpace_dec (trim token)) as [Hns|(c & Hc & Hw)].
  - rewrite removeAll_noSpace in E by exact Hns. rewrite E.
    rewrite (@Number_centsText minus ds fs unit Hds0 Hds Hfs Hu).
    now destruct unit.
  - rewrite (@Number_space_NaN (trim token) c); [reflexivity | |].
    + now rewrite trim_idem.
    + now apply space_not_numeric.
Qed.

(** The period parser on a cents text. *)
Lemma parsePeriod_centsText (input : jsstring) (minus : bool)
    (ds fs : jsstring) (unit : option N) :
  trim input = centsText minus ds fs unit ->
  ds <> [] -> allDigits ds -> allDigits fs -> isUnit unit ->
  parsePeriodToCents input = decimalNumber minus ds fs.
Proof.
  intros E Hds0 Hds Hfs Hu. unfold parsePeriodToCents. rewrite E.
  rewrite centsText_nonempty by exact Hds0.
  replace (test centsPattern (centsText minus ds fs unit)) with true.
  - rewrite removeAll_centsText by assumption.
    apply (@Number_centsText minus ds fs None Hds0 Hds Hfs I).
  - symmetry. apply centsPattern_shape. now exists minus, ds, fs, unit.
Qed.

(** The interval parser on a valid ratio token. *)
Lemma parse_fraction (a b : jsstring) :
  ~ In 47%N a -> ~ In 47%N b ->
  isFinite (Number a) = true -> isFinite (Number b) = true ->
  strictEq (Number b) (num 0) = false ->
  parseCentsOrRatioToCents (a ++ 47%N :: b)
  = Some (Token.mk (mul (num 1200) (log2 (div (Number a) (Number b))))
                   (trim (a ++ 47%N :: b)) Ratio).
Proof.
  intros Ha Hb Fa Fb Hb0.
  assert (Eraw : trim (a ++ 47%N :: b) = trimStart a ++ 47%N :: trimEnd b).
  { unfold trim. rewrite trimStart_app_nonspace by reflexivity.
    now apply trimEnd_app_nonspace. }
  assert (Hin : In 47%N (trim (a ++ 47%N :: b))).
  { rewrite Eraw. apply in_or_app. right. now left. }
  unfold parseCentsOrRatioToCents.
  replace (isEmpty (trim (a ++ 47%N :: b))) with false
    by (rewrite Eraw; now destruct (trimStart a)).
  replace (startsWith (trim (a ++ 47%N :: b)) (str "#")) with false.
  2:{ rewrite Eraw, str_hash, startsWith_one.
      destruct (trimStart a) as [|x r] eqn:Ex; [reflexivity|]. cbn [app].
      destruct (N.eqb_spec 35 x) as [<-|]; [exfalso|reflexivity].
      assert (Hw : In 35%N (trim a)).
      { unfold trim. rewrite Ex.
        rewrite trimEnd_cons_nonspace by reflexivity. now left. }
      apply finite_not_NaN, Number_chars in Fa.
      rewrite forallb_forall in Fa. specialize (Fa _ Hw). discriminate. }
  simpl orb. cbv iota.
  replace (test centsPattern (removeAll isWhiteSpace (trim (a ++ 47%N :: b))))
    with false.
  2:{ symmetry. apply (@pattern_not _ 47%N); try reflexivity; try discriminate.
      now apply removeAll_In. }
  unfold parseRatio. rewrite trim_idem.
  replace (isEmpty (trim (a ++ 47%N :: b))) with false
    by (rewrite Eraw; now destruct (trimStart a)).
  replace (includes (trim (a ++ 47%N :: b)) (str "/")) with true
    by (symmetry; rewrite str_slash; now apply includes_one_true).
  rewrite Eraw, split_app by (intros H; apply Ha; now apply In_trimStart).
  rewrite split_no_sep by (intros H; apply Hb; now apply In_trimEnd).
  simpl map.
  rewrite (Number_trim_eq (trimStart a) a) by apply trim_trimStart.
  rewrite (Number_trim_eq (trimEnd b) b) by apply trim_trimEnd.
  now rewrite Fa, Fb, Hb0.
Qed.

Lemma parse_decimal_ratio (s : jsstring) :
  test centsPattern (trim s) = false ->
  isFinite (Number s) = true -> gt (Number s) (num 0) = true ->
  parseCentsOrRatioToCents s
  = Some (Token.mk (mul (num 1200) (log2 (Number s))) (trim s) Ratio).
Proof.
  intros Hpat Hfin Hpos.
  pose proof (@Number_chars s (@finite_not_NaN _ Hfin)) as Hch.
  rewrite forallb_forall in Hch.
  assert (Hns : noSpace (trim s))
    by (intros c Hc; now apply numeric_not_space, Hch).
  assert (Hne : isEmpty (trim s) = false).
  { destruct (trim s) eqn:E; [|reflexivity].
    unfold Number in Hpos. rewrite E in Hpos. discriminate. }
  unfold parseCentsOrRatioToCents. rewrite Hne.
  replace (startsWith (trim s) (str "#")) with false.
  2:{ rewrite str_hash, startsWith_one.
      destruct (trim s) as [|x r]; [reflexivity|].
      destruct (N.eqb_spec 35 x) as [<-|]; [exfalso|reflexivity].
      specialize (Hch 35%N (or_introl eq_refl)). discriminate. }
  simpl orb. cbv iota.
  rewrite removeAll_noSpace, Hpat by exact Hns.
  unfold parseRatio. rewrite trim_idem, Hne.
  replace (includes (trim s) (str "/")) with false.
  2:{ symmetry. rewrite str_slash. apply includes_one_false. intros Hc.
      specialize (Hch _ Hc). discriminate. }
  rewrite (Number_trim_eq (trim s) s) by apply trim_idem.
  now rewrite Hfin, Hpos.
Qed.

End ParseFacts.

(* ================================================================== *)
(** * Part VII. Properties of the layout                               *)
(* ================================================================== *)

Module LayoutFacts.
Import JSString JSNumber JSConv RegExp Utils_js Vocabulary.
Local Open Scope Q_scope.

Lemma Qltb_lt (a b : Q) : Qltb a b = true <-> a < b.
Proof.
  unfold Qltb. destruct (Qcompare_spec a b); split; intros;
    try reflexivity; try discriminate; try lra; exfalso; lra.
Qed.

Lemma Qltb_ge (a b : Q) : Qltb a b = false <-> b <= a.
Proof.
  unfold Qltb. destruct (Qcompare_spec a b); split; intros;
    try reflexivity; try discriminate; try lra; exfalso; lra.
Qed.

(** The truncated quotient leaves a remainder of less than one unit, on
    the side of the dividend. *)
Lemma Qtrunc_bounds (u : Q) :
  (0 <= u -> 0 <= u - inject_Z (Qtrunc u) < 1) /\
  (u <= 0 -> -1 < u - inject_Z (Qtrunc u) <= 0).
Proof.
  unfold Qtrunc. destruct (Qltb u 0) eqn:E.
  - apply Qltb_lt in E.
    pose proof (Qle_ceiling u). pose proof (Qceiling_lt u) as L.
    unfold Z.sub in L. rewrite inject_Z_plus, inject_Z_opp in L.
    change (inject_Z 1) with 1 in L.
    split; intros; lra.
  - apply Qltb_ge in E.
    pose proof (Qfloor_le u). pose proof (Qlt_floor u) as L.
    rewrite inject_Z_plus in L. change (inject_Z 1) with 1 in L.
    assert (Z0 : u <= 0 -> Qfloor u = 0%Z).
    { intros Hu. assert (E0 : u == 0) by lra.
      rewrite (Qfloor_comp _ _ E0). reflexivity. }
    split; intros Hu; [lra|]. rewrite (Z0 Hu).
    change (inject_Z 0) with 0. lra.
Qed.

Lemma Qtrunc_comp (a b : Q) : a == b -> Qtrunc a = Qtrunc b.
Proof.
  intros E. unfold Qtrunc.
  replace (Qltb b 0) with (Qltb a 0).
  - now rewrite (Qfloor_comp _ _ E), (Qceiling_comp _ _ E).
  - unfold Qltb. now rewrite E.
Qed.

Lemma classify_num360 : classify (num 360) = CFin (inject_Z 360).
Proof. reflexivity. Qed.

(** The remainder by 360 of a finite number: smaller than 360 in
    magnitude, and on the side of the dividend. *)
Lemma rem_360 (x : number) (v : Q) :
  value x = Some v ->
  exists d,
    value (rem x (num 360)) = Some d /\
    d == v - 360 * inject_Z (Qtrunc (v / 360)) /\
    -360 < d < 360 /\ (0 <= v -> 0 <= d) /\ (v <= 0 -> d <= 0).
Proof.
  intros Hv.
  assert (Hz : v == 0 -> v - 360 * inject_Z (Qtrunc (v / 360)) == 0).
  { intros E. assert (E' : v / 360 == 0) by (rewrite E; reflexivity).
    rewrite (Qtrunc_comp E'). rewrite E. reflexivity. }
  destruct x as [| | | |q]; try discriminate; simpl in Hv; injection Hv as <-.
  - exists 0. split; [reflexivity|].
    split; [now rewrite Hz|]. split; [split; lra | split; intro; lra].
  - unfold rem. rewrite classify_num360. unfold classify.
    destruct (Qeq_bool q 0) eqn:E0.
    + apply Qeq_bool_eq in E0. exists q.
      split; [reflexivity|]. split; [now rewrite Hz|]. split; [split; lra | split; intro; lra].
    + apply Qeq_bool_neq in E0.
      change (inject_Z 360) with 360.
      set (r := q - 360 * inject_Z (Qtrunc (q / 360))).
      destruct (Qtrunc_bounds (q / 360)) as [Hp Hn].
      assert (Hu : q == 360 * (q / 360)) by field.
      assert (Hb : -360 < r < 360 /\ (0 <= q -> 0 <= r) /\ (q <= 0 -> r <= 0)).
      { unfold r. clearbody r. revert Hp Hn Hu.
        generalize (inject_Z (Qtrunc (q / 360))). generalize (q / 360).
        intros u t Hp Hn Hu.
        destruct (Qlt_le_dec q 0) as [Hq|Hq].
        - assert (Hq' : u <= 0) by lra. specialize (Hn Hq').
          split; [split; lra | split; intro; lra].
        - assert (Hq' : 0 <= u) by lra. specialize (Hp Hq').
          split; [split; lra | split; intro; lra]. }
      destruct (Qeq_bool r 0) eqn:Er.
      * apply Qeq_bool_eq in Er. exists 0.
        split; [now destruct (Qltb q 0)|].
        split; [now rewrite Er|]. split; [split; lra | split; intro; lra].
      * exists (Qred r). split; [reflexivity|].
        rewrite Qred_correct. split; [reflexivity | exact Hb].
Qed.

(** [buildItems] is the period item followed by the placed tokens of the
    lines that parse, in order. *)
Lemma fold_place (cx cy r p : number) (lines : list jsstring)
    (acc : list Item.t) :
  fold_left
    (fun items line =>
       match parseCentsOrRatioToCents line with
       | None => items
       | Some it => items ++ [placeItem it cx cy r p]
       end) lines acc
  = acc ++ flat_map (fun line => match parseCentsOrRatioToCents line with
                                 | None => []
                                 | Some it => [placeItem it cx cy r p]
                                 end) lines.
Proof.
  revert acc. induction lines as [|l ls IH]; intros acc; simpl.
  - now rewrite app_nil_r.
  - rewrite IH. destruct (parseCentsOrRatioToCents l); [|reflexivity].
    now rewrite <- app_assoc.
Qed.

Lemma buildItems_eq (pin text : jsstring) (cx cy r p : number) :
  buildItems pin text cx cy r p
  = Item.mk (num 0) (normalizePeriodLabel pin p) Period (num 0) cx (sub cy r)
    :: flat_map (fun line => match parseCentsOrRatioToCents line with
                             | None => []
                             | Some it => [placeItem it cx cy r p]
                             end) (splitLines text).
Proof. unfold buildItems. now rewrite fold_place. Qed.

End LayoutFacts.

Module LabelFacts.
Import JSString JSNumber JSConv RegExp SVG Utils_js Vocabulary.
Import StringFacts RegExpFacts ConvFacts CentsFacts ParseFacts.


(** The label [normalizePeriodLabel] returns is the normalized label. *)
Lemma normalizePeriodLabel_normalized (inputValue : jsstring)
    (periodCents : number) :
  NormalizedLabel inputValue periodCents
    (normalizePeriodLabel inputValue periodCents).
Proof.
  unfold normalizePeriodLabel. cbv zeta.
  destruct (isEmpty (trim inputValue)) eqn:Ee.
  - assert (E : trim inputValue = []) by (now destruct (trim inputValue)).
    apply NL_other; rewrite E.
    + intros [].
    + intros H. apply centsPattern_shape in H. discriminate H.
  - destruct (includes (trim inputValue) (str "/")) eqn:Ei.
    + apply NL_ratio. now apply includes_one_true.
    + assert (Hs : ~ In SLASH (trim inputValue))
        by now apply includes_one_false.
      destruct (test centsPattern (trim inputValue)) eqn:Et.
      * pose proof Et as Hshape. apply centsPattern_shape in Hshape.
        destruct Hshape as (minus & ds & fs & unit & E & Hne & Hds & Hfs & Hu).
        rewrite E, removeAll_centsText by assumption.
        rewrite trim_noSpace
          by (apply centsText_noSpace; [assumption | assumption | exact I]).
        now apply NL_cents with (unit := unit).
      * apply NL_other; [exact Hs|]. intros H.
        apply centsPattern_shape in H. congruence.
Qed.


End LabelFacts.

(* ================================================================== *)
(** * Part VIII. The properties of the specification                   *)
(* ================================================================== *)

Module TokenClaims.
Import JSString JSNumber JSConv RegExp SVG Utils_js Vocabulary.
Import StringFacts RegExpFacts ConvFacts CentsFacts ParseFacts LayoutFacts.

(** ** Interval tokens *)

(** A token of kind Cents always holds a finite number: the cents branch
    checks [isFinite] before it returns. *)
Lemma cents_token_finite (token : jsstring) (t : Token.t) :
  parseCentsOrRatioToCents token = Some t -> Token.type t = Cents ->
  isFinite (Token.cents t) = true.
Proof.
  unfold parseCentsOrRatioToCents.
  destruct (isEmpty (trim token) || startsWith (trim token) (str "#"));
    [discriminate|].
  assert (R : match parseRatio (trim token) with
              | Some r => Some (Token.mk (mul (num 1200) (log2 r))
                                         (trim token) Ratio)
              | None => None
              end = Some t -> Token.type t = Cents ->
              isFinite (Token.cents t) = true).
  { destruct (parseRatio (trim token)); [|discriminate].
    intros H. injection H as <-. discriminate. }
  destruct (test centsPattern _); [|exact R].
  destruct (isFinite (Number _)) eqn:F; [|exact R].
  intros H _. injection H as <-. exact F.
Qed.

(** C1. The claim is that every token [parseCentsOrRatioToCents] returns
    has finite cents.  The ratio branch does not keep it: the fraction
    [0/1] is returned as a Ratio token whose cents are minus infinity, and
    [-3/2] as one whose cents are NaN. *)
Theorem ratio_token_cents_not_finite :
  parseCentsOrRatioToCents (str "0/1")
    = Some (Token.mk NInf (str "0/1") Ratio) /\
  isFinite NInf = false /\
  parseCentsOrRatioToCents (str "-3/2")
    = Some (Token.mk NaN (str "-3/2") Ratio) /\
  isFinite NaN = false.
Proof.
  split; [vm_compute; reflexivity|].
  split; [reflexivity|].
  split; [vm_compute; reflexivity | reflexivity].
Qed.

(** A valid ratio token, a fraction [a/b] with finite sides and [b] not
    zero or a positive decimal that is not a cents text, is returned as a
    token of kind Ratio, with the cents the code computes from the
    ratio. *)
Lemma ratio_token_cents (token : jsstring) (r : number) :
  RatioToken token r ->
  parseCentsOrRatioToCents token
  = Some (Token.mk (mul (num 1200) (log2 r)) (trim token) Ratio).
Proof.
  intros [a b Ha Hb Fa Fb Hb0 | s Hpat Hfin Hpos].
  - now apply parse_fraction.
  - now apply parse_decimal_ratio.
Qed.

(** C5, as the code has it.  A token that matches the cents grammar is
    returned as a token of kind Cents whose cents are the number its
    digits denote, the unit stripped, when that number is finite; when the
    digits overflow the binary64 range, nothing is returned. *)
Theorem cents_token_value (token : jsstring) :
  test centsPattern (trim token) = true ->
  exists minus ds fs unit,
    trim token = centsText minus ds fs unit /\
    ds <> [] /\ allDigits ds /\ allDigits fs /\ isUnit unit /\
    parseCentsOrRatioToCents token =
      if isFinite (decimalNumber minus ds fs)
      then Some (Token.mk (decimalNumber minus ds fs) (trim token) Cents)
      else None.
Proof.
  intros H.
  assert (E : removeAll isWhiteSpace (trim token) = trim token)
    by now apply removeAll_noSpace, pattern_noSpace.
  rewrite <- E in H. destruct (parse_centsLike _ H)
    as (minus & ds & fs & unit & Hs & Hrest).
  rewrite E in Hs. now exists minus, ds, fs, unit.
Qed.

Lemma cents_token_value_witness :
  test centsPattern (trim (str "386.314c")) = true /\
  exists minus ds fs unit,
    trim (str "386.314c") = centsText minus ds fs unit /\
    ds <> [] /\ allDigits ds /\ allDigits fs /\ isUnit unit /\
    parseCentsOrRatioToCents (str "386.314c") =
      if isFinite (decimalNumber minus ds fs)
      then Some (Token.mk (decimalNumber minus ds fs)
                          (trim (str "386.314c")) Cents)
      else None.
Proof.
  split; [reflexivity | apply (@cents_token_value (str "386.314c"))].
  reflexivity.
Defined.

(** C5, as stated, fails: the decimal text of 10^309 matches the cents
    grammar and no token is returned for it. *)
Lemma cents_token_overflow :
  test centsPattern (trim tenTo309) = true /\
  parseCentsOrRatioToCents tenTo309 = None.
Proof. split; vm_compute; reflexivity. Qed.

(** C10, as the code has it.  A token that is a cents text once the white
    space inside it is removed is no period, and is returned by the
    interval parser as a token of kind Cents holding the number its digits
    denote when that number is finite, and not at all otherwise. *)
Theorem interior_whitespace (token : jsstring) :
  test centsPattern (removeAll isWhiteSpace (trim token)) = true ->
  removeAll isWhiteSpace (trim token) <> trim token ->
  parsePeriodToCents token = NaN /\
  exists minus ds fs unit,
    removeAll isWhiteSpace (trim token) = centsText minus ds fs unit /\
    ds <> [] /\ allDigits ds /\ allDigits fs /\ isUnit unit /\
    parseCentsOrRatioToCents token =
      if isFinite (decimalNumber minus ds fs)
      then Some (Token.mk (decimalNumber minus ds fs) (trim token) Cents)
      else None.
Proof.
  intros H Hneq. split; [|now apply parse_centsLike].
  destruct (centsLike_raw _ H) as (Hne & _ & Hslash).
  unfold parsePeriodToCents. rewrite Hne.
  destruct (noSpace_dec (trim token)) as [Hns|(c & Hc & Hw)];
    [now rewrite removeAll_noSpace in Hneq|].
  replace (test centsPattern (trim token)) with false.
  2:{ symmetry. destruct (test centsPattern (trim token)) eqn:E; [|reflexivity].
      apply pattern_noSpace in E. rewrite (E c Hc) in Hw. discriminate. }
  rewrite parseRatio_not_finite; [reflexivity | exact Hslash |].
  rewrite (@Number_space_NaN (trim token) c); [reflexivity | |].
  - now rewrite trim_idem.
  - now apply space_not_numeric.
Qed.

Lemma interior_whitespace_witness :
  test centsPattern (removeAll isWhiteSpace (trim (str "7 00c"))) = true /\
  removeAll isWhiteSpace (trim (str "7 00c")) <> trim (str "7 00c") /\
  parsePeriodToCents (str "7 00c") = NaN /\
  exists minus ds fs unit,
    removeAll isWhiteSpace (trim (str "7 00c")) = centsText minus ds fs unit /\
    ds <> [] /\ allDigits ds /\ allDigits fs /\ isUnit unit /\
    parseCentsOrRatioToCents (str "7 00c") =
      if isFinite (decimalNumber minus ds fs)
      then Some (Token.mk (decimalNumber minus ds fs)
                          (trim (str "7 00c")) Cents)
      else None.
Proof.
  split; [reflexivity|]. split; [discriminate|].
  apply (@interior_whitespace (str "7 00c")); [reflexivity | discriminate].
Defined.

(** The example of the claim: [7 00c] is 700 cents as an interval and no
    period. *)
Lemma interior_whitespace_example :
  parseCentsOrRatioToCents (str "7 00c")
    = Some (Token.mk (num 700) (str "7 00c") Cents) /\
  parsePeriodToCents (str "7 00c") = NaN.
Proof. split; vm_compute; reflexivity. Qed.

(** C10, as stated, fails: with a space after its first digit, the
    decimal text of 10^309 is a cents text once the space is removed, and
    the interval parser returns no token for it. *)
Lemma interior_whitespace_overflow :
  let token := 49%N :: 32%N :: repeat 48%N 309 in
  test centsPattern (removeAll isWhiteSpace (trim token)) = true /\
  removeAll isWhiteSpace (trim token) <> trim token /\
  parseCentsOrRatioToCents token = None.
Proof.
  split; [vm_compute; reflexivity|].
  split; [vm_compute; discriminate | vm_compute; reflexivity].
Qed.

End TokenClaims.

Module LayoutClaims.
Import JSString JSNumber JSConv RegExp SVG Utils_js Vocabulary.
Import StringFacts RegExpFacts ConvFacts CentsFacts ParseFacts LayoutFacts.
Local Open Scope Q_scope.

(** ** Period labels *)

(** C7, as the code has it.  When the period input holds a slash or
    matches the cents grammar, parsing its normalized label again gives
    the cents of the input.  (Any other input is labelled with its cents
    rounded to an integer, and parsing that gives the rounded number.) *)
Theorem period_label_reparse (input : jsstring) :
  includes (trim input) (str "/") = true \/
  test centsPattern (trim input) = true ->
  parsePeriodToCents (normalizePeriodLabel input (parsePeriodToCents input))
  = parsePeriodToCents input.
Proof.
  intros H. unfold normalizePeriodLabel.
  assert (Hne : isEmpty (trim input) = false).
  { destruct (trim input); [|reflexivity]. destruct H; discriminate. }
  rewrite Hne.
  destruct (includes (trim input) (str "/")) eqn:Hs.
  - unfold parsePeriodToCents. now rewrite trim_idem.
  - destruct H as [H|H]; [discriminate|]. rewrite H.
    apply centsPattern_shape in H.
    destruct H as (minus & ds & fs & unit & E & Hds0 & Hds & Hfs & Hu).
    rewrite (@parsePeriod_centsText input minus ds fs unit E Hds0 Hds Hfs Hu).
    rewrite E, removeAll_centsText by assumption.
    apply (@parsePeriod_centsText _ minus ds fs None); try assumption;
      [|exact I].
    rewrite trim_idem. apply trim_noSpace.
    now apply centsText_noSpace.
Qed.

Lemma period_label_reparse_witness :
  (includes (trim (str " 1200c ")) (str "/") = true \/
   test centsPattern (trim (str " 1200c ")) = true) /\
  parsePeriodToCents
    (normalizePeriodLabel (str " 1200c ") (parsePeriodToCents (str " 1200c ")))
  = parsePeriodToCents (str " 1200c ").
Proof.
  split; [right; reflexivity|].
  apply (@period_label_reparse (str " 1200c ")). right. reflexivity.
Defined.

(** C7, as stated, fails: the input [+3] is the ratio 3, about 1901.955
    cents; its label is [1902], which parses to 1902 cents. *)
Lemma period_label_rounds :
  isFinite (parsePeriodToCents (str "+3")) = true /\
  normalizePeriodLabel (str "+3") (parsePeriodToCents (str "+3")) = str "1902" /\
  parsePeriodToCents
    (normalizePeriodLabel (str "+3") (parsePeriodToCents (str "+3")))
  <> parsePeriodToCents (str "+3").
Proof.
  split; [vm_compute; reflexivity|].
  split; [vm_compute; reflexivity|].
  vm_compute. discriminate.
Qed.

(** ** Angles *)

(** What the code computes for every item.  The first item is the period
    at angle 0.  Every other item has the angle
    [((cents / periodCents) * 360) % 360]; when the product is finite, the
    angle is the remainder of its truncated division by 360: it lies
    strictly between -360 and 360 and on the side of the product. *)
Lemma item_angle (periodInputValue intervalsText : jsstring)
    (cx cy radius periodCents : number) (item : Item.t) :
  In item (buildItems periodInputValue intervalsText cx cy radius periodCents)
  ->
  (Item.type item = Period /\ Item.deg item = num 0) \/
  (Item.deg item = angleDeg (Item.cents item) periodCents /\
   forall v,
     value (mul (div (Item.cents item) periodCents) (num 360)) = Some v ->
     exists d,
       value (Item.deg item) = Some d /\
       d == v - 360 * inject_Z (Qtrunc (v / 360)) /\
       -360 < d < 360 /\ (0 <= v -> 0 <= d) /\ (v <= 0 -> d <= 0)).
Proof.
  rewrite buildItems_eq. intros [<-|H]; [left; now split|]. right.
  apply in_flat_map in H. destruct H as (line & _ & H).
  destruct (parseCentsOrRatioToCents line) as [t|]; [|destruct H].
  destruct H as [<-|[]]. split; [reflexivity|].
  intros v Hv. exact (rem_360 _ Hv).
Qed.

(** C2. The claim is that, for a finite period other than zero, the angle
    of every item lies in [0, 360) and is [(cents / periodCents) * 360]
    reduced modulo 360.  The code does not keep it for negative cents: its
    [%] keeps the sign of the dividend, so with a period of 1200 cents the
    line [-100] is placed at -30 degrees instead of 330. *)
Theorem negative_cents_negative_angle :
  isFinite (num 1200) = true /\ strictEq (num 1200) (num 0) = false /\
  parseCentsOrRatioToCents (str "-100")
    = Some (Token.mk (num (-100)) (str "-100") Cents) /\
  nth_error (buildItems (str "1200") (str "-100") (num 200) (num 200)
               (num 140) (num 1200)) 1
    = Some (placeItem (Token.mk (num (-100)) (str "-100") Cents)
              (num 200) (num 200) (num 140) (num 1200)) /\
  Item.deg (placeItem (Token.mk (num (-100)) (str "-100") Cents)
              (num 200) (num 200) (num 140) (num 1200)) = num (-30) /\
  le (num 0) (num (-30)) = false.
Proof.
  split; [reflexivity|]. split; [reflexivity|].
  split; [vm_compute; reflexivity|].
  split; [vm_compute; reflexivity|].
  split; [vm_compute; reflexivity | reflexivity].
Qed.

(** C3, as stated, fails twice over, with a period of 1200 cents.
    Rounding: 1 cent and 1 + 1200 cents are placed at angles that differ
    in their last digits.  The sign of the remainder: -100 cents are placed
    at -30 degrees and -100 + 1200 cents at 330 degrees. *)
Lemma angle_not_periodic :
  isFinite (num 1200) = true /\ strictEq (num 1200) (num 0) = false /\
  toString (angleDeg (num 1) (num 1200)) = str "0.30000000000000004" /\
  toString (angleDeg (add (num 1) (mul (num 1) (num 1200))) (num 1200))
    = str "0.2999999999999545" /\
  angleDeg (num 1) (num 1200)
    <> angleDeg (add (num 1) (mul (num 1) (num 1200))) (num 1200) /\
  angleDeg (num (-100)) (num 1200) = num (-30) /\
  angleDeg (add (num (-100)) (mul (num 1) (num 1200))) (num 1200) = num 330 /\
  angleDeg (num (-100)) (num 1200)
    <> angleDeg (add (num (-100)) (mul (num 1) (num 1200))) (num 1200).
Proof.
  split; [reflexivity|]. split; [reflexivity|].
  split; [vm_compute; reflexivity|]. split; [vm_compute; reflexivity|].
  split; [vm_compute; discriminate|].
  split; [vm_compute; reflexivity|]. split; [vm_compute; reflexivity|].
  vm_compute. discriminate.
Qed.


(** ** The scenarios of the specification *)

(** Period [2/1] is 1200 cents, and the lines 0, 700 and 1200 follow the
    period item at the angles 0, 210 and 0. *)
Lemma scenario_octave :
  parsePeriodToCents (str "2/1") = num 1200 /\
  map (fun item => (Item.cents item, Item.type item, Item.deg item))
      (buildItems (str "2/1") (str "0" ++ LF :: str "700" ++ LF :: str "1200")
         (num 200) (num 200) (num 140) (num 1200))
  = [(num 0, Period, num 0); (num 0, Cents, num 0);
     (num 700, Cents, num 210); (num 1200, Cents, num 0)].
Proof. split; vm_compute; reflexivity. Qed.

(** With period 1200, the ratio [3/2] is about 701.955 cents, at about
    210.59 degrees. *)
Lemma scenario_fifth :
  map (fun item => (toFixed (Item.cents item) 3, toFixed (Item.deg item) 2))
      (buildItems (str "1200") (str "3/2")
         (num 200) (num 200) (num 140) (num 1200))
  = [(str "0.000", str "0.00"); (str "701.955", str "210.59")].
Proof. vm_compute. reflexivity. Qed.

(** A comment line and an empty line leave no item: only [400] does. *)
Lemma scenario_comment :
  map (fun item => (Item.raw item, Item.type item))
      (buildItems (str "1200") (str "#ignore this" ++ LF :: LF :: str "400")
         (num 200) (num 200) (num 140) (num 1200))
  = [(str "1200", Period); (str "400", Cents)].
Proof. vm_compute. reflexivity. Qed.

End LayoutClaims.

Module RenderClaims.
Import JSString JSNumber JSConv RegExp SVG Utils_js Export_js Script_js Vocabulary.

(** ** Frames *)

(** C8. With a panel of 400 by 400, a size multiplier of 1 and labels
    shown at a distance of 35, the radius is 140 and the export frame is
    410 wide. *)
Theorem export_frame_400 (dom : Dom.t) :
  Dom.containerRect dom = Rect.mk (num 400) (num 400) ->
  parseFloat (Dom.circleSize dom) = num 1 ->
  Dom.showLabels dom = true ->
  Dom.labelDistance dom = Some (str "35") ->
  Dims.radius (calculateDimensions (Dom.containerRect dom)
                 (parseFloat (Dom.circleSize dom)))
  = JSMath.max (num 20) (sub (div (num 400) (num 2)) (num 60)) /\
  Dims.radius (calculateDimensions (Dom.containerRect dom)
                 (parseFloat (Dom.circleSize dom))) = num 140 /\
  ExportDims.radius (calculateExportDimensions dom) = num 140 /\
  ExportDims.size (calculateExportDimensions dom)
  = JSMath.max (num 300)
      (JSMath.ceil (mul (add (add (num 140) (num 35)) (num 30)) (num 2))) /\
  ExportDims.size (calculateExportDimensions dom) = num 410.
Proof.
  intros Hrect Hsize Hshow Hdist.
  unfold calculateExportDimensions, labelDistanceOf.
  rewrite Hrect, Hsize, Hshow, Hdist.
  repeat split; vm_compute; reflexivity.
Qed.

Lemma export_frame_400_witness :
  let dom :=
    Dom.mk (str "2/1") (str "700") true true true (str "1.0") (str "14")
      (Some (str "35")) (Rect.mk (num 400) (num 400))
      (Rect.mk (num 400) (num 400)) None (str "0px") (str "0px") None [] []
      (Elem (str "svg") [] [] []) in
  Dom.containerRect dom = Rect.mk (num 400) (num 400) /\
  parseFloat (Dom.circleSize dom) = num 1 /\
  Dom.showLabels dom = true /\
  Dom.labelDistance dom = Some (str "35") /\
  Dims.radius (calculateDimensions (Dom.containerRect dom)
                 (parseFloat (Dom.circleSize dom)))
  = JSMath.max (num 20) (sub (div (num 400) (num 2)) (num 60)) /\
  Dims.radius (calculateDimensions (Dom.containerRect dom)
                 (parseFloat (Dom.circleSize dom))) = num 140 /\
  ExportDims.radius (calculateExportDimensions dom) = num 140 /\
  ExportDims.size (calculateExportDimensions dom)
  = JSMath.max (num 300)
      (JSMath.ceil (mul (add (add (num 140) (num 35)) (num 30)) (num 2))) /\
  ExportDims.size (calculateExportDimensions dom) = num 410.
Proof.
  intros dom.
  split; [reflexivity|]. split; [reflexivity|].
  split; [reflexivity|]. split; [reflexivity|].
  apply (@export_frame_400 dom); reflexivity.
Defined.

(** ** Blank output *)








End RenderClaims.

(* ================================================================== *)
(** * Part IX. Further properties of the parsers                      *)
(* ================================================================== *)

Module TrimFacts.
Import JSString Vocabulary StringFacts.

Lemma trimStart_white_app (w s : jsstring) :
  allWhite w -> trimStart (w ++ s) = trimStart s.
Proof.
  unfold allWhite. induction w as [|c w IH]; [reflexivity|]. simpl.
  intros H. apply andb_true_iff in H. destruct H as [Hc Hw].
  rewrite Hc. now apply IH.
Qed.

Lemma trimEnd_white (w : jsstring) : allWhite w -> trimEnd w = [].
Proof.
  intros H. apply trimEnd_all_space. unfold allWhite in H.
  rewrite forallb_forall in H. exact H.
Qed.

Lemma trimEnd_app_white (s w : jsstring) :
  allWhite w -> trimEnd (s ++ w) = trimEnd s.
Proof.
  intros H. induction s as [|c s IH]; simpl.
  - rewrite (@trimEnd_white w H). reflexivity.
  - now rewrite IH.
Qed.

Lemma trim_swap (s : jsstring) : trim s = trimStart (trimEnd s).
Proof. unfold trim. symmetry. apply trimStart_trimEnd. Qed.

(** White space around a string does not count. *)
Lemma trim_pad (w1 s w2 : jsstring) :
  allWhite w1 -> allWhite w2 -> trim (w1 ++ s ++ w2) = trim s.
Proof.
  intros H1 H2. rewrite trim_swap, app_assoc, (@trimEnd_app_white _ w2 H2).
  rewrite <- trim_swap. unfold trim. now rewrite (@trimStart_white_app w1 _ H1).
Qed.

Lemma trim_white (s : jsstring) : allWhite s -> trim s = [].
Proof.
  intros H. rewrite trim_swap, (@trimEnd_white s H). reflexivity.
Qed.

(** A trimmed string that is not empty starts and ends with code units
    that are no white space. *)
Lemma trimStart_head (s : jsstring) (c : N) (r : jsstring) :
  trimStart s = c :: r -> isWhiteSpace c = false.
Proof.
  induction s as [|x s IH]; simpl; [discriminate|].
  destruct (isWhiteSpace x) eqn:E; [exact IH|].
  intros H. injection H as <- _. exact E.
Qed.

Lemma trim_head (s : jsstring) (c : N) (r : jsstring) :
  trim s = c :: r -> isWhiteSpace c = false.
Proof. rewrite trim_swap. apply trimStart_head. Qed.

End TrimFacts.

Module NumberFacts.
Import JSString JSNumber JSConv Vocabulary.
Local Open Scope Q_scope.

Lemma round64_not_NaN (q : Q) : isNaN (round64 q) = false.
Proof.
  unfold round64.
  destruct (q ?= 0); [reflexivity | |];
    repeat match goal with
           | |- context [if ?c then _ else _] => destruct c
           end; reflexivity.
Qed.

(** A finite number that is not zero is a non-zero rational. *)
Lemma finite_nonzero (b : number) :
  isFinite b = true -> strictEq b (num 0) = false ->
  exists q, classify b = CFin q.
Proof.
  destruct b as [| | | |q]; try discriminate; intros _ H.
  unfold classify. destruct (Qeq_bool q 0) eqn:E; [|now exists q].
  apply Qeq_bool_eq in E. unfold strictEq, compare, num in H.
    change (inject_Z 0) with 0 in H.
    rewrite (proj1 (Qeq_alt q 0) E) in H. discriminate H.
Qed.

Lemma div_not_NaN (a b : number) :
  isFinite a = true -> isFinite b = true -> strictEq b (num 0) = false ->
  isNaN (div a b) = false.
Proof.
  intros Fa Fb Hb. destruct (@finite_nonzero b Fb Hb) as [q Eq].
  unfold div. rewrite Eq.
  destruct a as [| | | |p]; try discriminate; unfold classify.
  - now destruct (xorb _ _).
  - destruct (Qeq_bool p 0); [now destruct (xorb _ _)|].
    apply round64_not_NaN.
Qed.

End NumberFacts.

Module ParserProps.
Import JSString JSNumber JSConv RegExp SVG Utils_js Vocabulary.
Import StringFacts RegExpFacts ConvFacts CentsFacts ParseFacts.
Import TrimFacts NumberFacts.

(** The parsers read their input through [trim] only. *)
Lemma parseRatio_trim (s t : jsstring) :
  trim s = trim t -> parseRatio s = parseRatio t.
Proof. intros H. unfold parseRatio. now rewrite H. Qed.

Lemma parseCents_trim (s t : jsstring) :
  trim s = trim t -> parseCentsOrRatioToCents s = parseCentsOrRatioToCents t.
Proof. intros H. unfold parseCentsOrRatioToCents. now rewrite H. Qed.

Lemma parsePeriod_trim (s t : jsstring) :
  trim s = trim t -> parsePeriodToCents s = parsePeriodToCents t.
Proof. intros H. unfold parsePeriodToCents. now rewrite H. Qed.

(** X1. An input that is empty or holds white space only is no ratio, no
    interval token and no period: [parseRatio] and
    [parseCentsOrRatioToCents] return [null], and [parsePeriodToCents]
    returns NaN. *)
Theorem blank_input (s : jsstring) :
  allWhite s ->
  parseRatio s = None /\ parseCentsOrRatioToCents s = None /\
  parsePeriodToCents s = NaN.
Proof.
  intros H. pose proof (@trim_white s H) as E.
  unfold parseRatio, parseCentsOrRatioToCents, parsePeriodToCents.
  rewrite E. repeat split.
Qed.

Lemma blank_input_witness :
  allWhite (str "  ") /\
  parseRatio (str "  ") = None /\
  parseCentsOrRatioToCents (str "  ") = None /\
  parsePeriodToCents (str "  ") = NaN.
Proof.
  split; [reflexivity | apply (@blank_input (str "  "))]. reflexivity.
Defined.

(** X2. White space before and after the text of an input changes
    nothing: the three parsers return for the padded input what they
    return for the input. *)
Theorem padding_ignored (w1 s w2 : jsstring) :
  allWhite w1 -> allWhite w2 ->
  parseRatio (w1 ++ s ++ w2) = parseRatio s /\
  parseCentsOrRatioToCents (w1 ++ s ++ w2) = parseCentsOrRatioToCents s /\
  parsePeriodToCents (w1 ++ s ++ w2) = parsePeriodToCents s.
Proof.
  intros H1 H2. pose proof (@trim_pad w1 s w2 H1 H2) as E.
  split; [now apply parseRatio_trim|].
  split; [now apply parseCents_trim | now apply parsePeriod_trim].
Qed.

Lemma padding_ignored_witness :
  allWhite [9%N; 32%N] /\ allWhite [32%N; CR] /\
  parseRatio ([9%N; 32%N] ++ str "3/2" ++ [32%N; CR]) = parseRatio (str "3/2") /\
  parseCentsOrRatioToCents ([9%N; 32%N] ++ str "3/2" ++ [32%N; CR])
  = parseCentsOrRatioToCents (str "3/2") /\
  parsePeriodToCents ([9%N; 32%N] ++ str "3/2" ++ [32%N; CR])
  = parsePeriodToCents (str "3/2").
Proof.
  split; [reflexivity|]. split; [reflexivity|].
  apply (@padding_ignored [9%N; 32%N] (str "3/2") [32%N; CR]); reflexivity.
Defined.

(** X3. A line whose first code unit after its leading white space is
    [#] is a comment: whatever follows, the interval parser returns no
    token for it. *)
Theorem comment_line (w s : jsstring) :
  allWhite w -> parseCentsOrRatioToCents (w ++ HASH :: s) = None.
Proof.
  intros H. unfold parseCentsOrRatioToCents, trim.
  rewrite (@trimStart_white_app w _ H).
  change (trimStart (35%N :: s)) with (35%N :: s).
  rewrite trimEnd_cons_nonspace by reflexivity.
  rewrite str_hash, startsWith_one, N.eqb_refl. reflexivity.
Qed.

Lemma comment_line_witness :
  allWhite (str " ") /\
  parseCentsOrRatioToCents (str " " ++ HASH :: str " 3/2") = None.
Proof.
  split; [reflexivity | apply (@comment_line (str " ") (str " 3/2"))].
  reflexivity.
Defined.

Lemma trim_fraction (a b : jsstring) :
  trim (a ++ SLASH :: b) = trimStart a ++ SLASH :: trimEnd b.
Proof.
  unfold trim. rewrite trimStart_app_nonspace by reflexivity.
  now apply trimEnd_app_nonspace.
Qed.

Lemma includes_slash (s : jsstring) : In SLASH s -> includes s (str "/") = true.
Proof. intros H. rewrite str_slash. now apply includes_one_true. Qed.

(** The two sides of a fraction, as [parseRatio] reads them. *)
Lemma parseRatio_sides (a b : jsstring) :
  ~ In SLASH a -> ~ In SLASH b ->
  parseRatio (a ++ SLASH :: b)
  = if isFinite (Number a) && isFinite (Number b)
       && negb (strictEq (Number b) (num 0))
    then Some (div (Number a) (Number b)) else None.
Proof.
  intros Ha Hb. unfold parseRatio. rewrite trim_fraction.
  replace (isEmpty (trimStart a ++ SLASH :: trimEnd b)) with false
    by now destruct (trimStart a).
  rewrite includes_slash by (apply in_or_app; right; now left).
  rewrite split_app by (intros H; apply Ha; now apply In_trimStart).
  rewrite split_no_sep by (intros H; apply Hb; now apply In_trimEnd).
  cbn [map].
  rewrite (Number_trim_eq (trimStart a) a) by apply trim_trimStart.
  rewrite (Number_trim_eq (trimEnd b) b) by apply trim_trimEnd.
  reflexivity.
Qed.

(** X4. A fraction [a/b], with no further slash: [parseRatio] reads each
    side with [Number], which ignores the white space around it and reads
    an empty side as 0.  It returns the quotient when both sides are
    finite and the denominator is not zero, and [null] otherwise. *)
Theorem parseRatio_fraction (a b : jsstring) :
  ~ In SLASH a -> ~ In SLASH b ->
  parseRatio (a ++ SLASH :: b)
  = if isFinite (Number a) && isFinite (Number b)
       && negb (strictEq (Number b) (num 0))
    then Some (div (Number a) (Number b)) else None.
Proof. intros Ha Hb. now apply parseRatio_sides. Qed.

Lemma parseRatio_fraction_witness :
  ~ In SLASH (str " 3 ") /\ ~ In SLASH [] /\
  parseRatio (str " 3 " ++ SLASH :: [])
  = if isFinite (Number (str " 3 ")) && isFinite (Number [])
       && negb (strictEq (Number []) (num 0))
    then Some (div (Number (str " 3 ")) (Number [])) else None.
Proof.
  assert (Ha : ~ In SLASH (str " 3 "))
    by (intros [H|[H|[H|[]]]]; discriminate H).
  assert (Hb : ~ In SLASH []) by (intros []).
  split; [exact Ha|]. split; [exact Hb|].
  exact (@parseRatio_fraction _ _ Ha Hb).
Defined.

(** X5. [parseRatio] reads the first two parts of a text with slashes and
    ignores the rest: [a/b/rest] is the ratio [a/b], whatever [rest]
    holds. *)
Theorem parseRatio_extra_parts (a b rest : jsstring) :
  ~ In SLASH a -> ~ In SLASH b ->
  parseRatio (a ++ SLASH :: b ++ SLASH :: rest) = parseRatio (a ++ SLASH :: b).
Proof.
  intros Ha Hb. rewrite (@parseRatio_sides a b Ha Hb).
  unfold parseRatio.
  assert (E : trim (a ++ SLASH :: b ++ SLASH :: rest)
              = trimStart a ++ SLASH :: b ++ SLASH :: trimEnd rest).
  { unfold trim. rewrite trimStart_app_nonspace by reflexivity.
    change (trimStart a ++ SLASH :: b ++ SLASH :: rest)
      with (trimStart a ++ (SLASH :: b) ++ SLASH :: rest).
    rewrite app_assoc, trimEnd_app_nonspace by reflexivity.
    now rewrite <- app_assoc. }
  rewrite E.
  replace (isEmpty (trimStart a ++ SLASH :: b ++ SLASH :: trimEnd rest))
    with false by now destruct (trimStart a).
  rewrite includes_slash by (apply in_or_app; right; now left).
  rewrite split_app by (intros H; apply Ha; now apply In_trimStart).
  rewrite split_app by exact Hb.
  cbn [map].
  rewrite (Number_trim_eq (trimStart a) a) by apply trim_trimStart.
  reflexivity.
Qed.

Lemma parseRatio_extra_parts_witness :
  ~ In SLASH (str "3") /\ ~ In SLASH (str "2") /\
  parseRatio (str "3" ++ SLASH :: str "2" ++ SLASH :: str "x/")
  = parseRatio (str "3" ++ SLASH :: str "2").
Proof.
  assert (Ha : ~ In SLASH (str "3")) by (intros [H|[]]; discriminate H).
  assert (Hb : ~ In SLASH (str "2")) by (intros [H|[]]; discriminate H).
  split; [exact Ha|]. split; [exact Hb|].
  exact (@parseRatio_extra_parts _ _ (str "x/") Ha Hb).
Defined.

(** X6. What [parseRatio] returns is never NaN; and for a text without a
    slash it is the [Number] of the text, finite and greater than zero. *)
Theorem parseRatio_result (s : jsstring) (r : number) :
  parseRatio s = Some r ->
  isNaN r = false /\
  (~ In SLASH s -> r = Number s /\ isFinite r = true /\ gt r (num 0) = true).
Proof.
  unfold parseRatio. destruct (isEmpty (trim s)); [discriminate|].
  destruct (includes (trim s) (str "/")) eqn:Hs.
  - destruct (map Number (split SLASH (trim s))) as [|a [|b l]];
      try discriminate.
    destruct (isFinite a) eqn:Fa; [|discriminate].
    destruct (isFinite b) eqn:Fb; [|discriminate].
    destruct (strictEq b (num 0)) eqn:Hb; [discriminate|].
    intros H. injection H as <-. split; [now apply div_not_NaN|].
    intros Hno. exfalso. apply Hno. apply In_trim.
    rewrite str_slash in Hs. now apply includes_one_true.
  - rewrite (Number_trim_eq (trim s) s) by apply trim_idem.
    destruct (isFinite (Number s)) eqn:F; [|discriminate].
    destruct (gt (Number s) (num 0)) eqn:G; [|discriminate].
    intros H. injection H as <-.
    split; [now apply finite_not_NaN | now intros _].
Qed.

Lemma parseRatio_result_witness :
  parseRatio (str "1.5e0") = Some (Fin (3 # 2)) /\
  isNaN (Fin (3 # 2)) = false /\
  (~ In SLASH (str "1.5e0") ->
   Fin (3 # 2) = Number (str "1.5e0") /\ isFinite (Fin (3 # 2)) = true /\
   gt (Fin (3 # 2)) (num 0) = true).
Proof.
  assert (H : parseRatio (str "1.5e0") = Some (Fin (3 # 2)))
    by (vm_compute; reflexivity).
  split; [exact H | exact (@parseRatio_result _ _ H)].
Defined.

(** X7. The token the interval parser returns keeps the line as typed,
    trimmed: its [raw] is the trimmed line, which is not empty and does
    not start with [#], and its kind is Cents or Ratio. *)
Theorem token_raw (token : jsstring) (t : Token.t) :
  parseCentsOrRatioToCents token = Some t ->
  Token.raw t = trim token /\ Token.raw t <> [] /\
  startsWith (Token.raw t) (str "#") = false /\
  (Token.type t = Cents \/ Token.type t = Ratio).
Proof.
  unfold parseCentsOrRatioToCents.
  destruct (isEmpty (trim token)) eqn:He; [discriminate|].
  destruct (startsWith (trim token) (str "#")) eqn:Hh; [discriminate|].
  cbn [orb].
  assert (R : match parseRatio (trim token) with
              | Some r => Some (Token.mk (mul (num 1200) (log2 r))
                                         (trim token) Ratio)
              | None => None
              end = Some t ->
              Token.raw t = trim token /\ Token.raw t <> [] /\
              startsWith (Token.raw t) (str "#") = false /\
              (Token.type t = Cents \/ Token.type t = Ratio)).
  { destruct (parseRatio (trim token)); [|discriminate].
    intros H. injection H as <-. cbn [Token.raw Token.type].
    split; [reflexivity|]. split; [|split; [exact Hh | now right]].
    intros E. rewrite E in He. discriminate. }
  destruct (test centsPattern _); [|exact R].
  destruct (isFinite (Number _)); [|exact R].
  intros H. injection H as <-. cbn [Token.raw Token.type].
  split; [reflexivity|]. split; [|split; [exact Hh | now left]].
  intros E. rewrite E in He. discriminate.
Qed.

Lemma token_raw_witness :
  let t := Token.mk (num 700) (str "7 00c") Cents in
  parseCentsOrRatioToCents (str " 7 00c ") = Some t /\
  Token.raw t = trim (str " 7 00c ") /\ Token.raw t <> [] /\
  startsWith (Token.raw t) (str "#") = false /\
  (Token.type t = Cents \/ Token.type t = Ratio).
Proof.
  intros t.
  assert (H : parseCentsOrRatioToCents (str " 7 00c ") = Some t)
    by (vm_compute; reflexivity).
  split; [exact H | exact (@token_raw _ _ H)].
Defined.

(** A text that starts with [#] is no number. *)
Lemma Number_hash (s : jsstring) : Number (HASH :: s) = NaN.
Proof.
  apply (@Number_space_NaN _ HASH); [|reflexivity].
  unfold trim. change (trimStart (35%N :: s)) with (35%N :: s).
  rewrite trimEnd_cons_nonspace by reflexivity. now left.
Qed.

Lemma parseRatio_hash (s : jsstring) :
  trim (HASH :: s) = HASH :: s -> parseRatio (HASH :: s) = None.
Proof.
  intros Et. unfold parseRatio. rewrite Et. cbn [isEmpty].
  destruct (includes (HASH :: s) (str "/")) eqn:Hs.
  - pose proof (Number_hash []) as N0.
    destruct (split SLASH (HASH :: s)) as [|p0 ps] eqn:Es; [reflexivity|].
    assert (Hp : exists r, p0 = HASH :: r).
    { simpl in Es. destruct (split SLASH s) as [|q qs]; simpl in Es;
        injection Es as <- _; eexists; reflexivity. }
    destruct Hp as [r ->]. cbn [map]. rewrite Number_hash.
    now destruct (map Number ps).
  - now rewrite Number_hash.
Qed.

(** X8. The two parsers agree on every text without white space inside
    it, and on every text that is no cents text once its white space is
    removed: the cents of the interval token are the period the text
    parses to, and a text that is a finite period is an interval token. *)
Theorem period_interval_agree (s : jsstring) :
  removeAll isWhiteSpace (trim s) = trim s \/
  test centsPattern (removeAll isWhiteSpace (trim s)) = false ->
  (forall t, parseCentsOrRatioToCents s = Some t ->
             parsePeriodToCents s = Token.cents t) /\
  (isFinite (parsePeriodToCents s) = true ->
   exists t, parseCentsOrRatioToCents s = Some t).
Proof.
  intros H.
  assert (Hp : test centsPattern (removeAll isWhiteSpace (trim s))
               = test centsPattern (trim s)).
  { destruct H as [-> | H]; [reflexivity|]. rewrite H. symmetry.
    destruct (test centsPattern (trim s)) eqn:E; [|reflexivity].
    rewrite removeAll_noSpace in H by now apply pattern_noSpace.
    congruence. }
  destruct (test centsPattern (trim s)) eqn:Hpat.
  - (* a cents text *)
    pose proof Hp as Hl. destruct (parse_centsLike _ Hl)
      as (minus & ds & fs & unit & E & Hds0 & Hds & Hfs & Hu & Hparse).
    rewrite removeAll_noSpace in E by now apply pattern_noSpace.
    rewrite (@parsePeriod_centsText s minus ds fs unit E Hds0 Hds Hfs Hu).
    rewrite Hparse. split.
    + intros t. destruct (isFinite (decimalNumber minus ds fs));
        [|discriminate]. intros Ht. injection Ht as <-. reflexivity.
    + intros ->. eexists. reflexivity.
  - (* not a cents text: both go through parseRatio *)
    unfold parseCentsOrRatioToCents, parsePeriodToCents.
    rewrite Hp, Hpat. destruct (trim s) as [|c r] eqn:Et.
    { split; [discriminate | discriminate]. }
    cbn [isEmpty]. rewrite str_hash, startsWith_one. cbn [orb].
    destruct (N.eqb_spec 35 c) as [<-|_].
    + rewrite parseRatio_hash by (rewrite <- Et; apply trim_idem).
      cbv iota. split; [discriminate | intros Hf; discriminate Hf].
    + destruct (parseRatio (c :: r)) as [x|].
      * split; [|intros _; eexists; reflexivity].
        intros t Ht. injection Ht as <-. reflexivity.
      * cbv iota. split; [discriminate | intros Hf; discriminate Hf].
Qed.

Lemma period_interval_agree_witness :
  (removeAll isWhiteSpace (trim (str "3 / 2")) = trim (str "3 / 2") \/
   test centsPattern (removeAll isWhiteSpace (trim (str "3 / 2"))) = false) /\
  (forall t, parseCentsOrRatioToCents (str "3 / 2") = Some t ->
             parsePeriodToCents (str "3 / 2") = Token.cents t) /\
  (isFinite (parsePeriodToCents (str "3 / 2")) = true ->
   exists t, parseCentsOrRatioToCents (str "3 / 2") = Some t).
Proof.
  assert (H : removeAll isWhiteSpace (trim (str "3 / 2")) = trim (str "3 / 2") \/
              test centsPattern (removeAll isWhiteSpace (trim (str "3 / 2")))
              = false) by (right; reflexivity).
  split; [exact H | exact (@period_interval_agree _ H)].
Defined.

End ParserProps.

Module NumeralFacts.
Import JSString JSNumber JSConv RegExp Utils_js Vocabulary.
Import StringFacts ConvFacts CentsFacts.

Lemma forallb_firstn (A : Type) (p : A -> bool) (n : nat) (l : list A) :
  forallb p l = true -> forallb p (firstn n l) = true.
Proof.
  revert n. induction l as [|x l IH]; intros [|n] H; try reflexivity.
  simpl in *. apply andb_true_iff in H. destruct H as [Hx Hl].
  now rewrite Hx, IH.
Qed.

Lemma forallb_skipn (A : Type) (p : A -> bool) (n : nat) (l : list A) :
  forallb p l = true -> forallb p (skipn n l) = true.
Proof.
  revert n. induction l as [|x l IH]; intros [|n] H; try reflexivity;
    [exact H|].
  simpl in *. apply andb_true_iff in H. destruct H as [Hx Hl]. now apply IH.
Qed.

Lemma forallb_repeat (A : Type) (p : A -> bool) (x : A) (n : nat) :
  p x = true -> forallb p (repeat x n) = true.
Proof. intros H. induction n; simpl; [reflexivity | now rewrite H]. Qed.

(** The decimal digits of a natural number. *)
Lemma digitsFuel_digits (fuel : nat) (n : N) (acc : jsstring) :
  forallb isDigit acc = true -> forallb isDigit (digitsFuel fuel n acc) = true.
Proof.
  revert n acc. induction fuel as [|f IH]; intros n acc H; [exact H|].
  cbn [digitsFuel].
  assert (Hd : forallb isDigit ((48 + n mod 10)%N :: acc) = true).
  { cbn [forallb]. rewrite H, andb_true_r. apply isDigit_range.
    assert (Hm : (n mod 10 < 10)%N) by (apply N.mod_lt; discriminate).
    revert Hm. generalize (n mod 10)%N. intros m Hm. lia. }
  destruct (n <? 10)%N; [exact Hd | now apply IH].
Qed.

Lemma digitsFuel_nonempty (fuel : nat) (n : N) (acc : jsstring) :
  acc <> [] -> digitsFuel fuel n acc <> [].
Proof.
  revert n acc. induction fuel as [|f IH]; intros n acc H; [exact H|].
  cbn [digitsFuel].
  destruct (n <? 10)%N; [discriminate | apply IH; discriminate].
Qed.

Lemma decimalOfN_digits (n : N) : forallb isDigit (decimalOfN n) = true.
Proof. now apply digitsFuel_digits. Qed.

Lemma decimalOfN_nonempty (n : N) : decimalOfN n <> [].
Proof.
  unfold decimalOfN. cbn [digitsFuel].
  destruct (n <? 10)%N; [discriminate | apply digitsFuel_nonempty; discriminate].
Qed.

Lemma digit_numeral (c : N) : isDigit c = true -> isNumeralChar c = true.
Proof. intros H. unfold isNumeralChar. now rewrite H. Qed.

Lemma digits_numeral (s : jsstring) :
  forallb isDigit s = true -> forallb isNumeralChar s = true.
Proof.
  rewrite !forallb_forall. intros H c Hc. now apply digit_numeral, H.
Qed.

Lemma decimalOfZ_numeral (z : Z) : forallb isNumeralChar (decimalOfZ z) = true.
Proof.
  destruct z; simpl decimalOfZ; try (apply digits_numeral, decimalOfN_digits).
  simpl. apply digits_numeral, decimalOfN_digits.
Qed.

Lemma decimalOfZ_nonempty (z : Z) : decimalOfZ z <> [].
Proof.
  destruct z; simpl decimalOfZ; try apply decimalOfN_nonempty. discriminate.
Qed.

(** The string form of a number. *)
Lemma toStringPos_numeral (a : Q) : forallb isNumeralChar (toStringPos a) = true.
Proof.
  unfold toStringPos.
  destruct (shortestFuel 16 1 a (ilog10 a + 1)) as [c0 e0].
  destruct (stripZeros 400 c0 e0) as [c e].
  pose proof (decimalOfZ_numeral c) as Hds.
  set (ds := decimalOfZ c) in *. clearbody ds.
  set (k := Z.of_nat (List.length ds)). set (n := (k + e)%Z).
  assert (Hz : forall m, forallb isNumeralChar (zeros m) = true)
    by (intros m; now apply forallb_repeat).
  destruct ((k <=? n)%Z && (n <=? 21)%Z).
  { now rewrite forallb_app, Hds, Hz. }
  destruct ((0 <? n)%Z && (n <=? 21)%Z).
  { rewrite !forallb_app, forallb_firstn, forallb_skipn by exact Hds.
    reflexivity. }
  destruct ((-6 <? n)%Z && (n <=? 0)%Z).
  { rewrite !forallb_app, Hds, Hz. reflexivity. }
  assert (He : forallb isNumeralChar
                 ((if (n - 1 <? 0)%Z then 45%N else 43%N)
                  :: decimalOfZ (Z.abs (n - 1))) = true).
  { cbn [forallb]. rewrite decimalOfZ_numeral.
    now destruct (n - 1 <? 0)%Z. }
  destruct ds as [|d [|d' more]]; [reflexivity | |].
  - cbn [forallb] in *. apply andb_true_iff in Hds. destruct Hds as [-> _].
    exact He.
  - cbn [forallb] in Hds. apply andb_true_iff in Hds. destruct Hds as [Hd Hm].
    change (forallb isNumeralChar
              (d :: 46%N :: (d' :: more) ++ 101%N
                 :: (if (n - 1 <? 0)%Z then 45%N else 43%N)
                 :: decimalOfZ (Z.abs (n - 1))) = true).
    cbn [forallb]. rewrite Hd. cbn [andb].
    change (isNumeralChar 46 = true /\ True -> True) with True.
    rewrite forallb_app. change (forallb isNumeralChar (d' :: more))
      with (isNumeralChar d' && forallb isNumeralChar more) in Hm |- *.
    rewrite Hm. exact He.
Qed.

Lemma toStringPos_nonempty (a : Q) : toStringPos a <> [].
Proof.
  unfold toStringPos.
  destruct (shortestFuel 16 1 a (ilog10 a + 1)) as [c0 e0].
  destruct (stripZeros 400 c0 e0) as [c e].
  pose proof (@decimalOfZ_nonempty c) as Hds.
  set (ds := decimalOfZ c) in *. clearbody ds.
  destruct ds as [|d ds]; [contradiction|].
  repeat match goal with
         | |- context [if ?b then _ else _] => destruct b
         end; try discriminate.
  intros H. apply app_eq_nil in H. destruct H as [_ H]. discriminate H.
Qed.

Lemma toString_numeral (x : number) : forallb isNumeralChar (toString x) = true.
Proof.
  unfold toString. destruct (classify x) as [|s|s|q]; try reflexivity.
  - now destruct s.
  - destruct (Qltb q 0); [cbn [forallb]|]; now rewrite toStringPos_numeral.
Qed.

Lemma toString_nonempty (x : number) : toString x <> [].
Proof.
  unfold toString. destruct (classify x) as [|s|s|q]; try discriminate.
  - now destruct s.
  - destruct (Qltb q 0); [discriminate | apply toStringPos_nonempty].
Qed.

Lemma toFixed0_numeral (x : number) : forallb isNumeralChar (toFixed x 0) = true.
Proof.
  unfold toFixed. destruct (value x) as [q|]; [|apply toString_numeral].
  destruct (Qle_bool (pow10 21) (Qabs q)); [apply toString_numeral|].
  rewrite !forallb_app, decimalOfZ_numeral, forallb_repeat by reflexivity.
  now destruct (Qltb q 0).
Qed.

Lemma toFixed0_nonempty (x : number) : toFixed x 0 <> [].
Proof.
  unfold toFixed. destruct (value x) as [q|]; [|apply toString_nonempty].
  destruct (Qle_bool (pow10 21) (Qabs q)); [apply toString_nonempty|].
  intros H. apply app_eq_nil in H. destruct H as [_ H].
  apply app_eq_nil in H. destruct H as [_ H].
  now apply decimalOfZ_nonempty in H.
Qed.

(** A numeral holds no white space, no slash and no cent unit. *)
Lemma numeral_plain (c : N) :
  isNumeralChar c = true ->
  isWhiteSpace c = false /\ c <> SLASH /\ isCentUnit c = false.
Proof.
  unfold isNumeralChar. rewrite orb_true_iff. intros [H|H].
  - split; [now apply numeric_not_space, digit_numeric|].
    split; [apply isDigit_range in H; lia | now apply digit_not_unit].
  - apply existsb_exists in H. destruct H as (x & Hx & E).
    apply N.eqb_eq in E. subst x.
    repeat (destruct Hx as [<-|Hx];
            [split; [reflexivity | split; [discriminate | reflexivity]]|]).
    destruct Hx.
Qed.

End NumeralFacts.

Module LabelProps.
Import JSString JSNumber JSConv RegExp SVG Utils_js Vocabulary.
Import StringFacts RegExpFacts ConvFacts CentsFacts ParseFacts.
Import TrimFacts NumeralFacts.

(** X9. The period label is never empty, whatever the input and the
    period, NaN included. *)
Theorem label_nonempty (inputValue : jsstring) (periodCents : number) :
  normalizePeriodLabel inputValue periodCents <> [].
Proof.
  unfold normalizePeriodLabel.
  destruct (isEmpty (trim inputValue)) eqn:He; [apply toFixed0_nonempty|].
  destruct (includes (trim inputValue) (str "/")).
  { intros E. rewrite E in He. discriminate. }
  destruct (test centsPattern (trim inputValue)) eqn:Hp;
    [|apply toFixed0_nonempty].
  apply centsPattern_shape in Hp.
  destruct Hp as (minus & ds & fs & unit & E & Hds0 & Hds & Hfs & Hu).
  rewrite E, removeAll_centsText by assumption.
  rewrite trim_noSpace by (apply centsText_noSpace; [assumption..|exact I]).
  intros H. pose proof (@centsText_nonempty minus ds fs None Hds0) as Hn.
  rewrite H in Hn. discriminate.
Qed.

(** The label computed from the cents is kept by a second normalization. *)
Lemma label_numeral (L : jsstring) (p : number) :
  L = toFixed p 0 -> normalizePeriodLabel L p = L.
Proof.
  intros EL.
  assert (Hch : forall c, In c L -> isNumeralChar c = true).
  { apply forallb_forall. rewrite EL. apply toFixed0_numeral. }
  assert (Hns : noSpace L) by (intros c Hc; now apply numeral_plain, Hch).
  unfold normalizePeriodLabel. rewrite trim_noSpace by exact Hns.
  replace (isEmpty L) with false.
  2:{ destruct L; [|reflexivity]. symmetry in EL.
      now apply toFixed0_nonempty in EL. }
  replace (includes L (str "/")) with false.
  2:{ symmetry. rewrite str_slash. apply includes_one_false. intros Hc.
      now apply Hch, numeral_plain in Hc. }
  destruct (test centsPattern L); [|now symmetry].
  replace (removeAll isCentUnit L) with L; [now apply trim_noSpace|].
  clear EL Hns. induction L as [|c L IH]; [reflexivity|]. simpl.
  replace (isCentUnit c) with false
    by (symmetry; apply numeral_plain, Hch; now left).
  simpl. f_equal. apply IH. intros d Hd. apply Hch. now right.
Qed.

(** X10. Normalizing a period label again changes nothing: for every
    input and every period, the label of the label is the label. *)
Theorem label_idempotent (inputValue : jsstring) (periodCents : number) :
  normalizePeriodLabel (normalizePeriodLabel inputValue periodCents)
                       periodCents
  = normalizePeriodLabel inputValue periodCents.
Proof.
  unfold normalizePeriodLabel at 2 3.
  destruct (isEmpty (trim inputValue)) eqn:He; [now apply label_numeral|].
  destruct (includes (trim inputValue) (str "/")) eqn:Hs.
  { unfold normalizePeriodLabel. now rewrite trim_idem, He, Hs. }
  destruct (test centsPattern (trim inputValue)) eqn:Hp;
    [|now apply label_numeral].
  apply centsPattern_shape in Hp.
  destruct Hp as (minus & ds & fs & unit & E & Hds0 & Hds & Hfs & Hu).
  rewrite E, removeAll_centsText by assumption.
  assert (Hns : noSpace (centsText minus ds fs None))
    by (apply centsText_noSpace; [assumption..|exact I]).
  rewrite trim_noSpace by exact Hns.
  unfold normalizePeriodLabel. rewrite trim_noSpace by exact Hns.
  rewrite centsText_nonempty by exact Hds0.
  replace (includes (centsText minus ds fs None) (str "/")) with false.
  2:{ symmetry. rewrite str_slash. apply includes_one_false. intros Hc.
      destruct (@centsText_chars minus ds fs None _ Hds Hfs I Hc)
        as [?|[?|[?|?]]]; discriminate. }
  replace (test centsPattern (centsText minus ds fs None)) with true.
  2:{ symmetry. apply centsPattern_shape.
      exists minus, ds, fs, None. now repeat split. }
  rewrite removeAll_centsText by (try assumption; exact I).
  now apply trim_noSpace.
Qed.

(** X11. The label of a period written in cents is its text without the
    unit: it is what is left of the trimmed input when every [c], [C] and
    cent sign is removed, it holds none of them, and it is a cents text
    again. *)
Theorem label_cents (inputValue : jsstring) (periodCents : number) :
  test centsPattern (trim inputValue) = true ->
  normalizePeriodLabel inputValue periodCents
  = removeAll isCentUnit (trim inputValue) /\
  test centsPattern (normalizePeriodLabel inputValue periodCents) = true /\
  forallb (fun c => negb (isCentUnit c))
          (normalizePeriodLabel inputValue periodCents) = true.
Proof.
  intros Hp. pose proof Hp as Hshape. apply centsPattern_shape in Hshape.
  destruct Hshape as (minus & ds & fs & unit & E & Hds0 & Hds & Hfs & Hu).
  assert (Hns : noSpace (centsText minus ds fs None))
    by (apply centsText_noSpace; [assumption..|exact I]).
  assert (EL : normalizePeriodLabel inputValue periodCents
               = centsText minus ds fs None).
  { unfold normalizePeriodLabel. rewrite Hp, E.
    rewrite centsText_nonempty by exact Hds0.
    replace (includes (centsText minus ds fs unit) (str "/")) with false.
    2:{ symmetry. rewrite str_slash. apply includes_one_false. intros Hc.
        destruct (@centsText_chars minus ds fs unit _ Hds Hfs Hu Hc)
          as [?|[?|[?|?]]]; discriminate. }
    rewrite removeAll_centsText by assumption. now apply trim_noSpace. }
  rewrite EL, E, removeAll_centsText by assumption.
  split; [reflexivity|]. split.
  - apply centsPattern_shape. exists minus, ds, fs, None. now repeat split.
  - apply forallb_forall. intros c Hc.
    assert (Hin : In c (removeAll isCentUnit (centsText minus ds fs None))).
    { rewrite removeAll_centsText by (try assumption; exact I). exact Hc. }
    apply removeAll_In in Hin. destruct Hin as [_ ->]. reflexivity.
Qed.

Lemma label_cents_witness :
  test centsPattern (trim (str " 701.955C ")) = true /\
  normalizePeriodLabel (str " 701.955C ") (num 702)
  = removeAll isCentUnit (trim (str " 701.955C ")) /\
  test centsPattern (normalizePeriodLabel (str " 701.955C ") (num 702)) = true /\
  forallb (fun c => negb (isCentUnit c))
          (normalizePeriodLabel (str " 701.955C ") (num 702)) = true.
Proof.
  split; [reflexivity|].
  apply (@label_cents (str " 701.955C ") (num 702)). reflexivity.
Defined.

End LabelProps.

(* ================================================================== *)
(** * Part X. Properties of the rounding                               *)
(* ================================================================== *)

Module RoundFacts.
Import JSString JSNumber JSConv Vocabulary LayoutFacts NumberFacts.
Local Open Scope Q_scope.

(** ** Powers of two *)

Lemma pow2_Qpower (e : Z) : pow2 e == 2 ^ e.
Proof.
  destruct e as [|p|p]; unfold pow2.
  - reflexivity.
  - now rewrite Zpower_Qpower.
  - change (Z.neg p) with (- Z.pos p)%Z. rewrite Qpower_opp.
    rewrite <- (Zpower_Qpower 2 (Z.pos p)) by discriminate.
    rewrite <- Pos2Z.inj_pow. reflexivity.
Qed.

Lemma pow2_pos (e : Z) : 0 < pow2 e.
Proof. rewrite pow2_Qpower. now apply Qpower_0_lt. Qed.

Lemma pow2_plus (a b : Z) : pow2 (a + b) == pow2 a * pow2 b.
Proof. rewrite !pow2_Qpower. now apply Qpower_plus. Qed.

Lemma pow2_le (a b : Z) : (a <= b)%Z -> pow2 a <= pow2 b.
Proof.
  intros H. rewrite !pow2_Qpower. now apply Qpower_le_compat_l.
Qed.

Lemma pow2_nonneg (e : Z) : (0 <= e)%Z -> pow2 e = inject_Z (2 ^ e).
Proof. destruct e; try reflexivity. lia. Qed.

(** ** The binary logarithm *)

Lemma ilog2_le (q : Q) : 0 < q -> pow2 (ilog2 q) <= q.
Proof.
  intros Hq. unfold ilog2. destruct q as [n d]. cbn [Qnum Qden].
  set (ln := Z.log2 n). set (ld := Z.log2 (Z.pos d)).
  destruct (Qle_bool (pow2 (ln - ld)) (n # d)) eqn:E;
    [now apply Qle_bool_iff|].
  assert (Hn : (0 < n)%Z) by (unfold Qlt in Hq; simpl in Hq; lia).
  pose proof (Z.log2_spec _ Hn) as [Ln _]. fold ln in Ln.
  assert (Hd : (0 < Z.pos d)%Z) by reflexivity.
  pose proof (Z.log2_spec _ Hd) as [_ Ld]. fold ld in Ld.
  assert (Hln : (0 <= ln)%Z) by apply Z.log2_nonneg.
  assert (Hld : (0 <= ld)%Z) by apply Z.log2_nonneg.
  replace (ln - ld - 1)%Z with (ln + - (ld + 1))%Z by lia.
  rewrite pow2_plus, (pow2_Qpower (- (ld + 1))), Qpower_opp, <- pow2_Qpower.
  rewrite !pow2_nonneg by lia.
  rewrite (Qmake_Qdiv n d).
  assert (A : inject_Z (2 ^ ln) <= inject_Z n) by now rewrite <- Zle_Qle.
  assert (B : inject_Z (Z.pos d) <= inject_Z (2 ^ (ld + 1))).
  { rewrite <- Zle_Qle. unfold Z.succ in Ld. lia. }
  assert (A0 : 0 < inject_Z (2 ^ ln)).
  { change 0 with (inject_Z 0). rewrite <- Zlt_Qlt. now apply Z.pow_pos_nonneg. }
  assert (D0 : 0 < inject_Z (Z.pos d)) by reflexivity.
  revert A B A0 D0.
  generalize (inject_Z (2 ^ ln)) (inject_Z n)
             (inject_Z (Z.pos d)) (inject_Z (2 ^ (ld + 1))).
  intros a n' d' b A B A0 D0.
  assert (B0 : 0 < b) by lra.
  apply Qle_shift_div_l; [exact D0|].
  assert (E1 : a * / b * d' == a * d' / b) by (field; lra).
  rewrite E1. apply Qle_shift_div_r; [exact B0|]. nra.
Qed.

(** ** Rounding to an integer *)

Lemma roundHalfEven_floor (q : Q) :
  roundHalfEven q = Qfloor q \/
  (roundHalfEven q = (Qfloor q + 1)%Z /\ inject_Z (Qfloor q) < q).
Proof.
  unfold roundHalfEven.
  destruct (Qcompare_spec (q - inject_Z (Qfloor q)) (1 # 2)) as [E|E|E].
  - destruct (Z.even (Qfloor q)); [now left|]. right. split; [reflexivity|].
    lra.
  - now left.
  - right. split; [reflexivity | lra].
Qed.

Lemma roundHalfEven_ge (q : Q) (k : Z) :
  inject_Z k <= q -> (k <= roundHalfEven q)%Z.
Proof.
  intros H. assert (Hf : (k <= Qfloor q)%Z).
  { rewrite <- (Qfloor_Z k). now apply Qfloor_resp_le. }
  destruct (roundHalfEven_floor q) as [-> | [-> _]]; lia.
Qed.

Lemma roundHalfEven_le (q : Q) (k : Z) :
  q <= inject_Z k -> (roundHalfEven q <= k)%Z.
Proof.
  intros H. pose proof (Qfloor_le q) as Hf.
  destruct (roundHalfEven_floor q) as [-> | [-> Hlt]].
  - rewrite Zle_Qle. lra.
  - assert (L : (Qfloor q < k)%Z) by (rewrite Zlt_Qlt; lra). lia.
Qed.

(** ** The magnitude of a rounded number *)

Lemma scale_le (x y p : Q) : 0 < p -> x / p <= y -> x <= y * p.
Proof.
  intros Hp H. assert (E : x == x / p * p) by (field; lra).
  revert H E. generalize (x / p). intros u H E. nra.
Qed.

Lemma scale_ge (x y p : Q) : 0 < p -> y <= x / p -> y * p <= x.
Proof.
  intros Hp H. assert (E : x == x / p * p) by (field; lra).
  revert H E. generalize (x / p). intros u H E. nra.
Qed.

(** An integer of less than 54 bits on one side of [a] stays on that side
    of the binary64 nearest to [a]. *)
Lemma round_mag (a : Q) (n : Z) :
  0 < a -> (0 < n < 2 ^ 53)%Z ->
  let ue := Z.max (ilog2 a - 52) (-1074) in
  let m := roundHalfEven (a / pow2 ue) in
  (inject_Z n <= a -> inject_Z n <= inject_Z m * pow2 ue) /\
  (a <= inject_Z n -> inject_Z m * pow2 ue <= inject_Z n).
Proof.
  intros Ha Hn ue m.
  pose proof (pow2_pos ue) as Hp.
  pose proof (ilog2_le Ha) as Hl.
  destruct (Z_le_gt_dec ue 0) as [Hue|Hue].
  - (* the unit in the last place is at most one *)
    assert (EN : inject_Z n / pow2 ue == inject_Z (n * 2 ^ (- ue))).
    { rewrite inject_Z_mult, <- pow2_nonneg by lia.
      rewrite (pow2_Qpower (- ue)), Qpower_opp, <- pow2_Qpower.
      field. lra. }
    split; intros H.
    + assert (Hm : (n * 2 ^ (- ue) <= m)%Z).
      { apply roundHalfEven_ge. rewrite <- EN.
        apply Qle_shift_div_l; [exact Hp|].
        assert (E : inject_Z n / pow2 ue * pow2 ue == inject_Z n)
          by (field; lra).
        now rewrite E. }
      rewrite Zle_Qle in Hm. rewrite <- EN in Hm.
      now apply scale_le.
    + assert (Hm : (m <= n * 2 ^ (- ue))%Z).
      { apply roundHalfEven_le. rewrite <- EN.
        apply Qle_shift_div_r; [exact Hp|].
        assert (E : inject_Z n / pow2 ue * pow2 ue == inject_Z n)
          by (field; lra).
        now rewrite E. }
      rewrite Zle_Qle in Hm. rewrite <- EN in Hm.
      now apply scale_ge.
  - (* the unit in the last place is two or more *)
    assert (Eue : ue = (ilog2 a - 52)%Z) by (unfold ue; lia).
    assert (H53 : pow2 53 <= pow2 (ilog2 a)) by (apply pow2_le; lia).
    assert (Hn53 : inject_Z n < pow2 53).
    { change (pow2 53) with (inject_Z (2 ^ 53)). rewrite <- Zlt_Qlt. lia. }
    split; intros H; [|lra].
    assert (Hm : (2 ^ 52 <= m)%Z).
    { apply roundHalfEven_ge. apply Qle_shift_div_l; [exact Hp|].
      change (inject_Z (2 ^ 52)) with (pow2 52).
      rewrite <- pow2_plus. replace (52 + ue)%Z with (ilog2 a) by lia.
      exact Hl. }
    rewrite Zle_Qle in Hm. change (inject_Z (2 ^ 52)) with (pow2 52) in Hm.
    assert (H1 : pow2 1 <= pow2 ue) by (apply pow2_le; lia).
    assert (E53 : pow2 53 == pow2 52 * pow2 1) by reflexivity.
    pose proof (pow2_pos 52) as P52. pose proof (pow2_pos 1) as P1.
    revert Hm H1 E53 Hn53 P52 P1.
    generalize (inject_Z m) (pow2 ue) (pow2 52) (pow2 1) (pow2 53) (inject_Z n).
    intros. nra.
Qed.

(** ** Rounding to binary64 *)

Lemma pow2_1024_big (n : Z) :
  (n < 2 ^ 53)%Z -> inject_Z n < pow2 1024.
Proof.
  intros H. apply Qlt_trans with (inject_Z (2 ^ 53)).
  - now rewrite <- Zlt_Qlt.
  - reflexivity.
Qed.

Lemma round64_cases (q : Q) :
  (q == 0 /\ round64 q = Fin 0) \/
  (exists a m ue,
     ~ q == 0 /\ a == Qabs q /\ 0 < a /\
     ue = Z.max (ilog2 a - 52) (-1074) /\ m = roundHalfEven (a / pow2 ue) /\
     round64 q =
       if (m =? 0)%Z then zero (Qltb q 0)
       else if Qle_bool (pow2 1024) (inject_Z m * pow2 ue)
            then inf (Qltb q 0)
            else Fin (Qred ((if Qltb q 0 then -1 else 1)
                            * (inject_Z m * pow2 ue)))).
Proof.
  unfold round64, Qltb.
  destruct (Qcompare_spec q 0) as [E|E|E].
  - left. now split.
  - right.
    exists (Qabs q),
      (roundHalfEven (Qabs q / pow2 (Z.max (ilog2 (Qabs q) - 52) (-1074)))),
      (Z.max (ilog2 (Qabs q) - 52) (-1074)).
    split; [lra|]. split; [reflexivity|].
    split; [|now repeat split].
    rewrite Qabs_neg by lra. lra.
  - right.
    exists (Qabs q),
      (roundHalfEven (Qabs q / pow2 (Z.max (ilog2 (Qabs q) - 52) (-1074)))),
      (Z.max (ilog2 (Qabs q) - 52) (-1074)).
    split; [lra|]. split; [reflexivity|].
    split; [|now repeat split].
    rewrite Qabs_pos by lra. lra.
Qed.

Lemma round64_lower (q : Q) (n : Z) :
  (Z.abs n < 2 ^ 53)%Z -> inject_Z n <= q -> atLeast (round64 q) (inject_Z n).
Proof.
  intros Hn Hq. unfold atLeast.
  destruct (round64_cases q) as [[E ->]|(a & m & ue & Hq0 & Ea & Ha & -> & -> & ->)].
  { right. exists 0. split; [reflexivity | lra]. }
  set (ue := Z.max (ilog2 a - 52) (-1074)).
  set (m := roundHalfEven (a / pow2 ue)).
  pose proof (pow2_pos ue) as Hp.
  assert (Hm0 : (0 <= m)%Z).
  { apply roundHalfEven_ge. change (inject_Z 0) with 0.
    apply Qle_shift_div_l; [exact Hp | lra]. }
  assert (HM0 : 0 <= inject_Z m * pow2 ue).
  { apply Qmult_le_0_compat; [|lra]. change 0 with (inject_Z 0).
    now rewrite <- Zle_Qle. }
  destruct (Qltb q 0) eqn:Hs.
  - (* q is negative, and so is n *)
    apply Qltb_lt in Hs. rewrite Qabs_neg in Ea by lra.
    assert (Hn0 : (n < 0)%Z).
    { rewrite Zlt_Qlt. change (inject_Z 0) with 0. lra. }
    destruct (@round_mag a (- n) Ha ltac:(lia)) as [_ U].
    fold ue m in U. rewrite inject_Z_opp in U.
    assert (HU : inject_Z m * pow2 ue <= - inject_Z n) by (apply U; lra).
    destruct (m =? 0)%Z; [right; exists 0; split; [reflexivity | lra]|].
    destruct (Qle_bool _ _) eqn:Ov.
    + exfalso. apply Qle_bool_iff in Ov.
      pose proof (@pow2_1024_big (- n) ltac:(lia)) as B.
      rewrite inject_Z_opp in B. lra.
    + right. eexists. split; [reflexivity|]. rewrite Qred_correct. lra.
  - apply Qltb_ge in Hs. rewrite Qabs_pos in Ea by lra.
    destruct (Z_le_gt_dec n 0) as [Hn0|Hn0].
    + assert (Hn0' : inject_Z n <= 0).
      { change 0 with (inject_Z 0). now rewrite <- Zle_Qle. }
      destruct (m =? 0)%Z; [right; exists 0; split; [reflexivity | lra]|].
      destruct (Qle_bool _ _); [now left|].
      right. eexists. split; [reflexivity|]. rewrite Qred_correct. lra.
    + destruct (@round_mag a n Ha ltac:(lia)) as [L _].
      fold ue m in L.
      assert (HL : inject_Z n <= inject_Z m * pow2 ue) by (apply L; lra).
      assert (Hn0' : 0 < inject_Z n).
      { change 0 with (inject_Z 0). rewrite <- Zlt_Qlt. lia. }
      destruct (Z.eqb_spec m 0) as [Em|_].
      { exfalso. rewrite Em in HL. change (inject_Z 0) with 0 in HL. lra. }
      destruct (Qle_bool _ _); [now left|].
      right. eexists. split; [reflexivity|]. rewrite Qred_correct. lra.
Qed.

Lemma round64_upper (q : Q) (n : Z) :
  (Z.abs n < 2 ^ 53)%Z -> q <= inject_Z n -> atMost (round64 q) (inject_Z n).
Proof.
  intros Hn Hq. unfold atMost.
  destruct (round64_cases q) as [[E ->]|(a & m & ue & Hq0 & Ea & Ha & -> & -> & ->)].
  { right. exists 0. split; [reflexivity | lra]. }
  set (ue := Z.max (ilog2 a - 52) (-1074)).
  set (m := roundHalfEven (a / pow2 ue)).
  pose proof (pow2_pos ue) as Hp.
  assert (Hm0 : (0 <= m)%Z).
  { apply roundHalfEven_ge. change (inject_Z 0) with 0.
    apply Qle_shift_div_l; [exact Hp | lra]. }
  assert (HM0 : 0 <= inject_Z m * pow2 ue).
  { apply Qmult_le_0_compat; [|lra]. change 0 with (inject_Z 0).
    now rewrite <- Zle_Qle. }
  destruct (Qltb q 0) eqn:Hs.
  - apply Qltb_lt in Hs. rewrite Qabs_neg in Ea by lra.
    destruct (Z_le_gt_dec 0 n) as [Hn0|Hn0].
    + assert (Hn0' : 0 <= inject_Z n).
      { change 0 with (inject_Z 0). now rewrite <- Zle_Qle. }
      destruct (m =? 0)%Z; [right; exists 0; split; [reflexivity | lra]|].
      destruct (Qle_bool _ _); [now left|].
      right. eexists. split; [reflexivity|]. rewrite Qred_correct. lra.
    + destruct (@round_mag a (- n) Ha ltac:(lia)) as [L _].
      fold ue m in L. rewrite inject_Z_opp in L.
      assert (HL : - inject_Z n <= inject_Z m * pow2 ue) by (apply L; lra).
      assert (Hn0' : inject_Z n < 0).
      { change 0 with (inject_Z 0). rewrite <- Zlt_Qlt. lia. }
      destruct (Z.eqb_spec m 0) as [Em|_].
      { exfalso. rewrite Em in HL. change (inject_Z 0) with 0 in HL. lra. }
      destruct (Qle_bool _ _); [now left|].
      right. eexists. split; [reflexivity|]. rewrite Qred_correct. lra.
  - apply Qltb_ge in Hs. rewrite Qabs_pos in Ea by lra.
    assert (Hq1 : 0 < q).
    { destruct (Qlt_le_dec 0 q) as [L|L]; [exact L|]. exfalso. apply Hq0. lra. }
    assert (Hn0 : (0 < n)%Z).
    { rewrite Zlt_Qlt. change (inject_Z 0) with 0. lra. }
    destruct (@round_mag a n Ha ltac:(lia)) as [_ U].
    fold ue m in U.
    assert (HU : inject_Z m * pow2 ue <= inject_Z n) by (apply U; lra).
    destruct (m =? 0)%Z; [right; exists 0; split; [reflexivity | lra]|].
    destruct (Qle_bool _ _) eqn:Ov.
    + exfalso. apply Qle_bool_iff in Ov.
      pose proof (@pow2_1024_big n ltac:(lia)) as B. lra.
    + right. eexists. split; [reflexivity|]. rewrite Qred_correct. lra.
Qed.

(** An integer of less than 54 bits is a binary64: rounding keeps it. *)
Lemma round64_exact (q : Q) (n : Z) :
  (Z.abs n < 2 ^ 53)%Z -> q == inject_Z n ->
  exists r, value (round64 q) = Some r /\ r == inject_Z n.
Proof.
  intros Hn E.
  destruct (@round64_lower q n Hn ltac:(lra)) as [HL|(r & Hr & L)];
  destruct (@round64_upper q n Hn ltac:(lra)) as [HU|(r' & Hr' & U)].
  - congruence.
  - rewrite HL in Hr'. discriminate.
  - rewrite HU in Hr. discriminate.
  - exists r. split; [exact Hr|]. rewrite Hr in Hr'. injection Hr' as <-. lra.
Qed.

(** What has a value is zero or a rational other than zero. *)
Lemma value_classify (x : number) (v : Q) :
  value x = Some v ->
  (v == 0 /\ exists s, classify x = CZero s /\ signBit x = s) \/
  (~ v == 0 /\ classify x = CFin v).
Proof.
  destruct x as [| | | |q]; try discriminate; intros H; injection H as <-.
  - left. split; [reflexivity | now exists true].
  - unfold classify. destruct (Qeq_bool q 0) eqn:E.
    + apply Qeq_bool_eq in E. left. split; [exact E|]. exists false.
      split; [reflexivity|]. unfold signBit.
      apply Qltb_ge. lra.
    + apply Qeq_bool_neq in E. now right.
Qed.

Lemma value_zero (s : bool) : value (zero s) = Some 0.
Proof. now destruct s. Qed.

Lemma atLeast_value (x : number) :
  isNaN x = false -> x <> NInf ->
  x = PInf \/ exists r, value x = Some r.
Proof.
  destruct x; try discriminate; intros _ H;
    [now left | contradiction | right; now eexists | right; now eexists].
Qed.

End RoundFacts.

(* ================================================================== *)
(** * Part XI. Further properties of the layout                       *)
(* ================================================================== *)

Module ItemProps.
Import JSString JSNumber JSConv RegExp SVG Utils_js Export_js Vocabulary.
Import StringFacts LayoutFacts TrimFacts ParserProps.

(** The items after the first are the tokens of the lines, placed. *)
Lemma map_tokenOf_items (periodInputValue intervalsText : jsstring)
    (cx cy radius periodCents : number) :
  map tokenOf
      (buildItems periodInputValue intervalsText cx cy radius periodCents)
  = Token.mk (num 0) (normalizePeriodLabel periodInputValue periodCents) Period
    :: tokensOf intervalsText.
Proof.
  rewrite buildItems_eq. unfold tokensOf.
  generalize (splitLines intervalsText). intros lines.
  cbn [map]. unfold tokenOf at 1. cbn [Item.cents Item.raw Item.type].
  f_equal. induction lines as [|l ls IH]; [reflexivity|]. cbn [flat_map].
  rewrite map_app, IH. f_equal.
  destruct (parseCentsOrRatioToCents l) as [[c r t]|]; reflexivity.
Qed.

(** X12. [buildItems] returns the period item and then one item for each
    line that parses, in the order of the lines: each keeps the cents, the
    text and the kind of its token, and a line that does not parse leaves
    no item.  The period item holds the normalized period label: the
    trimmed input when it holds a slash, the input without its unit when
    it is in cents format, and the period rounded to an integer otherwise.
    So there is one item more than there are lines that parse, whatever
    the centre and the radius. *)
Theorem items_are_tokens (periodInputValue intervalsText : jsstring)
    (cx cy radius periodCents : number) :
  exists label,
    NormalizedLabel periodInputValue periodCents label /\
    map tokenOf
        (buildItems periodInputValue intervalsText cx cy radius periodCents)
    = Token.mk (num 0) label Period :: tokensOf intervalsText /\
    List.length
      (buildItems periodInputValue intervalsText cx cy radius periodCents)
    = S (List.length (tokensOf intervalsText)) /\
    (List.length (tokensOf intervalsText)
     <= List.length (splitLines intervalsText))%nat.
Proof.
  pose proof (map_tokenOf_items periodInputValue intervalsText cx cy radius
                periodCents) as H.
  exists (normalizePeriodLabel periodInputValue periodCents).
  split; [apply LabelFacts.normalizePeriodLabel_normalized|].
  split; [exact H|]. split.
  - rewrite <- (length_map tokenOf), H. reflexivity.
  - unfold tokensOf. induction (splitLines intervalsText) as [|l ls IH];
      [reflexivity|].
    cbn [flat_map]. rewrite length_app. cbn [List.length].
    destruct (parseCentsOrRatioToCents l); cbn [List.length]; lia.
Qed.

(** ** Line endings *)

Lemma sameLine_cons (c : N) (l' l : jsstring) :
  sameLine l' l -> sameLine (c :: l') (c :: l).
Proof. intros [->| ->]; [now left | now right]. Qed.

Lemma cons_head_same (c : N) (a b : list jsstring) :
  Forall2 sameLine a b -> Forall2 sameLine (cons_head c a) (cons_head c b).
Proof.
  intros [|x y a' b' H1 H2]; simpl.
  - constructor; [now left | constructor].
  - constructor; [now apply sameLine_cons | exact H2].
Qed.

Lemma crlf_head (t : jsstring) :
  match crlf t with c :: _ => c <> LF | [] => True end.
Proof.
  destruct t as [|x t]; [exact I|]. unfold crlf. cbn [flat_map].
  destruct (N.eqb_spec x LF) as [->|Hx]; [discriminate | exact Hx].
Qed.

Lemma splitLines_crlf (text : jsstring) :
  Forall2 sameLine (splitLines (crlf text)) (splitLines text).
Proof.
  induction text as [|c t IH].
  { constructor; [now left | constructor]. }
  change (crlf (c :: t))
    with ((if (c =? LF)%N then [CR; LF] else [c]) ++ crlf t).
  destruct (N.eqb_spec c LF) as [->|Hc].
  - (* a line feed: both texts start a new line *)
    change (splitLines (LF :: t)) with ([] :: splitLines t).
    change (splitLines ([CR; LF] ++ crlf t)) with ([] :: splitLines (crlf t)).
    constructor; [now left | exact IH].
  - assert (Hc' : (c =? LF)%N = false) by now apply N.eqb_neq.
    cbn [app]. pose proof (crlf_head t) as Hh.
    assert (El : splitLines (c :: crlf t)
                 = match crlf t with
                   | [] => [[c]]
                   | _ => cons_head c (splitLines (crlf t))
                   end).
    { cbn [splitLines]. rewrite Hc'. destruct (crlf t) as [|d u]; [reflexivity|].
      apply N.eqb_neq in Hh. rewrite Hh, andb_false_r. reflexivity. }
    rewrite El. clear El.
    destruct t as [|d t'].
    + cbn [crlf flat_map splitLines]. rewrite Hc'.
      constructor; [now left | constructor].
    + assert (Hne : crlf (d :: t') <> []).
      { unfold crlf. cbn [flat_map]. destruct (d =? LF)%N; discriminate. }
      destruct (crlf (d :: t')) as [|x u] eqn:Ex; [contradiction|].
      rewrite <- Ex in *. clear Ex x u Hne Hh.
      cbn [splitLines]. rewrite Hc'.
      destruct ((c =? CR)%N && (d =? LF)%N) eqn:Hcr.
      * (* a carriage return and a line feed in the text *)
        apply andb_true_iff in Hcr. destruct Hcr as [E1 E2].
        apply N.eqb_eq in E1, E2. subst c d.
        change (crlf (LF :: t')) with ([CR; LF] ++ crlf t').
        change (splitLines ([CR; LF] ++ crlf t'))
          with ([] :: splitLines (crlf t')).
        cbn [cons_head].
        assert (IH' : Forall2 sameLine (splitLines (crlf t')) (splitLines t')).
        { change (crlf (LF :: t')) with ([CR; LF] ++ crlf t') in IH.
          change (splitLines ([CR; LF] ++ crlf t'))
            with ([] :: splitLines (crlf t')) in IH.
          change (splitLines (LF :: t')) with ([] :: splitLines t') in IH.
          now inversion IH. }
        constructor; [now right | exact IH'].
      * now apply cons_head_same.
Qed.

Lemma sameLine_trim (l' l : jsstring) : sameLine l' l -> trim l' = trim l.
Proof.
  intros [->| ->]; [reflexivity|].
  rewrite <- (app_nil_l (l ++ [CR])). now apply trim_pad.
Qed.

(** X13. Line endings do not matter: the text with every line feed
    turned into a carriage return and a line feed gives the same items. *)
Theorem line_endings (periodInputValue intervalsText : jsstring)
    (cx cy radius periodCents : number) :
  buildItems periodInputValue (crlf intervalsText) cx cy radius periodCents
  = buildItems periodInputValue intervalsText cx cy radius periodCents.
Proof.
  rewrite !buildItems_eq. f_equal.
  pose proof (splitLines_crlf intervalsText) as H.
  induction H as [|l' l ls' ls Hl _ IH]; [reflexivity|].
  cbn [flat_map]. rewrite IH.
  now rewrite (@parseCents_trim l' l (sameLine_trim Hl)).
Qed.

(** ** Rays and points *)

(** X14. The ray of an interval ends where its point is: for every item
    after the first, the [x2] and [y2] of the line [drawRays] and
    [createExportSVG] draw for it are the [cx] and [cy] of its point, the
    position [buildItems] gave it. *)
Theorem ray_ends_at_point (periodInputValue intervalsText : jsstring)
    (cx cy radius periodCents : number) (item : Item.t)
    (labelRadius : number) (withLabel : bool) (fontSize : jsstring) :
  In item
     (tl (buildItems periodInputValue intervalsText cx cy radius periodCents))
  ->
  exists pt rest,
    children (pointGroup item cx cy labelRadius withLabel fontSize)
    = pt :: rest /\
    getAttribute pt (str "cx") = Some (toString (Item.x item)) /\
    getAttribute pt (str "cy") = Some (toString (Item.y item)) /\
    getAttribute (rayLine item cx cy radius) (str "x2")
    = getAttribute pt (str "cx") /\
    getAttribute (rayLine item cx cy radius) (str "y2")
    = getAttribute pt (str "cy").
Proof.
  rewrite buildItems_eq. cbn [tl]. intros H.
  apply in_flat_map in H. destruct H as (line & _ & H).
  destruct (parseCentsOrRatioToCents line) as [t|]; [|destruct H].
  destruct H as [<-|[]].
  assert (Hxy : onCircle (Item.deg (placeItem t cx cy radius periodCents))
                  cx cy radius
                = (Item.x (placeItem t cx cy radius periodCents),
                   Item.y (placeItem t cx cy radius periodCents)))
    by reflexivity.
  set (item := placeItem t cx cy radius periodCents) in *. clearbody item.
  unfold rayLine. rewrite Hxy. clear Hxy.
  unfold pointGroup, createSVGElement, getAttribute.
  cbn [fold_left fst snd]. unfold setAttribute. cbn [stringOf appendChild].
  generalize (toString (Item.x item)) (toString (Item.y item)).
  intros sx sy.
  destruct withLabel.
  - destruct (onCircle (Item.deg item) cx cy labelRadius) as [lx ly].
    cbn [fold_left fst snd stringOf setTextContent appendChild app children].
    eexists _, _. split; [reflexivity|].
    generalize (toString cx) (toString cy) (toString DEFAULTS.POINT_RADIUS)
               (toString (num 1)).
    intros s1 s2 s3 s4. vm_compute. repeat split.
  - cbn [children app]. eexists _, _. split; [reflexivity|].
    generalize (toString cx) (toString cy) (toString DEFAULTS.POINT_RADIUS)
               (toString (num 1)).
    intros s1 s2 s3 s4. vm_compute. repeat split.
Qed.

Lemma ray_ends_at_point_witness :
  let item := placeItem (Token.mk (num 700) (str "700") Cents)
                (num 200) (num 200) (num 140) (num 1200) in
  In item (tl (buildItems (str "1200") (str "700")
                 (num 200) (num 200) (num 140) (num 1200))) /\
  exists pt rest,
    children (pointGroup item (num 200) (num 200) (num 175) true (str "14"))
    = pt :: rest /\
    getAttribute pt (str "cx") = Some (toString (Item.x item)) /\
    getAttribute pt (str "cy") = Some (toString (Item.y item)) /\
    getAttribute (rayLine item (num 200) (num 200) (num 140)) (str "x2")
    = getAttribute pt (str "cx") /\
    getAttribute (rayLine item (num 200) (num 200) (num 140)) (str "y2")
    = getAttribute pt (str "cy").
Proof.
  intros item.
  assert (H : In item (tl (buildItems (str "1200") (str "700")
                             (num 200) (num 200) (num 140) (num 1200))))
    by (vm_compute; left; reflexivity).
  split; [exact H|].
  exact (@ray_ends_at_point (str "1200") (str "700") (num 200) (num 200)
           (num 140) (num 1200) item (num 175) true (str "14") H).
Defined.

End ItemProps.

Module AngleProps.
Import JSString JSNumber JSConv RegExp SVG Utils_js Vocabulary.
Import LayoutFacts NumberFacts RoundFacts.
Local Open Scope Q_scope.

Lemma positive_classify (p : number) (vp : Q) :
  value p = Some vp -> ~ vp == 0 -> classify p = CFin vp.
Proof.
  intros H Hp. destruct (@value_classify _ _ H) as [[E _]|[_ E]];
    [contradiction | exact E].
Qed.

(** The quotient and the product of numbers that are not negative. *)
Lemma div_nonneg (c p : number) (vc vp : Q) :
  value c = Some vc -> value p = Some vp -> 0 <= vc -> 0 < vp ->
  atLeast (div c p) 0.
Proof.
  intros Hc Hp Hvc Hvp. unfold div.
  rewrite (@positive_classify p vp Hp) by lra.
  destruct (@value_classify _ _ Hc) as [(_ & s & -> & _)|[_ ->]].
  - right. exists 0. split; [apply value_zero | lra].
  - apply (@round64_lower _ 0); [reflexivity|].
    change (inject_Z 0) with 0. apply Qle_shift_div_l; lra.
Qed.

Lemma mul360_nonneg (x : number) : atLeast x 0 -> atLeast (mul x (num 360)) 0.
Proof.
  intros [->|(r & Hr & Hr0)]; [now left|]. unfold mul.
  change (classify (num 360)) with (CFin (inject_Z 360)).
  destruct (@value_classify _ _ Hr) as [(_ & s & -> & _)|[_ ->]].
  - right. exists 0. split; [apply value_zero | lra].
  - apply (@round64_lower _ 0); [reflexivity|].
    change (inject_Z 0) with 0. change (inject_Z 360) with 360. lra.
Qed.

(** X15. Cents that are not negative, on a period greater than zero, lie
    at an angle from 0 up to, and not including, 360 degrees; when the
    quotient overflows, the angle is NaN. *)
Theorem angle_in_range (c p : number) (vc vp : Q) :
  value c = Some vc -> value p = Some vp -> 0 <= vc -> 0 < vp ->
  angleDeg c p = NaN \/
  exists d, value (angleDeg c p) = Some d /\ 0 <= d /\ d < 360.
Proof.
  intros Hc Hp Hvc Hvp. unfold angleDeg.
  destruct (@mul360_nonneg _ (@div_nonneg c p vc vp Hc Hp Hvc Hvp))
    as [->|(v & Hv & Hv0)].
  - now left.
  - right. destruct (@rem_360 _ _ Hv) as (d & Hd & _ & [_ Hlt] & Hpos & _).
    exists d. split; [exact Hd|]. split; [now apply Hpos | exact Hlt].
Qed.

Lemma angle_in_range_witness :
  value (num 1900) = Some 1900 /\ value (num 1200) = Some 1200 /\
  0 <= 1900 /\ 0 < 1200 /\
  (angleDeg (num 1900) (num 1200) = NaN \/
   exists d, value (angleDeg (num 1900) (num 1200)) = Some d /\
             0 <= d /\ d < 360).
Proof.
  assert (H1 : value (num 1900) = Some 1900) by reflexivity.
  assert (H2 : value (num 1200) = Some 1200) by reflexivity.
  assert (H3 : 0 <= 1900) by discriminate.
  assert (H4 : 0 < 1200) by reflexivity.
  repeat (split; [assumption|]).
  exact (@angle_in_range _ _ _ _ H1 H2 H3 H4).
Defined.

Lemma Qtrunc_Z (k : Z) : Qtrunc (inject_Z k) = k.
Proof.
  unfold Qtrunc. destruct (Qltb (inject_Z k) 0);
    [apply Qceiling_Z | apply Qfloor_Z].
Qed.

(** X16. Cents that are a whole number of periods lie at angle zero: when
    the cents are [k] times the period, for an integer [k] of at most 44
    bits, the quotient and its product with 360 are exact, and the
    remainder is zero. *)
Theorem angle_whole_periods (c p : number) (vc vp : Q) (k : Z) :
  value c = Some vc -> value p = Some vp -> ~ vp == 0 ->
  vc == inject_Z k * vp -> (Z.abs k <= 2 ^ 44)%Z ->
  exists d, value (angleDeg c p) = Some d /\ d == 0.
Proof.
  intros Hc Hp Hvp E Hk.
  assert (Hdiv : exists r, value (div c p) = Some r /\ r == inject_Z k).
  { unfold div. rewrite (@positive_classify p vp Hp Hvp).
    destruct (@value_classify _ _ Hc) as [(E0 & s & -> & _)|[_ ->]].
    - exists 0. split; [apply value_zero|].
      assert (Ek : inject_Z k == 0).
      { rewrite E0 in E. symmetry in E. apply Qmult_integral in E.
        destruct E; [assumption | contradiction]. }
      now rewrite Ek.
    - apply round64_exact; [lia|]. rewrite E. field. exact Hvp. }
  destruct Hdiv as (r & Hr & Er).
  assert (Hmul : exists v, value (mul (div c p) (num 360)) = Some v /\
                           v == inject_Z (k * 360)).
  { unfold mul. change (classify (num 360)) with (CFin (inject_Z 360)).
    destruct (@value_classify _ _ Hr) as [(E0 & s & -> & _)|[_ ->]].
    - exists 0. split; [apply value_zero|].
      rewrite inject_Z_mult, <- Er, E0. reflexivity.
    - apply round64_exact; [lia|]. now rewrite inject_Z_mult, Er. }
  destruct Hmul as (v & Hv & Ev). unfold angleDeg.
  destruct (@rem_360 _ _ Hv) as (d & Hd & Ed & _).
  exists d. split; [exact Hd|]. rewrite Ed.
  assert (Eq : v / 360 == inject_Z k).
  { rewrite Ev, inject_Z_mult. change (inject_Z 360) with 360. field. }
  rewrite (@Qtrunc_comp _ _ Eq), Qtrunc_Z, Ev, inject_Z_mult.
  change (inject_Z 360) with 360. ring.
Qed.

Lemma angle_whole_periods_witness :
  value (num 2100) = Some 2100 /\ value (num 700) = Some 700 /\
  ~ 700 == 0 /\ 2100 == inject_Z 3 * 700 /\ (Z.abs 3 <= 2 ^ 44)%Z /\
  exists d, value (angleDeg (num 2100) (num 700)) = Some d /\ d == 0.
Proof.
  assert (H1 : value (num 2100) = Some 2100) by reflexivity.
  assert (H2 : value (num 700) = Some 700) by reflexivity.
  assert (H3 : ~ 700 == 0) by discriminate.
  assert (H4 : 2100 == inject_Z 3 * 700) by reflexivity.
  assert (H5 : (Z.abs 3 <= 2 ^ 44)%Z) by (vm_compute; discriminate).
  repeat (split; [assumption|]).
  exact (@angle_whole_periods _ _ _ _ 3%Z H1 H2 H3 H4 H5).
Defined.

End AngleProps.

Module DimensionProps.
Import JSString JSNumber JSConv RegExp SVG Utils_js Vocabulary.
Import LayoutFacts NumberFacts RoundFacts.
Local Open Scope Q_scope.

Lemma Qcompare_le (a b : Q) :
  a <= b -> (a ?= b) = Lt \/ (a ?= b) = Eq.
Proof.
  intros H. destruct (Qcompare_spec a b) as [E|E|E]; [now right | now left|].
  exfalso. lra.
Qed.

(** What is at least an integer is so for [<=]. *)
Lemma atLeast_le (x : number) (n : Z) :
  atLeast x (inject_Z n) -> le (num n) x = true.
Proof.
  intros [->|(r & Hr & L)]; [reflexivity|]. unfold le, num.
  destruct x as [| | | |q]; try discriminate; injection Hr as <-;
    cbn [compare]; destruct (@Qcompare_le _ _ L) as [-> | ->]; reflexivity.
Qed.

Lemma atLeast_not_NaN (x : number) (q : Q) : atLeast x q -> isNaN x = false.
Proof. intros [->|(r & Hr & _)]; [reflexivity | now destruct x]. Qed.

Lemma atLeast_weaken (x : number) (q q' : Q) :
  q' <= q -> atLeast x q -> atLeast x q'.
Proof.
  intros H [->|(r & Hr & L)]; [now left|]. right. exists r.
  split; [exact Hr | lra].
Qed.

Lemma compare_not_NaN (x y : number) :
  isNaN x = false -> isNaN y = false -> exists c, compare x y = Some c.
Proof. destruct x, y; try discriminate; intros _ _; eexists; reflexivity. Qed.

(** [Math.max(x, n)] is at least [n], unless [x] is NaN. *)
Lemma max_atLeast (x : number) (n : Z) :
  isNaN x = false -> atLeast (JSMath.max x (num n)) (inject_Z n).
Proof.
  intros Hx. unfold JSMath.max, num.
  assert (Hn : atLeast (Fin (inject_Z n)) (inject_Z n)).
  { right. exists (inject_Z n). split; [reflexivity | lra]. }
  destruct x as [| | | |q]; try discriminate; cbn [compare];
    try exact Hn; try (now left).
  - destruct (Qcompare_spec 0 (inject_Z n)) as [E|E|E]; try exact Hn.
    right. exists 0. split; [reflexivity | lra].
  - destruct (Qcompare_spec q (inject_Z n)) as [E|E|E]; try exact Hn.
    + destruct (signBit (Fin q)); [exact Hn|].
      right. exists q. split; [reflexivity | lra].
    + right. exists q. split; [reflexivity | lra].
Qed.

(** [Math.min] of two numbers that are at least [q] is at least [q]. *)
Lemma min_atLeast (x y : number) (q : Q) :
  atLeast x q -> atLeast y q -> atLeast (JSMath.min x y) q.
Proof.
  intros Hx Hy. unfold JSMath.min.
  destruct (@compare_not_NaN x y (@atLeast_not_NaN x q Hx)
              (@atLeast_not_NaN y q Hy)) as [c ->].
  destruct c; [destruct (signBit x)| |]; assumption.
Qed.

Lemma atLeast_Fin (x : number) (q : Q) :
  0 < q -> atLeast x q -> x = PInf \/ exists r, x = Fin r /\ q <= r /\ ~ r == 0.
Proof.
  intros Hq [->|(r & Hr & L)]; [now left|]. right.
  destruct x as [| | | |p]; try discriminate; injection Hr as <-.
  - exfalso. lra.
  - exists p. split; [reflexivity|]. split; [exact L | lra].
Qed.

Lemma classify_Fin (r : Q) : ~ r == 0 -> classify (Fin r) = CFin r.
Proof.
  intros H. unfold classify. destruct (Qeq_bool r 0) eqn:E; [|reflexivity].
  apply Qeq_bool_eq in E. contradiction.
Qed.

Lemma half_atLeast (x : number) :
  atLeast x 400 -> atLeast (div x (num 2)) 200.
Proof.
  intros H. destruct (@atLeast_Fin x 400 ltac:(reflexivity) H)
    as [->|(r & -> & L & Hr)]; [now left|].
  unfold div. rewrite (@classify_Fin r Hr).
  change (classify (num 2)) with (CFin (inject_Z 2)).
  apply (@round64_lower _ 200); [reflexivity|].
  change (inject_Z 200) with 200. change (inject_Z 2) with 2.
  apply Qle_shift_div_l; lra.
Qed.

Lemma padded_atLeast (x : number) :
  atLeast x 200 -> atLeast (sub x DEFAULTS.PADDING) 140.
Proof.
  intros H. destruct (@atLeast_Fin x 200 ltac:(reflexivity) H)
    as [->|(r & -> & L & Hr)]; [now left|].
  unfold sub, add. rewrite (@classify_Fin r Hr).
  change (classify (neg DEFAULTS.PADDING)) with (CFin (- inject_Z 60)).
  apply (@round64_lower _ 140); [reflexivity|].
  change (inject_Z 140) with 140. change (inject_Z 60) with 60. lra.
Qed.

Lemma max_minRadius (b : number) :
  atLeast b 140 -> JSMath.max DEFAULTS.MIN_RADIUS b = b.
Proof.
  intros H. destruct (@atLeast_Fin b 140 ltac:(reflexivity) H)
    as [->|(r & -> & L & Hr)]; [reflexivity|].
  unfold JSMath.max, DEFAULTS.MIN_RADIUS, num. cbn [compare].
  destruct (Qcompare_spec (inject_Z 20) r) as [E|E|E]; [| reflexivity |];
    exfalso; change (inject_Z 20) with 20 in E; lra.
Qed.

(** X17. The drawing area is at least 400 by 400: when the width and the
    height of the container are numbers, [W] and [H] are at least 400,
    and the centre is at their halves. *)
Theorem dimensions_clamped (containerRect : Rect.t)
    (circleSizeMultiplier : number) :
  isNaN (Rect.width containerRect) = false ->
  isNaN (Rect.height containerRect) = false ->
  let dims := calculateDimensions containerRect circleSizeMultiplier in
  le (num 400) (Dims.W dims) = true /\ le (num 400) (Dims.H dims) = true /\
  Dims.cx dims = div (Dims.W dims) (num 2) /\
  Dims.cy dims = div (Dims.H dims) (num 2).
Proof.
  intros Hw Hh dims. unfold dims, calculateDimensions.
  cbn [Dims.W Dims.H Dims.cx Dims.cy].
  split; [apply atLeast_le, max_atLeast, Hw|].
  split; [apply atLeast_le, max_atLeast, Hh|]. now split.
Qed.

Lemma dimensions_clamped_witness :
  isNaN (Rect.width (Rect.mk (num 320) (num 900))) = false /\
  isNaN (Rect.height (Rect.mk (num 320) (num 900))) = false /\
  let dims := calculateDimensions (Rect.mk (num 320) (num 900)) (num 1) in
  le (num 400) (Dims.W dims) = true /\ le (num 400) (Dims.H dims) = true /\
  Dims.cx dims = div (Dims.W dims) (num 2) /\
  Dims.cy dims = div (Dims.H dims) (num 2).
Proof.
  split; [reflexivity|]. split; [reflexivity|].
  apply (@dimensions_clamped (Rect.mk (num 320) (num 900)) (num 1));
    reflexivity.
Defined.

(** X18. The least radius never applies: the drawing area being at least
    400 by 400, half its smaller side less the padding is at least 140,
    so the radius is always that number times the size multiplier. *)
Theorem min_radius_unreachable (containerRect : Rect.t)
    (circleSizeMultiplier : number) :
  isNaN (Rect.width containerRect) = false ->
  isNaN (Rect.height containerRect) = false ->
  let dims := calculateDimensions containerRect circleSizeMultiplier in
  let maxRadius :=
    sub (div (JSMath.min (Dims.W dims) (Dims.H dims)) (num 2))
        DEFAULTS.PADDING in
  le (num 140) maxRadius = true /\
  Dims.radius dims = mul maxRadius circleSizeMultiplier.
Proof.
  intros Hw Hh dims maxRadius.
  assert (H : atLeast maxRadius 140).
  { apply padded_atLeast, half_atLeast, min_atLeast;
      apply (@max_atLeast _ 400); assumption. }
  split; [now apply (@atLeast_le _ 140)|].
  unfold dims, calculateDimensions. cbn [Dims.radius].
  f_equal. now apply max_minRadius.
Qed.

Lemma min_radius_unreachable_witness :
  isNaN (Rect.width (Rect.mk (num 0) (num 0))) = false /\
  isNaN (Rect.height (Rect.mk (num 0) (num 0))) = false /\
  let dims := calculateDimensions (Rect.mk (num 0) (num 0)) (num 1) in
  let maxRadius :=
    sub (div (JSMath.min (Dims.W dims) (Dims.H dims)) (num 2))
        DEFAULTS.PADDING in
  le (num 140) maxRadius = true /\
  Dims.radius dims = mul maxRadius (num 1).
Proof.
  split; [reflexivity|]. split; [reflexivity|].
  apply (@min_radius_unreachable (Rect.mk (num 0) (num 0)) (num 1));
    reflexivity.
Defined.

End DimensionProps.

(* ================================================================== *)
(** * Part XII. Properties of the rendering                           *)
(* ================================================================== *)

Module SvgFacts.
Import JSString JSNumber JSConv SVG Utils_js Vocabulary.

Lemma eqb_eq (a b : jsstring) : JSString.eqb a b = true <-> a = b.
Proof.
  unfold JSString.eqb. destruct (list_eq_dec N.eq_dec a b); split;
    intros; try reflexivity; try assumption; try discriminate; contradiction.
Qed.

Lemma eqb_refl (a : jsstring) : JSString.eqb a a = true.
Proof. now apply eqb_eq. Qed.

Lemma eqb_neq (a b : jsstring) : a <> b -> JSString.eqb a b = false.
Proof.
  intros H. destruct (JSString.eqb a b) eqn:E; [|reflexivity].
  apply eqb_eq in E. contradiction.
Qed.

(** ** Attribute lists *)

Lemma getAttr_setAttr_same (k v : jsstring) (a : list (jsstring * jsstring)) :
  getAttr k (setAttr k v a) = Some v.
Proof.
  induction a as [|[k' v'] a IH]; cbn [setAttr getAttr].
  - now rewrite eqb_refl.
  - destruct (JSString.eqb k k') eqn:E; cbn [getAttr]; rewrite ?E.
    + now rewrite eqb_refl.
    + exact IH.
Qed.

Lemma getAttr_setAttr_other (k k' v : jsstring)
    (a : list (jsstring * jsstring)) :
  k <> k' -> getAttr k (setAttr k' v a) = getAttr k a.
Proof.
  intros H. induction a as [|[k0 v0] a IH]; cbn [setAttr getAttr].
  - now rewrite (eqb_neq H).
  - destruct (JSString.eqb k' k0) eqn:E; cbn [getAttr].
    + apply eqb_eq in E. subst k0. now rewrite (eqb_neq H).
    + now rewrite IH.
Qed.

(** Setting an attribute to the value it has changes nothing. *)
Lemma setAttr_same (k v : jsstring) (a : list (jsstring * jsstring)) :
  getAttr k a = Some v -> setAttr k v a = a.
Proof.
  induction a as [|[k' v'] a IH]; cbn [setAttr getAttr]; [discriminate|].
  destruct (JSString.eqb k k') eqn:E.
  - intros H. injection H as ->. apply eqb_eq in E. now subst.
  - intros H. now rewrite IH.
Qed.



(** ** Elements *)

Lemma tagName_setAttribute (e : Element) (k : jsstring) (v : jsval) :
  tagName (setAttribute e k v) = tagName e.
Proof. now destruct e. Qed.

Lemma attributes_appendChild (e c : Element) :
  attributes (appendChild e c) = attributes e.
Proof. now destruct e. Qed.

Lemma attributes_setAttribute (e : Element) (k : jsstring) (v : jsval) :
  attributes (setAttribute e k v) = setAttr k (stringOf v) (attributes e).
Proof. now destruct e. Qed.

Lemma children_setAttribute' (e : Element) (k : jsstring) (v : jsval) :
  children (setAttribute e k v) = children e.
Proof. now destruct e. Qed.

Lemma children_appendChild' (e c : Element) :
  children (appendChild e c) = children e ++ [c].
Proof. now destruct e. Qed.

(** Appending one element for each item of a list. *)
Lemma fold_append (A : Type) (f : A -> Element) (items : list A)
    (svg : Element) :
  fold_left (fun svg item => appendChild svg (f item)) items svg
  = Elem (tagName svg) (attributes svg) (children svg ++ map f items)
         (textContent svg).
Proof.
  revert svg. induction items as [|i items IH]; intros [t a c x].
  - cbn. now rewrite app_nil_r.
  - cbn [fold_left map]. rewrite IH. cbn. now rewrite <- app_assoc.
Qed.

(** What [createSVGElement] builds has its tag, and neither children nor
    text. *)
Lemma createSVGElement_fold (tag : jsstring) (attrs : list (jsstring * jsval))
    (a : list (jsstring * jsstring)) :
  fold_left (fun elem kv => setAttribute elem (fst kv) (snd kv)) attrs
            (Elem tag a [] [])
  = leaf tag (fold_left (fun a kv => setAttr (fst kv) (stringOf (snd kv)) a)
                        attrs a).
Proof.
  revert a. induction attrs as [|[k v] attrs IH]; intros a; [reflexivity|].
  cbn [fold_left fst snd setAttribute]. apply IH.
Qed.

Lemma createSVGElement_leaf (tag : jsstring) (attrs : list (jsstring * jsval)) :
  exists a, createSVGElement tag attrs = leaf tag a.
Proof. eexists. apply createSVGElement_fold. Qed.

Lemma layer_created (tag : jsstring) (attrs : list (jsstring * jsval)) :
  layer (createSVGElement tag attrs) = (tag, []).
Proof.
  destruct (createSVGElement_leaf tag attrs) as [a ->]. reflexivity.
Qed.

End SvgFacts.

Module ElementProps.
Import JSString JSNumber JSConv SVG Utils_js Vocabulary SvgFacts.



End ElementProps.

Module FileProps.
Import JSString JSNumber JSConv SVG Utils_js Export_js Vocabulary.
Import StringFacts TrimFacts.

(** X20. Without a name the download is called [pitch-class-circle]: when
    the page has no file name field, or the field is empty or holds
    white space only, [getFilename] returns that name, a point and the
    extension. *)
Theorem getFilename_default (exportFilename : option jsstring)
    (extension : jsstring) :
  exportFilename = None \/
  (exists value, exportFilename = Some value /\ allWhite value) ->
  getFilename exportFilename extension
  = str "pitch-class-circle" ++ str "." ++ extension.
Proof.
  intros [->|(value & -> & H)]; [reflexivity|].
  unfold getFilename. now rewrite (@trim_white value H).
Qed.

Lemma getFilename_default_witness :
  (Some (str "  ") = None \/
   (exists value, Some (str "  ") = Some value /\ allWhite value)) /\
  getFilename (Some (str "  ")) (str "png")
  = str "pitch-class-circle" ++ str "." ++ str "png".
Proof.
  assert (H : Some (str "  ") = None \/
              (exists value, Some (str "  ") = Some value /\ allWhite value)).
  { right. exists (str "  "). split; reflexivity. }
  split; [exact H | exact (@getFilename_default _ (str "png") H)].
Defined.

(** X21. The name of the download is never empty: [getFilename] returns a
    name, a point and the extension, where the name is the trimmed value
    of the file name field when that is not empty, and is in every case a
    trimmed string that is not empty. *)
Theorem getFilename_shape (exportFilename : option jsstring)
    (extension : jsstring) :
  exists name,
    getFilename exportFilename extension = name ++ POINT :: extension /\
    name <> [] /\ trim name = name /\
    (forall value, exportFilename = Some value -> trim value <> [] ->
                   name = trim value).
Proof.
  unfold getFilename. destruct exportFilename as [value|].
  - destruct (trim value) as [|c r] eqn:E.
    + exists (str "pitch-class-circle"). split; [reflexivity|].
      split; [discriminate|]. split; [reflexivity|].
      intros v Hv. injection Hv as <-. rewrite E. contradiction.
    + exists (c :: r). split; [reflexivity|]. split; [discriminate|].
      split; [rewrite <- E; apply trim_idem|].
      intros v Hv _. injection Hv as <-. now rewrite E.
  - exists (str "pitch-class-circle"). split; [reflexivity|].
    split; [discriminate|]. split; [reflexivity | discriminate].
Qed.

End FileProps.

Module RenderFacts.
Import JSString JSNumber JSConv SVG Utils_js Export_js Script_js Vocabulary.
Import LayoutFacts SvgFacts ItemProps.
Local Open Scope Q_scope.

(** ** Whole numbers *)

Lemma classify_cases (x : number) :
  (exists q, x = Fin q /\ ~ q == 0 /\ classify x = CFin q) \/
  ((x = NaN \/ x = PInf \/ x = NInf \/ x = NZero \/
    exists q, x = Fin q /\ q == 0) /\
   forall q, classify x <> CFin q).
Proof.
  destruct x as [| | | |q]; try (right; split; [tauto | discriminate]).
  unfold classify. destruct (Qeq_bool q 0) eqn:E.
  - apply Qeq_bool_eq in E. right. split; [|discriminate].
    do 4 right. now exists q.
  - apply Qeq_bool_neq in E. left. now exists q.
Qed.

Lemma integral_special (x : number) :
  x = NaN \/ x = PInf \/ x = NInf \/ x = NZero \/
  (exists q, x = Fin q /\ q == 0) -> integral x.
Proof.
  intros [->|[->|[->|[->|(q & -> & E)]]]]; try constructor. exact E.
Qed.

Lemma ceil_integral (x : number) : integral (JSMath.ceil x).
Proof.
  unfold JSMath.ceil.
  destruct (classify_cases x) as [(q & -> & _ & ->)|[H Hc]].
  - cbv zeta. destruct (Qceiling q =? 0)%Z; [|apply I_int].
    destruct (Qltb q 0); cbn [zero]; [apply I_NZero | now apply I_zero].
  - destruct (classify x) as [| | |q] eqn:E; try now apply integral_special.
    now destruct (Hc q).
Qed.

Lemma floor_integral (x : number) : integral (JSMath.floor x).
Proof.
  unfold JSMath.floor.
  destruct (classify_cases x) as [(q & -> & _ & ->)|[H Hc]].
  - apply I_int.
  - destruct (classify x) as [| | |q] eqn:E; try now apply integral_special.
    now destruct (Hc q).
Qed.

(** The greater of a positive integer and a whole number. *)
Lemma max_integral (b : Z) (y : number) :
  (0 < b)%Z -> integral y -> frameSide b (JSMath.max (num b) y).
Proof.
  intros Hb Hy. unfold frameSide.
  assert (Hb' : 0 < inject_Z b).
  { change 0 with (inject_Z 0). now rewrite <- Zlt_Qlt. }
  assert (Hs : signBit (Fin (inject_Z b)) = false).
  { unfold signBit. apply Qltb_ge. lra. }
  unfold JSMath.max, num. rewrite Hs.
  assert (Hx : forall X, X = Fin (inject_Z b) ->
               X = NaN \/ X = PInf \/
               exists n, (b <= n)%Z /\ X = Fin (inject_Z n)).
  { intros X ->. right; right. exists b. split; [lia | reflexivity]. }
  destruct Hy as [| | | |q E|c]; cbn [compare].
  - now left.
  - right; now left.
  - now apply Hx.
  - apply Hx.
    destruct (Qcompare_spec (inject_Z b) 0) as [E|E|E];
      try reflexivity; exfalso; lra.
  - apply Hx.
    destruct (Qcompare_spec (inject_Z b) q) as [E'|E'|E'];
      try reflexivity; exfalso; lra.
  - destruct (Qcompare_spec (inject_Z b) (inject_Z c)) as [E|E|E].
    + now apply Hx.
    + right; right. exists c. split; [|reflexivity].
      rewrite <- Zlt_Qlt in E. lia.
    + now apply Hx.
Qed.

(** Clamping twice is clamping once. *)
Lemma max_max (b : Z) (y : number) :
  (0 < b)%Z -> integral y ->
  JSMath.max (JSMath.max (num b) y) (num b) = JSMath.max (num b) y.
Proof.
  intros Hb Hy.
  assert (Hb' : 0 < inject_Z b).
  { change 0 with (inject_Z 0). now rewrite <- Zlt_Qlt. }
  destruct (max_integral Hb Hy) as [->|[->|(n & Hn & ->)]]; try reflexivity.
  unfold JSMath.max, num. cbn [compare].
  assert (Hn' : inject_Z b <= inject_Z n) by now rewrite <- Zle_Qle.
  destruct (Qcompare_spec (inject_Z n) (inject_Z b)) as [E|E|E];
    [| exfalso; lra | reflexivity].
  unfold signBit. replace (Qltb (inject_Z n) 0) with false; [reflexivity|].
  symmetry. apply Qltb_ge. lra.
Qed.

(** ** What the two renderers append *)

Lemma layer_rayLine (item : Item.t) (cx cy r : number) :
  layer (rayLine item cx cy r) = (str "line", []).
Proof.
  unfold rayLine. destruct (onCircle _ _ _ _). apply layer_created.
Qed.

Lemma layer_pointGroup (item : Item.t) (cx cy lr : number) (withLabel : bool)
    (fontSize : jsstring) :
  layer (pointGroup item cx cy lr withLabel fontSize)
  = (str "g",
     (str "circle", [])
     :: if withLabel then [(str "text", Item.raw item)] else []).
Proof.
  unfold pointGroup.
  change (createSVGElement (str "g") []) with (Elem (str "g") [] [] []).
  destruct (createSVGElement_leaf (str "circle")
              [(str "cx", VNum (Item.x item)); (str "cy", VNum (Item.y item));
               (str "r", VNum DEFAULTS.POINT_RADIUS);
               (str "fill", VStr (str "black"));
               (str "stroke", VStr (str "none"))]) as [a ->].
  destruct withLabel; [|reflexivity].
  destruct (onCircle _ _ _ _) as [lx ly].
  destruct (createSVGElement_leaf (str "text")
              [(str "x", VNum lx); (str "y", VNum ly);
               (str "fill", VStr (str "black"));
               (str "font-size", VStr fontSize);
               (str "dominant-baseline", VStr (str "middle"));
               (str "text-anchor", VStr (str "middle"))]) as [b ->].
  reflexivity.
Qed.

Lemma raw_items (pin text : jsstring) (cx cy r p : number) :
  map Item.raw (buildItems pin text cx cy r p)
  = normalizePeriodLabel pin p :: map Token.raw (tokensOf text).
Proof.
  pose proof (map_tokenOf_items pin text cx cy r p) as H.
  apply (f_equal (map Token.raw)) in H. rewrite map_map in H.
  exact H.
Qed.

(** The layers of what is appended for a list of items. *)
Lemma layers_drawn (showCircle showRays withLabel : bool)
    (circle : Element) (items : list Item.t) (cx cy r lr : number)
    (fontSize : jsstring) :
  layer circle = (str "circle", []) ->
  map layer
    ((if showCircle then [circle] else [])
     ++ (if showRays then map (fun item => rayLine item cx cy r) items else [])
     ++ map (fun item => pointGroup item cx cy lr withLabel fontSize) items)
  = (if showCircle then [(str "circle", [])] else [])
    ++ (if showRays
        then map (fun _ => (str "line", [])) (map Item.raw items) else [])
    ++ map (fun raw =>
              (str "g",
               (str "circle", [])
               :: if withLabel then [(str "text", raw)] else []))
           (map Item.raw items).
Proof.
  intros Hc. rewrite !map_app. f_equal; [|f_equal].
  - destruct showCircle; [cbn [map]; now rewrite Hc | reflexivity].
  - destruct showRays; [|reflexivity]. rewrite !map_map.
    apply map_ext. intros item. apply layer_rayLine.
  - rewrite !map_map. apply map_ext. intros item. apply layer_pointGroup.
Qed.

(** ** The export *)

Lemma export_children (dom : Dom.t) :
  let dims := calculateExportDimensions dom in
  let size := ExportDims.size dims in
  let periodCents := parsePeriodToCents (Dom.periodInput dom) in
  let items :=
    buildItems (Dom.periodInput dom) (Dom.intervalsTA dom)
      (ExportDims.cx dims) (ExportDims.cy dims) (ExportDims.radius dims)
      periodCents in
  children (createExportSVG dom)
  = backgroundRect size size []
    :: if negb (isFinite periodCents) || strictEq periodCents (num 0) then []
       else
         (if Dom.showCircle dom
          then [guideCircle (ExportDims.cx dims) (ExportDims.cy dims)
                  (ExportDims.radius dims)] else [])
         ++ (if Dom.showRays dom
             then map (fun item =>
                         rayLine item (ExportDims.cx dims) (ExportDims.cy dims)
                           (ExportDims.radius dims)) items
             else [])
         ++ map (fun item =>
                   pointGroup item (ExportDims.cx dims) (ExportDims.cy dims)
                     (add (ExportDims.radius dims) (labelDistanceOf dom))
                     (Dom.showLabels dom) (Dom.labelSize dom)) items.
Proof.
  intros dims size periodCents items. unfold createExportSVG.
  fold dims. fold size. fold periodCents. fold items.
  destruct (negb (isFinite periodCents) || strictEq periodCents (num 0)).
  - rewrite children_appendChild'.
    destruct (createSVGElement_leaf (str "svg")
                [(str "width", VNum size); (str "height", VNum size);
                 (str "viewBox", VStr (viewBoxOf size size))]) as [a ->].
    reflexivity.
  - destruct (createSVGElement_leaf (str "svg")
                [(str "width", VNum size); (str "height", VNum size);
                 (str "viewBox", VStr (viewBoxOf size size));
                 (str "xmlns", VStr SVG_NS)]) as [a ->].
    rewrite fold_append.
    destruct (Dom.showCircle dom), (Dom.showRays dom);
      rewrite ?fold_append; cbn [children leaf appendChild app map];
      rewrite ?app_nil_r, <- ?app_assoc; reflexivity.
Qed.

Lemma export_layers_eq (dom : Dom.t) :
  map layer (children (createExportSVG dom)) = layersOf dom.
Proof.
  rewrite export_children. cbv zeta. unfold layersOf. cbn [map].
  unfold backgroundRect at 1. rewrite layer_created. f_equal.
  destruct (negb _ || _); [reflexivity|].
  rewrite layers_drawn by (unfold guideCircle; apply layer_created).
  now rewrite raw_items.
Qed.

(** ** The live drawing *)

Lemma draw_children (dom : Dom.t) :
  exists S,
    let dims := calculateDimensions (Rect.mk S S)
                  (parseFloat (Dom.circleSize dom)) in
    let periodCents := parsePeriodToCents (Dom.periodInput dom) in
    let items :=
      buildItems (Dom.periodInput dom) (Dom.intervalsTA dom)
        (Dims.cx dims) (Dims.cy dims) (Dims.radius dims) periodCents in
    children (Dom.svg (draw dom))
    = backgroundRect (Dims.W dims) (Dims.H dims)
        [(str "stroke", VStr (str "none"))]
      :: if negb (isFinite periodCents) || strictEq periodCents (num 0) then []
         else
           (if Dom.showCircle dom
            then [guideCircle (Dims.cx dims) (Dims.cy dims) (Dims.radius dims)]
            else [])
           ++ (if Dom.showRays dom
               then map (fun item =>
                           rayLine item (Dims.cx dims) (Dims.cy dims)
                             (Dims.radius dims)) items
               else [])
           ++ map (fun item =>
                     pointGroup item (Dims.cx dims) (Dims.cy dims)
                       (add (Dims.radius dims) (labelDistanceOf dom))
                       (Dom.showLabels dom) (Dom.labelSize dom)) items.
Proof.
  unfold draw. cbv zeta.
  cbn [Dom.periodInput Dom.intervalsTA Dom.showCircle Dom.showRays
       Dom.showLabels Dom.circleSize Dom.labelSize Dom.labelDistance
       Dom.panelRect Dom.headerHeight Dom.paddingTop Dom.paddingBottom
       withSvg withContainerSize withPeriodInfo Dom.svg].
  eexists. cbv zeta.
  destruct (negb _ || _).
  - cbn [Dom.svg withSvg withContainerSize withPeriodInfo].
    unfold drawBackground, clearSVG.
    rewrite children_appendChild', !children_setAttribute'.
    destruct (Dom.svg dom). reflexivity.
  - cbn [Dom.svg withSvg withContainerSize withPeriodInfo Dom.showCircle
         Dom.showRays Dom.periodInput Dom.intervalsTA].
    unfold drawPointsAndLabels, drawRays, drawCircle, drawBackground, clearSVG.
    unfold labelDistanceOf.
    cbn [Dom.labelDistance Dom.labelSize Dom.showLabels].
    rewrite fold_append.
    destruct (Dom.showCircle dom), (Dom.showRays dom);
      rewrite ?fold_append, ?children_appendChild', ?children_setAttribute';
      destruct (Dom.svg dom); cbn [children removeChildren app];
      rewrite <- ?app_assoc; reflexivity.
Qed.

Lemma draw_layers_eq (dom : Dom.t) :
  map layer (children (Dom.svg (draw dom))) = layersOf dom.
Proof.
  destruct (draw_children dom) as [S H]. cbv zeta in H. rewrite H.
  unfold layersOf. cbn [map].
  unfold backgroundRect at 1. rewrite layer_created. f_equal.
  destruct (negb _ || _); [reflexivity|].
  rewrite layers_drawn by (unfold guideCircle; apply layer_created).
  now rewrite raw_items.
Qed.

End RenderFacts.

Module FrameFacts.
Import JSString JSNumber JSConv SVG Utils_js Export_js Script_js Vocabulary.
Import LayoutFacts SvgFacts ItemProps RenderFacts.

Ltac dom_cbn :=
  cbn [Dom.periodInput Dom.intervalsTA Dom.showCircle Dom.showRays
       Dom.showLabels Dom.circleSize Dom.labelSize Dom.labelDistance
       Dom.containerRect Dom.panelRect Dom.headerHeight Dom.paddingTop
       Dom.paddingBottom Dom.periodInfo Dom.containerWidth
       Dom.containerHeight Dom.svg
       withSvg withContainerSize withPeriodInfo].

Lemma key_width_height : str "width" <> str "height".
Proof. intros H. vm_compute in H. discriminate H. Qed.

Lemma key_width_viewBox : str "width" <> str "viewBox".
Proof. intros H. vm_compute in H. discriminate H. Qed.

Lemma key_height_viewBox : str "height" <> str "viewBox".
Proof. intros H. vm_compute in H. discriminate H. Qed.

(** Reading the frame back. *)
Lemma getAttr_setFrame (w h vb : jsstring) (a : list (jsstring * jsstring)) :
  getAttr (str "width") (setFrame w h vb a) = Some w /\
  getAttr (str "height") (setFrame w h vb a) = Some h /\
  getAttr (str "viewBox") (setFrame w h vb a) = Some vb.
Proof.
  unfold setFrame. split; [|split].
  - rewrite !getAttr_setAttr_other
      by (apply key_width_viewBox || apply key_width_height).
    apply getAttr_setAttr_same.
  - rewrite getAttr_setAttr_other by apply key_height_viewBox.
    apply getAttr_setAttr_same.
  - apply getAttr_setAttr_same.
Qed.

(** Setting an attribute again overrides it, and two attributes of which
    the first is there already are set in either order. *)
Lemma setAttr_twice (k v w : jsstring) (a : list (jsstring * jsstring)) :
  setAttr k v (setAttr k w a) = setAttr k v a.
Proof.
  induction a as [|[k0 v0] a IH]; cbn [setAttr].
  - now rewrite eqb_refl.
  - destruct (JSString.eqb k k0) eqn:E; cbn [setAttr].
    + now rewrite eqb_refl.
    + now rewrite E, IH.
Qed.

Lemma setAttr_swap (k k' v w : jsstring) (a : list (jsstring * jsstring)) :
  k <> k' -> getAttr k a <> None ->
  setAttr k v (setAttr k' w a) = setAttr k' w (setAttr k v a).
Proof.
  intros Hk. induction a as [|[k0 v0] a IH]; cbn [getAttr setAttr];
    [contradiction|].
  destruct (JSString.eqb k k0) eqn:E, (JSString.eqb k' k0) eqn:E';
    cbn [setAttr]; intros Hp.
  - apply eqb_eq in E, E'. congruence.
  - rewrite E. apply eqb_eq in E. subst k0.
    now rewrite E'.
  - rewrite E'. apply eqb_eq in E'. subst k0.
    now rewrite E.
  - now rewrite E, E', IH.
Qed.

Lemma getAttr_present (k k' w : jsstring) (a : list (jsstring * jsstring)) :
  getAttr k a <> None -> getAttr k (setAttr k' w a) <> None.
Proof.
  intros H. destruct (list_eq_dec N.eq_dec k k') as [<-|Hk].
  - rewrite getAttr_setAttr_same. discriminate.
  - now rewrite getAttr_setAttr_other.
Qed.

(** Setting the frame over a frame leaves the later one. *)
Lemma setFrame_twice (w h vb w' h' vb' : jsstring)
    (a : list (jsstring * jsstring)) :
  setFrame w h vb (setFrame w' h' vb' a) = setFrame w h vb a.
Proof.
  unfold setFrame.
  set (W := str "width"). set (H := str "height"). set (V := str "viewBox").
  assert (PW : forall x b, getAttr W (setAttr W x b) <> None)
    by (intros; rewrite getAttr_setAttr_same; discriminate).
  assert (PH : forall x b, getAttr H (setAttr H x b) <> None)
    by (intros; rewrite getAttr_setAttr_same; discriminate).
  (* width, through viewBox and height *)
  rewrite (@setAttr_swap W V w vb' _ key_width_viewBox)
    by (apply getAttr_present, PW).
  rewrite (@setAttr_swap W H w h' _ key_width_height) by apply PW.
  rewrite setAttr_twice.
  (* height, through viewBox *)
  rewrite (@setAttr_swap H V h vb' _ key_height_viewBox) by apply PH.
  now rewrite !setAttr_twice.
Qed.

(** ** The export *)

Lemma export_attributes (dom : Dom.t) :
  exists more,
    attributes (createExportSVG dom)
    = (str "width", toString (ExportDims.size (calculateExportDimensions dom)))
      :: (str "height",
          toString (ExportDims.size (calculateExportDimensions dom)))
      :: (str "viewBox",
          viewBoxOf (ExportDims.size (calculateExportDimensions dom))
                    (ExportDims.size (calculateExportDimensions dom)))
      :: more.
Proof.
  unfold createExportSVG. cbv zeta.
  generalize (calculateExportDimensions dom). intros dims.
  destruct (negb _ || _).
  - rewrite attributes_appendChild.
    unfold createSVGElement. cbn [fold_left fst snd].
    unfold setAttribute. cbn [stringOf].
    generalize (viewBoxOf (ExportDims.size dims) (ExportDims.size dims))
               (toString (ExportDims.size dims)).
    intros vb s. exists []. vm_compute. reflexivity.
  - rewrite fold_append. cbn [attributes].
    destruct (Dom.showRays dom); rewrite ?fold_append; cbn [attributes];
      destruct (Dom.showCircle dom); rewrite ?attributes_appendChild;
      unfold createSVGElement; cbn [fold_left fst snd];
      unfold setAttribute; cbn [stringOf];
      generalize (viewBoxOf (ExportDims.size dims) (ExportDims.size dims))
                 (toString (ExportDims.size dims));
      intros vb s; eexists; vm_compute; reflexivity.
Qed.

Lemma export_centre (dom : Dom.t) :
  ExportDims.cx (calculateExportDimensions dom)
  = div (ExportDims.size (calculateExportDimensions dom)) (num 2) /\
  ExportDims.cy (calculateExportDimensions dom)
  = div (ExportDims.size (calculateExportDimensions dom)) (num 2).
Proof.
  unfold calculateExportDimensions.
  cbn [ExportDims.cx ExportDims.cy ExportDims.size]. split; reflexivity.
Qed.

Lemma export_size_side (dom : Dom.t) :
  frameSide 300 (ExportDims.size (calculateExportDimensions dom)).
Proof.
  unfold calculateExportDimensions. cbn [ExportDims.size].
  apply (@max_integral 300); [reflexivity | apply ceil_integral].
Qed.

(** ** The live drawing *)

Lemma draw_frame (dom : Dom.t) :
  exists S,
    frameSide 400 S /\
    attributes (Dom.svg (draw dom))
    = setFrame (toString S) (toString S) (viewBoxOf S S)
               (attributes (Dom.svg dom)) /\
    Dom.containerWidth (draw dom) = toString S ++ str "px" /\
    Dom.containerHeight (draw dom) = toString S ++ str "px".
Proof.
  unfold draw. cbv zeta. dom_cbn.
  match goal with
  | |- context [JSMath.max DEFAULTS.MIN_DIMENSION (JSMath.floor ?y)] =>
      pose proof (@max_max 400 (JSMath.floor y) eq_refl (floor_integral y))
        as Hmax;
      pose proof (@max_integral 400 (JSMath.floor y) eq_refl
                    (floor_integral y)) as Hside;
      change (num 400) with DEFAULTS.MIN_DIMENSION in Hmax, Hside;
      set (S := JSMath.max DEFAULTS.MIN_DIMENSION (JSMath.floor y)) in *
  end.
  clearbody S. exists S. split; [exact Hside|].
  unfold calculateDimensions.
  cbn [Dims.W Dims.H Dims.cx Dims.cy Dims.radius Rect.width Rect.height].
  rewrite !Hmax.
  destruct (negb _ || _); dom_cbn.
  - split; [|now split].
    unfold drawBackground, clearSVG. rewrite attributes_appendChild.
    rewrite !attributes_setAttribute. destruct (Dom.svg dom). reflexivity.
  - split; [|now split].
    unfold drawPointsAndLabels, drawRays, drawCircle, drawBackground, clearSVG.
    rewrite fold_append. cbn [attributes].
    destruct (Dom.showRays dom); rewrite ?fold_append; cbn [attributes];
      destruct (Dom.showCircle dom);
      rewrite ?attributes_appendChild, !attributes_setAttribute;
      destruct (Dom.svg dom); reflexivity.
Qed.

(** What [draw] keeps of the page. *)
Lemma draw_keeps (dom : Dom.t) :
  sameInputs (draw dom) dom /\
  tagName (Dom.svg (draw dom)) = tagName (Dom.svg dom) /\
  textContent (Dom.svg (draw dom)) = textContent (Dom.svg dom).
Proof.
  unfold draw, sameInputs. cbv zeta. dom_cbn.
  destruct (negb _ || _); dom_cbn.
  - split; [repeat split; reflexivity|].
    unfold drawBackground, clearSVG. destruct (Dom.svg dom). split; reflexivity.
  - split; [repeat split; reflexivity|].
    unfold drawPointsAndLabels, drawRays, drawCircle, drawBackground, clearSVG.
    rewrite fold_append. cbn [tagName textContent].
    destruct (Dom.showRays dom); rewrite ?fold_append;
      cbn [tagName textContent];
      destruct (Dom.showCircle dom), (Dom.svg dom); split; reflexivity.
Qed.

Lemma draw_info (dom : Dom.t) :
  Dom.periodInfo (draw dom) = None <-> Dom.periodInfo dom = None.
Proof.
  unfold draw. cbv zeta. dom_cbn.
  destruct (negb _ || _); dom_cbn;
    destruct (Dom.periodInfo dom); split; intros H; try discriminate H;
    reflexivity.
Qed.

Lemma sameInputs_draw (a b : Dom.t) :
  sameInputs a b -> sameInputs (draw a) (draw b).
Proof.
  intros H. destruct (draw_keeps a) as [Ha _], (draw_keeps b) as [Hb _].
  unfold sameInputs in *.
  repeat match goal with H : _ /\ _ |- _ => destruct H end.
  repeat split; congruence.
Qed.

(** Two pages are the same when they hold the same inputs and the same
    outputs. *)
Lemma Dom_ext (a b : Dom.t) :
  sameInputs a b -> Dom.periodInfo a = Dom.periodInfo b ->
  Dom.containerWidth a = Dom.containerWidth b ->
  Dom.containerHeight a = Dom.containerHeight b ->
  Dom.svg a = Dom.svg b -> a = b.
Proof.
  destruct a, b. unfold sameInputs.
  cbn [Dom.periodInput Dom.intervalsTA Dom.showCircle Dom.showRays
       Dom.showLabels Dom.circleSize Dom.labelSize Dom.labelDistance
       Dom.containerRect Dom.panelRect Dom.headerHeight Dom.paddingTop
       Dom.paddingBottom Dom.periodInfo Dom.containerWidth
       Dom.containerHeight Dom.svg].
  intros (-> & -> & -> & -> & -> & -> & -> & -> & -> & -> & -> & -> & ->)
         -> -> -> ->.
  reflexivity.
Qed.

(** [draw] reads the page through its inputs, through whether there is a
    period info element, and through the tag, the text and the attributes
    of the live element, of which it overrides the frame. *)
Lemma draw_ext (a b : Dom.t) :
  sameInputs a b ->
  (Dom.periodInfo a = None <-> Dom.periodInfo b = None) ->
  tagName (Dom.svg a) = tagName (Dom.svg b) ->
  textContent (Dom.svg a) = textContent (Dom.svg b) ->
  (forall w h vb, setFrame w h vb (attributes (Dom.svg a))
                  = setFrame w h vb (attributes (Dom.svg b))) ->
  draw a = draw b.
Proof.
  intros Hin Hinfo Htag Htext Hattrs.
  apply Dom_ext; [now apply sameInputs_draw | | | |];
    destruct a as [pin ta sc sr sl cs ls ld crect prect hh pt pb pinfo cw ch
                   [tag a0 ch0 x]];
    destruct b as [pin' ta' sc' sr' sl' cs' ls' ld' crect' prect' hh' pt' pb'
                   pinfo' cw' ch' [tag' a0' ch0' x']];
    unfold sameInputs in Hin;
    cbn [Dom.periodInput Dom.intervalsTA Dom.showCircle Dom.showRays
         Dom.showLabels Dom.circleSize Dom.labelSize Dom.labelDistance
         Dom.containerRect Dom.panelRect Dom.headerHeight Dom.paddingTop
         Dom.paddingBottom Dom.periodInfo Dom.svg
         tagName textContent attributes] in Hin, Hinfo, Htag, Htext, Hattrs;
    destruct Hin
      as (-> & -> & -> & -> & -> & -> & -> & -> & -> & -> & -> & -> & ->);
    subst tag' x';
    unfold draw; cbv zeta; dom_cbn;
    destruct (negb _ || _); dom_cbn; try reflexivity.
  - (* the period info, when the period is not valid *)
    destruct pinfo, pinfo'; try reflexivity.
    + destruct Hinfo as [_ H]. discriminate (H eq_refl).
    + destruct Hinfo as [H _]. discriminate (H eq_refl).
  - destruct pinfo, pinfo'; try reflexivity.
    + destruct Hinfo as [_ H]. discriminate (H eq_refl).
    + destruct Hinfo as [H _]. discriminate (H eq_refl).
  - (* the live element, when the period is not valid *)
    unfold drawBackground, clearSVG, setAttribute, appendChild.
    cbn [removeChildren stringOf]. unfold setFrame in Hattrs.
    now rewrite Hattrs.
  - unfold drawPointsAndLabels, drawRays, drawCircle, drawBackground, clearSVG,
           labelDistanceOf.
    dom_cbn. unfold setFrame in Hattrs.
    destruct sc', sr'; rewrite !fold_append;
      unfold setAttribute, appendChild;
      cbn [removeChildren stringOf tagName attributes children textContent];
      rewrite Hattrs; reflexivity.
Qed.

End FrameFacts.

Module RenderProps.
Import JSString JSNumber JSConv SVG Utils_js Export_js Script_js Vocabulary.
Import LayoutFacts SvgFacts ItemProps RenderFacts FrameFacts.

(** X22. The export is a square frame: its side is NaN, infinite, or an
    integer that is at least 300, its centre is at half the side, and the
    [svg] element [createExportSVG] returns has the side as its [width]
    and [height] and [0 0 side side] as its [viewBox], whether the period
    is valid or not. *)
Theorem export_frame (dom : Dom.t) :
  let dims := calculateExportDimensions dom in
  let size := ExportDims.size dims in
  frameSide 300 size /\
  ExportDims.cx dims = div size (num 2) /\
  ExportDims.cy dims = div size (num 2) /\
  getAttribute (createExportSVG dom) (str "width") = Some (toString size) /\
  getAttribute (createExportSVG dom) (str "height") = Some (toString size) /\
  getAttribute (createExportSVG dom) (str "viewBox")
  = Some (str "0 0 " ++ toString size ++ str " " ++ toString size).
Proof.
  intros dims size. split; [apply export_size_side|].
  destruct (export_centre dom) as [Ex Ey].
  split; [exact Ex|]. split; [exact Ey|].
  destruct (export_attributes dom) as [more E]. unfold getAttribute.
  rewrite E. fold dims. fold size. unfold viewBoxOf.
  generalize (toString size). intros s. clearbody size. clear.
  repeat split; cbn [getAttr]; vm_compute; reflexivity.
Qed.

(** X23. The live drawing is a square frame: [draw] gives the live [svg]
    element one side as its [width] and its [height] and [0 0 side side]
    as its [viewBox]; the side is NaN, infinite, or an integer that is at
    least 400.  When the side is finite, it is such an integer and the
    style of the container holds it in pixels, as its width and as its
    height. *)
Theorem live_frame (dom : Dom.t) :
  exists side,
    frameSide 400 side /\
    getAttribute (Dom.svg (draw dom)) (str "width") = Some (toString side) /\
    getAttribute (Dom.svg (draw dom)) (str "height") = Some (toString side) /\
    getAttribute (Dom.svg (draw dom)) (str "viewBox")
    = Some (str "0 0 " ++ toString side ++ str " " ++ toString side) /\
    (isFinite side = true ->
     (exists n : Z, (400 <= n)%Z /\ side = num n) /\
     Dom.containerWidth (draw dom) = toString side ++ str "px" /\
     Dom.containerHeight (draw dom) = toString side ++ str "px").
Proof.
  destruct (draw_frame dom) as (S & Hside & Ha & Hw & Hh).
  exists S. split; [exact Hside|]. unfold getAttribute. rewrite Ha.
  destruct (getAttr_setFrame (toString S) (toString S) (viewBoxOf S S)
              (attributes (Dom.svg dom))) as (E1 & E2 & E3).
  repeat (split; [assumption|]).
  intros Hfin. split; [|now split].
  destruct Hside as [E|[E|Hn]]; [rewrite E in Hfin; discriminate Hfin
                               | rewrite E in Hfin; discriminate Hfin
                               | exact Hn].
Qed.

(** X24. What [draw] leaves in the live element, from the bottom up: the
    background; then, when the period is a finite number other than zero,
    the guide circle if it is shown, a line for each label if the rays are
    shown, and a group for each label, with its point and, if the labels
    are shown, its text.  The labels are the normalized period label,
    which is the trimmed period input when it holds a slash, the input
    without its unit when it is in cents format, and the period rounded to
    an integer otherwise, and then the trimmed lines that parse.  Nothing
    of an earlier drawing is left. *)
Theorem draw_layers (dom : Dom.t) :
  map layer (children (Dom.svg (draw dom))) = layersOf dom /\
  exists label,
    NormalizedLabel (Dom.periodInput dom)
      (parsePeriodToCents (Dom.periodInput dom)) label /\
    labelsOf dom = label :: map Token.raw (tokensOf (Dom.intervalsTA dom)).
Proof.
  split; [exact (draw_layers_eq dom)|].
  exists (normalizePeriodLabel (Dom.periodInput dom)
            (parsePeriodToCents (Dom.periodInput dom))).
  split; [apply LabelFacts.normalizePeriodLabel_normalized | reflexivity].
Qed.

(** X25. The export mirrors the live drawing: the element
    [createExportSVG] returns holds the same kinds of elements, in the
    same order and with the same texts, as [draw] leaves in the live
    element. *)
Theorem export_mirrors_live (dom : Dom.t) :
  map layer (children (createExportSVG dom))
  = map layer (children (Dom.svg (draw dom))).
Proof. now rewrite export_layers_eq, draw_layers_eq. Qed.

(** X26. Drawing again changes nothing: with the same inputs and the same
    measures of the panel, [draw] after [draw] leaves the page as one
    [draw] does. *)
Theorem draw_idempotent (dom : Dom.t) : draw (draw dom) = draw dom.
Proof.
  destruct (draw_keeps dom) as (Hin & Htag & Htext).
  destruct (draw_frame dom) as (S & _ & Ha & _).
  apply draw_ext; try assumption.
  - apply draw_info.
  - intros w h vb. rewrite Ha. apply setFrame_twice.
Qed.

End RenderProps.

(* ================================================================== *)
(** * Part XIII. Integers as strings, and the raster canvas           *)
(* ================================================================== *)

Module DigitFacts.
Import JSString JSNumber JSConv RegExp Vocabulary.
Import StringFacts ConvFacts NumeralFacts.
Local Open Scope Z_scope.

(** ** The value of a string of digits *)

Lemma digitsValue_fold (ds : jsstring) :
  digitsValue 10 ds = fold_left digitStep ds 0.
Proof. reflexivity. Qed.

Lemma fold_digits (ds : jsstring) (acc : Z) :
  fold_left digitStep ds acc
  = acc * 10 ^ Z.of_nat (List.length ds) + fold_left digitStep ds 0.
Proof.
  revert acc. induction ds as [|d ds IH]; intros acc.
  - cbn [fold_left List.length]. change (10 ^ Z.of_nat 0) with 1. lia.
  - cbn [fold_left]. rewrite IH, (IH (digitStep 0 d)).
    replace (Z.of_nat (List.length (d :: ds)))
      with (Z.of_nat (List.length ds) + 1) by (cbn [List.length]; lia).
    rewrite Z.pow_add_r by lia. unfold digitStep. lia.
Qed.

Lemma digitsValue_app (a b : jsstring) :
  digitsValue 10 (a ++ b)
  = digitsValue 10 a * 10 ^ Z.of_nat (List.length b) + digitsValue 10 b.
Proof.
  rewrite !digitsValue_fold, fold_left_app. apply fold_digits.
Qed.

Lemma digitsValue_zeros (n : nat) : digitsValue 10 (repeat 48%N n) = 0.
Proof.
  induction n as [|n IH]; [reflexivity|].
  change (repeat 48%N (S n)) with ([48%N] ++ repeat 48%N n).
  rewrite digitsValue_app, IH. reflexivity.
Qed.

Lemma digit_value (x : N) :
  (x < 10)%N -> digitsValue 10 [(48 + x)%N] = Z.of_N x.
Proof.
  intros H. unfold digitsValue. cbn [fold_left]. unfold radixDigit.
  replace (isDigit (48 + x)) with true
    by (symmetry; apply isDigit_range; lia).
  replace (Z.of_N (48 + x) - 48 <? 10) with true
    by (symmetry; apply Z.ltb_lt; lia).
  lia.
Qed.

(** The digits of a natural number denote it. *)
Lemma digitsFuel_value (fuel : nat) (n : N) (acc : jsstring) :
  (Z.of_N n < 10 ^ Z.of_nat fuel) ->
  digitsValue 10 (digitsFuel fuel n acc)
  = Z.of_N n * 10 ^ Z.of_nat (List.length acc) + digitsValue 10 acc.
Proof.
  revert n acc. induction fuel as [|f IH]; intros n acc H.
  - change (10 ^ Z.of_nat 0) with 1 in H. cbn [digitsFuel].
    replace (Z.of_N n) with 0 by lia. lia.
  - cbn [digitsFuel].
    assert (Hm : (n mod 10 < 10)%N) by (apply N.mod_lt; discriminate).
    assert (Hacc : digitsValue 10 ((48 + n mod 10)%N :: acc)
                   = Z.of_N (n mod 10) * 10 ^ Z.of_nat (List.length acc)
                     + digitsValue 10 acc).
    { change ((48 + n mod 10)%N :: acc) with ([(48 + n mod 10)%N] ++ acc).
      now rewrite digitsValue_app, digit_value. }
    destruct (N.ltb_spec n 10) as [Hn|Hn].
    + rewrite Hacc, N.mod_small by exact Hn. reflexivity.
    + rewrite IH.
      * rewrite Hacc.
        replace (Z.of_nat (List.length ((48 + n mod 10)%N :: acc)))
          with (Z.of_nat (List.length acc) + 1) by (cbn [List.length]; lia).
        rewrite Z.pow_add_r by lia.
        rewrite N2Z.inj_mod, N2Z.inj_div. change (Z.of_N 10) with 10.
        pose proof (Z.div_mod (Z.of_N n) 10 ltac:(discriminate)).
        nia.
      * rewrite N2Z.inj_div. change (Z.of_N 10) with 10.
        replace (Z.of_nat (S f)) with (Z.of_nat f + 1) in H by lia.
        rewrite Z.pow_add_r in H by lia.
        apply Z.div_lt_upper_bound; lia.
Qed.

Lemma decimalOfN_value (n : N) : digitsValue 10 (decimalOfN n) = Z.of_N n.
Proof.
  unfold decimalOfN. rewrite digitsFuel_value.
  - cbn [List.length]. change (digitsValue 10 []) with 0. lia.
  - destruct n as [|p]; [reflexivity|].
    pose proof (N.log2_spec (N.pos p) ltac:(reflexivity)) as [_ Hl].
    apply N2Z.inj_lt in Hl. rewrite N2Z.inj_pow, N2Z.inj_succ in Hl.
    change (Z.of_N 2) with 2 in Hl.
    replace (Z.of_nat (S (N.to_nat (N.log2 (N.pos p)))))
      with (Z.succ (Z.of_N (N.log2 (N.pos p)))) by lia.
    apply Z.lt_le_trans with (1 := Hl).
    apply Z.pow_le_mono_l. lia.
Qed.

(** The number of digits of a natural number. *)
Lemma digitsFuel_length (fuel : nat) (n : N) (acc : jsstring) :
  (0 < n)%N ->
  let L := Z.of_nat (List.length (digitsFuel (S fuel) n acc)) in
  let A := Z.of_nat (List.length acc) in
  A + 1 <= L /\ 10 ^ (L - A - 1) <= Z.of_N n.
Proof.
  revert n acc. induction fuel as [|f IH]; intros n acc Hn L A; subst L A.
  - cbn [digitsFuel]. destruct (n <? 10)%N; cbn [List.length];
      (split; [lia|]);
      replace (Z.of_nat (S (List.length acc)) - Z.of_nat (List.length acc) - 1)
        with 0 by lia; change (10 ^ 0) with 1; lia.
  - remember (S f) as f' eqn:Ef. cbn [digitsFuel].
    destruct (N.ltb_spec n 10) as [H10|H10].
    + cbn [List.length]. split; [lia|].
      replace (Z.of_nat (S (List.length acc)) - Z.of_nat (List.length acc) - 1)
        with 0 by lia. change (10 ^ 0) with 1. lia.
    + subst f'.
      assert (Hq : (0 < n / 10)%N).
      { apply N.div_str_pos. lia. }
      destruct (IH (n / 10)%N ((48 + n mod 10)%N :: acc) Hq) as [H1 H2].
      cbn [List.length] in H1, H2.
      set (L := Z.of_nat (List.length
                 (digitsFuel (S f) (n / 10) ((48 + n mod 10)%N :: acc)))) in *.
      set (A := Z.of_nat (List.length acc)) in *.
      replace (Z.of_nat (S (List.length acc))) with (A + 1) in H1, H2 by lia.
      split; [lia|].
      replace (L - A - 1) with ((L - (A + 1) - 1) + 1) by lia.
      rewrite Z.pow_add_r by lia. rewrite N2Z.inj_div in H2.
      change (Z.of_N 10) with 10 in H2.
      pose proof (Z.mul_div_le (Z.of_N n) 10 ltac:(reflexivity)). lia.
Qed.

Lemma decimalOfN_length (n : N) :
  (0 < n)%N ->
  10 ^ (Z.of_nat (List.length (decimalOfN n)) - 1) <= Z.of_N n.
Proof.
  intros Hn. unfold decimalOfN.
  destruct (@digitsFuel_length (N.to_nat (N.log2 n)) n [] Hn) as [_ H].
  cbn [List.length] in H. now rewrite Z.sub_0_r in H.
Qed.

(** ** Trailing zeros *)

Lemma stripZeros_value (fuel : nat) (c e : Z) :
  0 < c -> 0 <= e ->
  let '(c', e') := stripZeros fuel c e in
  0 < c' /\ 0 <= e' /\ c' * 10 ^ e' = c * 10 ^ e.
Proof.
  revert c e. induction fuel as [|f IH]; intros c e Hc He; cbn [stripZeros].
  - now repeat split.
  - destruct ((c mod 10 =? 0) && negb (c =? 0)) eqn:E; [|now repeat split].
    apply andb_true_iff in E. destruct E as [Em _]. apply Z.eqb_eq in Em.
    pose proof (Z.div_mod c 10 ltac:(discriminate)) as Hd.
    assert (Hc' : 0 < c / 10) by lia.
    specialize (IH (c / 10) (e + 1) Hc' ltac:(lia)).
    destruct (stripZeros f (c / 10) (e + 1)) as [c' e'].
    destruct IH as (H1 & H2 & H3). split; [exact H1|]. split; [exact H2|].
    rewrite H3, Z.pow_add_r by lia. nia.
Qed.

End DigitFacts.

Module IntegerFacts.
Import JSString JSNumber JSConv RegExp SVG Utils_js Vocabulary.
Import StringFacts ConvFacts NumeralFacts LayoutFacts RoundFacts DigitFacts.
Local Open Scope Q_scope.

Lemma pow10_nonneg (e : Z) : (0 <= e)%Z -> pow10 e = inject_Z (10 ^ e).
Proof. destruct e; try reflexivity. lia. Qed.

Lemma value_Fin (x : number) (r : Q) :
  value x = Some r -> ~ r == 0 -> x = Fin r.
Proof.
  destruct x; try discriminate; intros H Hr; injection H as <-;
    [exfalso; now apply Hr | reflexivity].
Qed.

(** A positive integer of less than 54 bits is kept by the rounding. *)
Lemma round64_integer (q : Q) (n : Z) :
  (0 < n < 2 ^ 53)%Z -> q == inject_Z n ->
  exists b, round64 q = Fin b /\ b == inject_Z n.
Proof.
  intros Hn E. destruct (@round64_exact q n ltac:(lia) E) as (r & Hr & Er).
  exists r. split; [|exact Er]. apply value_Fin; [exact Hr|].
  rewrite Er. intros H0. change 0 with (inject_Z 0) in H0.
  apply (proj1 (inject_Z_injective _ _)) in H0. lia.
Qed.

(** An integer that rounds to a positive integer of less than 53 bits is
    that integer. *)
Lemma round64_integer_inv (q : Q) (V n : Z) (b : Q) :
  (0 < n < 2 ^ 52)%Z -> q == inject_Z V ->
  round64 q = Fin b -> b == inject_Z n -> V = n.
Proof.
  intros Hn EV Hb Eb.
  assert (Hlt : (V < 2 ^ 53)%Z).
  { destruct (Z_lt_ge_dec V (2 ^ 53)) as [H|H]; [exact H|]. exfalso.
    assert (L0 : inject_Z (2 ^ 53 - 1) <= q).
    { rewrite EV, <- Zle_Qle. lia. }
    destruct (@round64_lower q (2 ^ 53 - 1) ltac:(reflexivity) L0)
      as [E|(r & Hr & L)].
    - rewrite Hb in E. discriminate.
    - rewrite Hb in Hr. injection Hr as <-. rewrite Eb in L.
      rewrite <- Zle_Qle in L. lia. }
  assert (Hgt : (0 < V)%Z).
  { destruct (Z_lt_ge_dec 0 V) as [H|H]; [exact H|]. exfalso.
    assert (U0 : q <= inject_Z 0).
    { rewrite EV, <- Zle_Qle. lia. }
    destruct (@round64_upper q 0 ltac:(reflexivity) U0) as [E|(r & Hr & L)].
    - rewrite Hb in E. discriminate.
    - rewrite Hb in Hr. injection Hr as <-. rewrite Eb in L.
      rewrite <- Zle_Qle in L. lia. }
  destruct (@round64_exact q V ltac:(lia) EV) as (r & Hr & Er).
  rewrite Hb in Hr. injection Hr as <-. rewrite Eb in Er.
  now apply (proj1 (inject_Z_injective _ _)) in Er.
Qed.

(** ** The decimal exponent of an integer *)

Lemma ilog2_integer (n : Z) : (0 < n)%Z -> ilog2 (inject_Z n) = Z.log2 n.
Proof.
  intros Hn. unfold ilog2, inject_Z. cbn [Qnum Qden].
  change (Z.log2 1) with 0%Z. rewrite Z.sub_0_r.
  replace (Qle_bool (pow2 (Z.log2 n)) (n # 1)) with true; [reflexivity|].
  symmetry. apply Qle_bool_iff.
  rewrite pow2_nonneg by apply Z.log2_nonneg.
  change (n # 1) with (inject_Z n). rewrite <- Zle_Qle.
  now apply Z.log2_spec.
Qed.

Lemma ilog10_integer (n : Z) :
  (0 < n < 2 ^ 53)%Z -> (0 <= ilog10 (inject_Z n) <= 15)%Z.
Proof.
  intros Hn. unfold ilog10. rewrite ilog2_integer by lia.
  assert (Hl : (0 <= Z.log2 n < 53)%Z).
  { split; [apply Z.log2_nonneg | apply Z.log2_lt_pow2; lia]. }
  set (e := (Z.log2 n * 30103 / 100000)%Z).
  assert (He : (0 <= e <= 15)%Z).
  { unfold e. split.
    - apply Z.div_pos; lia.
    - apply Z.lt_succ_r. apply Z.div_lt_upper_bound; lia. }
  assert (Hbig : forall x, (16 <= x)%Z -> Qle_bool (pow10 x) (inject_Z n) = false).
  { intros x Hx. destruct (Qle_bool (pow10 x) (inject_Z n)) eqn:E;
      [|reflexivity].
    apply Qle_bool_iff in E. rewrite pow10_nonneg in E by lia.
    rewrite <- Zle_Qle in E.
    assert ((10 ^ 16 <= 10 ^ x)%Z) by (apply Z.pow_le_mono_r; lia).
    assert ((2 ^ 53 < 10 ^ 16)%Z) by reflexivity. lia. }
  assert (H0 : Qle_bool (pow10 0) (inject_Z n) = true).
  { apply Qle_bool_iff. change (pow10 0) with (inject_Z 1).
    rewrite <- Zle_Qle. lia. }
  destruct (Qle_bool (pow10 (e + 1)) (inject_Z n)) eqn:E1.
  - assert (e + 1 <= 15)%Z.
    { destruct (Z_le_gt_dec (e + 1) 15) as [H|H]; [exact H|].
      rewrite Hbig in E1 by lia. discriminate. }
    destruct (Qle_bool (pow10 (e + 1)) (inject_Z n)); lia.
  - destruct (Z.eq_dec e 0) as [->|Hne]; [rewrite H0; lia|].
    destruct (Qle_bool (pow10 e) (inject_Z n)); lia.
Qed.

(** ** The shortest digits of an integer *)

(** The search for the shortest digits of a positive integer of less than
    54 bits stops, at the latest, at the digits of the integer itself, and
    what it returns rounds to the integer. *)
Lemma shortestFuel_integer (n n0 : Z) (fuel : nat) (k : Z) :
  (0 < n < 2 ^ 53)%Z -> (k <= n0 < k + Z.of_nat fuel)%Z ->
  let '(c, e) := shortestFuel fuel k (inject_Z n) n0 in
  (0 <= e)%Z /\
  exists b, round64 (inject_Z c * pow10 e) = Fin b /\ b == inject_Z n.
Proof.
  intros Hn. revert k. induction fuel as [|f IH]; intros k Hk; [lia|].
  cbn [shortestFuel].
  set (e := (n0 - k)%Z).
  set (lo := Qfloor (inject_Z n / pow10 e)).
  set (c1 := roundHalfEven (inject_Z n / pow10 e)).
  set (c2 := if (c1 =? lo)%Z then (lo + 1)%Z else lo).
  assert (Hhit : forall c,
             match round64 (inject_Z c * pow10 e) with
             | Fin b => Qeq_bool (inject_Z n) b
             | _ => false
             end = true ->
             (0 <= e)%Z /\
             exists b, round64 (inject_Z c * pow10 e) = Fin b /\
                       b == inject_Z n).
  { intros c H. split; [unfold e; lia|].
    destruct (round64 (inject_Z c * pow10 e)) as [| | | |b]; try discriminate.
    exists b. split; [reflexivity|]. apply Qeq_bool_eq in H.
    now symmetry. }
  destruct (match round64 (inject_Z c1 * pow10 e) with
            | Fin b => Qeq_bool (inject_Z n) b
            | _ => false
            end) eqn:H1; [now apply Hhit|].
  destruct (match round64 (inject_Z c2 * pow10 e) with
            | Fin b => Qeq_bool (inject_Z n) b
            | _ => false
            end) eqn:H2; [now apply Hhit|].
  apply IH.
  destruct (Z.eq_dec k n0) as [Ek|Ek]; [exfalso | lia].
  (* with all its digits, the integer is found *)
  assert (E0 : e = 0%Z) by (unfold e; lia).
  assert (Ec : c1 = n).
  { unfold c1. rewrite E0. change (pow10 0) with 1.
    assert (Eq : inject_Z n / 1 == inject_Z n) by field.
    apply Z.le_antisymm.
    - apply roundHalfEven_le. rewrite Eq. apply Qle_refl.
    - apply roundHalfEven_ge. rewrite Eq. apply Qle_refl. }
  rewrite Ec, E0 in H1. change (pow10 0) with 1 in H1.
  destruct (@round64_integer (inject_Z n * 1) n Hn ltac:(ring))
    as (b & Hb & Eb).
  rewrite Hb in H1. apply Qeq_bool_neq in H1. apply H1. now symmetry.
Qed.

(** ** The string of an integer, and its reading *)

Lemma zeros_digits (m : Z) : forallb isDigit (zeros m) = true.
Proof. unfold zeros. now apply forallb_repeat. Qed.

(** The string of a positive integer of less than 53 bits is made of
    digits, and these denote the integer. *)
Lemma toString_integer (n : Z) :
  (0 < n < 2 ^ 52)%Z ->
  toString (num n) <> [] /\
  forallb isDigit (toString (num n)) = true /\
  digitsValue 10 (toString (num n)) = n.
Proof.
  intros Hn. unfold toString, num.
  assert (Hq : ~ inject_Z n == 0).
  { intros H. change 0 with (inject_Z 0) in H. apply (proj1 (inject_Z_injective _ _)) in H. lia. }
  unfold classify.
  destruct (Qeq_bool (inject_Z n) 0) eqn:E0;
    [exfalso; apply Hq; now apply Qeq_bool_eq|].
  replace (Qltb (inject_Z n) 0) with false.
  2:{ symmetry. apply Qltb_ge. change 0 with (inject_Z 0).
      rewrite <- Zle_Qle. lia. }
  unfold toStringPos.
  pose proof (@ilog10_integer n ltac:(lia)) as H10.
  pose proof (@shortestFuel_integer n (ilog10 (inject_Z n) + 1) 16 1
                ltac:(lia) ltac:(lia)) as Hs.
  destruct (shortestFuel 16 1 (inject_Z n) (ilog10 (inject_Z n) + 1))
    as [c0 e0].
  destruct Hs as (He0 & b & Hb & Eb).
  (* the digits found are those of an integer, which is [n] *)
  assert (EV : inject_Z c0 * pow10 e0 == inject_Z (c0 * 10 ^ e0)).
  { rewrite pow10_nonneg by exact He0. now rewrite inject_Z_mult. }
  pose proof (@round64_integer_inv _ _ n b Hn EV Hb Eb) as HV.
  assert (Hc0 : (0 < c0)%Z).
  { assert ((0 < 10 ^ e0)%Z) by (apply Z.pow_pos_nonneg; lia). nia. }
  pose proof (@stripZeros_value 400 c0 e0 Hc0 He0) as Hz.
  destruct (stripZeros 400 c0 e0) as [c e].
  destruct Hz as (Hc & He & Ez). rewrite HV in Ez.
  (* the digits of [c], and [e] zeros after them *)
  destruct c as [|p|p]; try lia. cbn [decimalOfZ Z.to_N].
  pose proof (@decimalOfN_length (N.pos p) ltac:(reflexivity)) as Hlen.
  pose proof (decimalOfN_value (N.pos p)) as Hval.
  pose proof (decimalOfN_digits (N.pos p)) as Hdig.
  pose proof (@decimalOfN_nonempty (N.pos p)) as Hne.
  set (ds := decimalOfN (N.pos p)) in *. clearbody ds.
  change (Z.of_N (N.pos p)) with (Z.pos p) in Hlen, Hval.
  set (k := Z.of_nat (List.length ds)) in *.
  assert (Hk : (1 <= k)%Z).
  { unfold k. destruct ds; [contradiction | cbn [List.length]; lia]. }
  assert (Hke : (k + e <= 16)%Z).
  { assert (H1 : (10 ^ (k - 1 + e) <= Z.pos p * 10 ^ e)%Z).
    { rewrite Z.pow_add_r by lia.
      apply Z.mul_le_mono_nonneg_r; [apply Z.pow_nonneg; lia | exact Hlen]. }
    assert (H2 : (10 ^ (k - 1 + e) < 10 ^ 16)%Z).
    { assert ((2 ^ 52 < 10 ^ 16)%Z) by reflexivity. lia. }
    apply Z.pow_lt_mono_r_iff in H2; lia. }
  replace ((k <=? k + e)%Z && (k + e <=? 21)%Z) with true.
  2:{ symmetry. apply andb_true_iff. split; apply Z.leb_le; lia. }
  replace (k + e - k)%Z with e by lia.
  split; [|split].
  - intros H. apply app_eq_nil in H. now destruct H.
  - now rewrite forallb_app, Hdig, zeros_digits.
  - rewrite digitsValue_app. unfold zeros. rewrite digitsValue_zeros.
    rewrite repeat_length, Z2Nat.id by exact He. rewrite Hval. lia.
Qed.

(** [parseInt] on a string of digits. *)
Lemma parseInt_digits (s : jsstring) :
  s <> [] -> forallb isDigit s = true ->
  parseInt s = if (digitsValue 10 s =? 0)%Z then Fin 0
               else round64 (inject_Z (digitsValue 10 s)).
Proof.
  intros Hne Hd. unfold parseInt.
  destruct s as [|c r]; [contradiction|].
  pose proof Hd as Hd'. cbn [forallb] in Hd'.
  apply andb_true_iff in Hd'. destruct Hd' as [Hc Hr].
  assert (Hw : isWhiteSpace c = false)
    by now apply numeric_not_space, digit_numeric.
  cbn [trimStart]. rewrite Hw.
  apply isDigit_range in Hc.
  replace (c =? MINUS)%N with false by (symmetry; apply N.eqb_neq; lia).
  replace (c =? PLUS)%N with false by (symmetry; apply N.eqb_neq; lia).
  assert (Hspan : span (isRadixDigit 10) (c :: r) = (c :: r, [])).
  { rewrite <- (app_nil_r (c :: r)) at 1. apply span_all; [|exact I].
    apply forallb_forall. intros d Hin.
    rewrite forallb_forall in Hd. specialize (Hd d Hin).
    unfold isRadixDigit, radixDigit. rewrite Hd.
    apply isDigit_range in Hd.
    replace (Z.of_N d - 48 <? 10)%Z with true; [reflexivity|].
    symmetry. apply Z.ltb_lt. lia. }
  destruct r as [|x r0]; [rewrite Hspan; reflexivity|].
  cbn [forallb] in Hr. apply andb_true_iff in Hr. destruct Hr as [Hx _].
  apply isDigit_range in Hx.
  replace (x =? 120)%N with false by (symmetry; apply N.eqb_neq; lia).
  replace (x =? 88)%N with false by (symmetry; apply N.eqb_neq; lia).
  rewrite andb_false_r. rewrite Hspan. reflexivity.
Qed.

End IntegerFacts.

Module RasterProps.
Import JSString JSNumber JSConv RegExp SVG Utils_js Export_js Vocabulary.
Import LayoutFacts RoundFacts RenderFacts FrameFacts IntegerFacts.
Local Open Scope Q_scope.

(** X27. The raster is twice the size of the export: when the side of
    the export frame is an integer below 2^30, its string on the [width]
    attribute reads back as that integer, and [handleRasterExport] leaves
    the canvas with twice that side as its width and as its height.
    (From 2^30 on, twice the side is above 2^31 - 1 and the canvas takes
    its defaults or a remainder modulo 2^32.) *)
Theorem raster_canvas_twice (dom : Dom.t) (n : Z) :
  ExportDims.size (calculateExportDimensions dom) = num n ->
  (n < 2 ^ 30)%Z ->
  Canvas.width (rasterCanvas dom) = (2 * n)%Z /\
  Canvas.height (rasterCanvas dom) = (2 * n)%Z.
Proof.
  intros Hsize Hn.
  assert (Hn0 : (300 <= n)%Z).
  { destruct (export_size_side dom) as [E|[E|(m & Hm & E)]];
      rewrite Hsize in E; try discriminate E.
    injection E as E. now subst m. }
  unfold rasterCanvas. cbn [Canvas.width Canvas.height].
  destruct (export_attributes dom) as [more E]. unfold getAttribute.
  rewrite E, Hsize. cbn [getAttr].
  replace (JSString.eqb (str "width") (str "width")) with true by reflexivity.
  destruct (@toString_integer n ltac:(lia)) as (Hne & Hdig & Hval).
  rewrite (@parseInt_digits _ Hne Hdig), Hval.
  replace (n =? 0)%Z with false by (symmetry; apply Z.eqb_neq; lia).
  destruct (@round64_integer (inject_Z n) n ltac:(lia) ltac:(reflexivity))
    as (b & -> & Eb).
  assert (Hb : ~ b == 0).
  { rewrite Eb. intros H. change 0 with (inject_Z 0) in H.
    apply (proj1 (inject_Z_injective _ _)) in H. lia. }
  unfold mul. rewrite (@DimensionProps.classify_Fin b Hb).
  change (classify DEFAULTS.EXPORT_SCALE) with (CFin (inject_Z 2)).
  destruct (@round64_integer (b * inject_Z 2) (2 * n) ltac:(lia))
    as (w & -> & Ew).
  { rewrite Eb, inject_Z_mult. ring. }
  assert (Hw : ~ w == 0).
  { rewrite Ew. intros H. change 0 with (inject_Z 0) in H.
    apply (proj1 (inject_Z_injective _ _)) in H. lia. }
  unfold Canvas.reflect, toUint32.
  rewrite (@DimensionProps.classify_Fin w Hw).
  rewrite (Qtrunc_comp Ew), AngleProps.Qtrunc_Z.
  rewrite Z.mod_small by lia.
  replace (2 * n <=? 2147483647)%Z with true
    by (symmetry; apply Z.leb_le; lia).
  now split.
Qed.

Lemma raster_canvas_twice_witness :
  let dom :=
    Dom.mk (str "2/1") (str "700") true true true (str "1.0") (str "14")
      (Some (str "35")) (Rect.mk (num 400) (num 400))
      (Rect.mk (num 400) (num 400)) None (str "0px") (str "0px") None [] []
      (Elem (str "svg") [] [] []) in
  ExportDims.size (calculateExportDimensions dom) = num 410 /\
  (410 < 2 ^ 30)%Z /\
  Canvas.width (rasterCanvas dom) = (2 * 410)%Z /\
  Canvas.height (rasterCanvas dom) = (2 * 410)%Z.
Proof.
  intros dom.
  assert (H1 : ExportDims.size (calculateExportDimensions dom) = num 410)
    by (vm_compute; reflexivity).
  assert (H2 : (410 < 2 ^ 30)%Z) by reflexivity.
  split; [exact H1|]. split; [exact H2|].
  exact (@raster_canvas_twice dom 410 H1 H2).
Defined.

End RasterProps.

(* ================================================================== *)
(** * Part XIV. The error of the roundings, and the angle *)
(* ================================================================== *)

Module ErrorFacts.
Import JSString JSNumber JSConv Vocabulary LayoutFacts NumberFacts RoundFacts.
Local Open Scope Q_scope.

(** ** The binary logarithm, from above *)

Lemma ilog2_lt (q : Q) : 0 < q -> q < pow2 (ilog2 q + 1).
Proof.
  intros Hq. unfold ilog2. destruct q as [n d]. cbn [Qnum Qden].
  set (ln := Z.log2 n). set (ld := Z.log2 (Z.pos d)).
  destruct (Qle_bool (pow2 (ln - ld)) (n # d)) eqn:E.
  - assert (Hn : (0 < n)%Z) by (unfold Qlt in Hq; simpl in Hq; lia).
    pose proof (Z.log2_spec _ Hn) as [_ Ln]. fold ln in Ln.
    assert (Hd : (0 < Z.pos d)%Z) by reflexivity.
    pose proof (Z.log2_spec _ Hd) as [Ld _]. fold ld in Ld.
    assert (Hln : (0 <= ln)%Z) by apply Z.log2_nonneg.
    assert (Hld : (0 <= ld)%Z) by apply Z.log2_nonneg.
    replace (ln - ld + 1)%Z with ((ln + 1) + - ld)%Z by lia.
    rewrite pow2_plus, (pow2_Qpower (- ld)), Qpower_opp, <- pow2_Qpower.
    rewrite !pow2_nonneg by lia.
    rewrite (Qmake_Qdiv n d).
    assert (A : inject_Z n < inject_Z (2 ^ (ln + 1))).
    { rewrite <- Zlt_Qlt. unfold Z.succ in Ln. lia. }
    assert (B : inject_Z (2 ^ ld) <= inject_Z (Z.pos d))
      by now rewrite <- Zle_Qle.
    assert (B0 : 0 < inject_Z (2 ^ ld)).
    { change 0 with (inject_Z 0). rewrite <- Zlt_Qlt.
      now apply Z.pow_pos_nonneg. }
    assert (N0 : 0 < inject_Z n).
    { change 0 with (inject_Z 0). now rewrite <- Zlt_Qlt. }
    revert A B B0 N0.
    generalize (inject_Z (2 ^ ld)) (inject_Z n)
               (inject_Z (Z.pos d)) (inject_Z (2 ^ (ln + 1))).
    intros b n' d' a A B B0 N0.
    assert (D0 : 0 < d') by lra.
    apply Qlt_shift_div_r; [exact D0|].
    assert (E1 : a * / b * d' == a * d' / b) by (field; lra).
    rewrite E1. apply Qlt_shift_div_l; [exact B0|]. nra.
  - replace (ln - ld - 1 + 1)%Z with (ln - ld)%Z by lia.
    apply Qnot_le_lt. intros H. apply Qle_bool_iff in H. congruence.
Qed.

(** ** The error of a rounding *)

Lemma roundHalfEven_near (x : Q) :
  Qabs (inject_Z (roundHalfEven x) - x) <= 1 # 2.
Proof.
  pose proof (Qfloor_le x) as L. pose proof (Qlt_floor x) as U.
  rewrite inject_Z_plus in U. change (inject_Z 1) with 1 in U.
  unfold roundHalfEven.
  destruct (Qcompare_spec (x - inject_Z (Qfloor x)) (1 # 2)) as [E|E|E].
  - destruct (Z.even (Qfloor x)).
    + apply Qabs_Qle_condition. lra.
    + rewrite inject_Z_plus. change (inject_Z 1) with 1.
      apply Qabs_Qle_condition. lra.
  - apply Qabs_Qle_condition. lra.
  - rewrite inject_Z_plus. change (inject_Z 1) with 1.
    apply Qabs_Qle_condition. lra.
Qed.

Lemma pow2_half (e : Z) : pow2 (e - 1) == pow2 e * (1 # 2).
Proof.
  replace (e - 1)%Z with (e + -1)%Z by lia. rewrite pow2_plus. reflexivity.
Qed.

(** The unit in the last place of [a], halved, is at most the relative
    error bound of [a], or the least one. *)
Lemma half_ulp (a : Q) :
  0 < a ->
  let ue := Z.max (ilog2 a - 52) (-1074) in
  pow2 (ue - 1) <= a * pow2 (-53) + pow2 (-1075) /\
  (pow2 (-1022) <= a -> pow2 (ue - 1) <= a * pow2 (-53)) /\
  pow2 ue <= a * pow2 (-52) + pow2 (-1074).
Proof.
  intros Ha ue.
  pose proof (ilog2_le Ha) as Hl. pose proof (ilog2_lt Ha) as Hu.
  pose proof (pow2_pos (ilog2 a)) as Hp.
  destruct (Z_le_gt_dec (-1074) (ilog2 a - 52)) as [H|H].
  - assert (E : ue = (ilog2 a - 52)%Z) by (unfold ue; lia).
    rewrite E.
    assert (E1 : pow2 (ilog2 a - 52 - 1) == pow2 (ilog2 a) * pow2 (-53)).
    { replace (ilog2 a - 52 - 1)%Z with (ilog2 a + -53)%Z by lia.
      apply pow2_plus. }
    assert (E2 : pow2 (ilog2 a - 52) == pow2 (ilog2 a) * pow2 (-52)).
    { replace (ilog2 a - 52)%Z with (ilog2 a + -52)%Z by lia.
      apply pow2_plus. }
    rewrite E1, E2.
    pose proof (pow2_pos (-53)) as P53. pose proof (pow2_pos (-52)) as P52.
    pose proof (pow2_pos (-1075)) as P75. pose proof (pow2_pos (-1074)) as P74.
    revert Hl Hp P53 P52 P75 P74.
    generalize (pow2 (ilog2 a)) (pow2 (-53)) (pow2 (-52)) (pow2 (-1075))
               (pow2 (-1074)).
    intros g p53 p52 p75 p74 Hl Hp P53 P52 P75 P74.
    assert (M1 : g * p53 <= a * p53) by (apply Qmult_le_compat_r; lra).
    assert (M2 : g * p52 <= a * p52) by (apply Qmult_le_compat_r; lra).
    split; [lra | split; [intros _; lra | lra]].
  - assert (E : ue = (-1074)%Z) by (unfold ue; lia).
    rewrite E. change (-1074 - 1)%Z with (-1075)%Z.
    pose proof (pow2_pos (-53)) as P53. pose proof (pow2_pos (-52)) as P52.
    split; [|split].
    + assert (0 <= a * pow2 (-53)) by nra. lra.
    + intros Hn. exfalso.
      assert (Hle : pow2 (ilog2 a + 1) <= pow2 (-1022))
        by (apply pow2_le; lia).
      lra.
    + assert (0 <= a * pow2 (-52)) by nra. lra.
Qed.

(** Rounding a rational that does not overflow gives a finite number, off
    the rational by at most its relative error bound and the least one;
    and by the relative error bound alone in the normal range. *)
Lemma round64_error (q : Q) :
  Qabs q <= pow2 1023 ->
  exists r,
    value (round64 q) = Some r /\
    Qabs (r - q) <= Qabs q * pow2 (-53) + pow2 (-1075) /\
    (pow2 (-1022) <= Qabs q -> Qabs (r - q) <= Qabs q * pow2 (-53)).
Proof.
  intros Hq.
  destruct (round64_cases q) as [[E ->]|(a & m & ue & Hq0 & Ea & Ha & -> & -> & ->)].
  { exists 0. split; [reflexivity|]. rewrite E.
    split; [vm_compute; discriminate|]. intros H. exfalso.
    apply (Qlt_not_le 0 (pow2 (-1022))); [reflexivity | exact H]. }
  set (ue := Z.max (ilog2 a - 52) (-1074)).
  set (m := roundHalfEven (a / pow2 ue)).
  pose proof (pow2_pos ue) as Hp.
  destruct (half_ulp Ha) as (B1 & B2 & _). fold ue in B1, B2.
  pose proof (roundHalfEven_near (a / pow2 ue)) as Hm. fold m in Hm.
  assert (Hd : Qabs (inject_Z m * pow2 ue - a) <= pow2 (ue - 1)).
  { rewrite pow2_half.
    assert (E : inject_Z m * pow2 ue - a
                == (inject_Z m - a / pow2 ue) * pow2 ue) by (field; lra).
    rewrite E, Qabs_Qmult, (Qabs_pos (pow2 ue)) by lra.
    revert Hm. generalize (Qabs (inject_Z m - a / pow2 ue)). intros. nra. }
  assert (Hq' : a <= pow2 1023) by (rewrite Ea; exact Hq).
  (* the error of the magnitude is that of the number *)
  assert (Hsign : forall y,
             y == (if Qltb q 0 then -1 else 1) * (inject_Z m * pow2 ue) ->
             Qabs (y - q) == Qabs (inject_Z m * pow2 ue - a)).
  { intros y Ey. unfold Qltb in Ey.
    destruct (Qcompare_spec q 0) as [E|E|E]; [contradiction| |].
    - rewrite Qabs_neg in Ea by lra.
      assert (Ey' : y - q == - (inject_Z m * pow2 ue - a))
        by (rewrite Ey, Ea; ring).
      rewrite Ey'. apply Qabs_opp.
    - rewrite Qabs_pos in Ea by lra.
      assert (Ey' : y - q == inject_Z m * pow2 ue - a)
        by (rewrite Ey, Ea; ring).
      now rewrite Ey'. }
  destruct (m =? 0)%Z eqn:Em.
  - apply Z.eqb_eq in Em. exists 0. split; [apply value_zero|].
    assert (E0 : Qabs (0 - q) == Qabs (inject_Z m * pow2 ue - a)).
    { rewrite Em. assert (E1 : 0 - q == - q) by ring.
      assert (E2 : inject_Z 0 * pow2 ue - a == - a) by ring.
      rewrite E1, E2, !Qabs_opp, (Qabs_pos a) by lra. now symmetry. }
    rewrite E0, <- Ea. split; [lra|]. intros Hn. specialize (B2 Hn). lra.
  - assert (Hov : Qle_bool (pow2 1024) (inject_Z m * pow2 ue) = false).
    { destruct (Qle_bool (pow2 1024) (inject_Z m * pow2 ue)) eqn:Eo;
        [|reflexivity].
      exfalso. apply Qle_bool_iff in Eo.
      apply Qabs_Qle_condition in Hd.
      assert (Hu : a * pow2 (-53) <= a * (1 # 4)).
      { apply Qmult_le_l; [exact Ha | discriminate]. }
      assert (H1 : pow2 1024 == 2 * pow2 1023) by reflexivity.
      assert (H2 : pow2 (-1075) < pow2 1023 * (1 # 2)) by reflexivity.
      pose proof (pow2_pos 1023) as H3.
      revert Eo Hd B1 Hu H1 H2 H3 Hq'.
      generalize (inject_Z m * pow2 ue) (pow2 (ue - 1)) (a * pow2 (-53))
                 (pow2 1024) (pow2 1023) (pow2 (-1075)).
      intros. lra. }
    rewrite Hov.
    eexists. split; [reflexivity|].
    rewrite (Hsign _ (Qred_correct _)), <- Ea.
    split; [lra|]. intros Hn. specialize (B2 Hn). lra.
Qed.

(** ** The error of a quotient and of a product *)

Lemma div_error (x y : number) (vx vy : Q) :
  value x = Some vx -> value y = Some vy -> ~ vy == 0 ->
  Qabs (vx / vy) <= pow2 1023 ->
  exists r,
    value (div x y) = Some r /\
    Qabs (r - vx / vy) <= Qabs (vx / vy) * pow2 (-53) + pow2 (-1075) /\
    (pow2 (-1022) <= Qabs (vx / vy) ->
     Qabs (r - vx / vy) <= Qabs (vx / vy) * pow2 (-53)).
Proof.
  intros Hx Hy Hy0 Hb. unfold div.
  destruct (value_classify _ Hy) as [[E _]|[_ ->]]; [contradiction|].
  destruct (value_classify _ Hx) as [[E (s & -> & _)]|[_ ->]].
  - exists 0. split; [apply value_zero|].
    assert (E0 : vx / vy == 0) by (rewrite E; field; exact Hy0).
    rewrite E0. split; [vm_compute; discriminate|]. intros H. exfalso.
    apply (Qlt_not_le 0 (pow2 (-1022))); [reflexivity | exact H].
  - now apply round64_error.
Qed.

Lemma mul_error (x y : number) (vx vy : Q) :
  value x = Some vx -> value y = Some vy ->
  Qabs (vx * vy) <= pow2 1023 ->
  exists r,
    value (mul x y) = Some r /\
    Qabs (r - vx * vy) <= Qabs (vx * vy) * pow2 (-53) + pow2 (-1075) /\
    (pow2 (-1022) <= Qabs (vx * vy) ->
     Qabs (r - vx * vy) <= Qabs (vx * vy) * pow2 (-53)).
Proof.
  intros Hx Hy Hb. unfold mul.
  assert (Hz : vx * vy == 0 ->
               exists r,
                 value (zero (xorb (signBit x) (signBit y))) = Some r /\
                 Qabs (r - vx * vy)
                 <= Qabs (vx * vy) * pow2 (-53) + pow2 (-1075) /\
                 (pow2 (-1022) <= Qabs (vx * vy) ->
                  Qabs (r - vx * vy) <= Qabs (vx * vy) * pow2 (-53))).
  { intros E0. exists 0. split; [apply value_zero|]. rewrite E0.
    split; [vm_compute; discriminate|]. intros H. exfalso.
    apply (Qlt_not_le 0 (pow2 (-1022))); [reflexivity | exact H]. }
  destruct (value_classify _ Hx) as [[Ex (s & -> & _)]|[_ ->]];
  destruct (value_classify _ Hy) as [[Ey (s' & -> & _)]|[_ ->]].
  - apply Hz. rewrite Ex. ring.
  - apply Hz. rewrite Ex. ring.
  - apply Hz. rewrite Ey. ring.
  - now apply round64_error.
Qed.

(** ** From a logarithm to cents *)

(** The cents of a rational logarithm of magnitude up to 746: divided by
    [Math.LN2] and multiplied by 1200, with the three roundings, they are
    off the exact quotient and product by less than half a billionth. *)
Lemma cents_error (l : Q) :
  Qabs l <= 746 ->
  exists c,
    value (mul (num 1200) (div (round64 l) JSMath.LN2)) = Some c /\
    Qabs (c - 1200 * (l / (6243314768165359 # 9007199254740992)))
    <= 45 # 100000000000.
Proof.
  intros Hl.
  assert (P0 : 2000000 <= pow2 1023) by (vm_compute; discriminate).
  assert (P3 : pow2 (-1075) <= 1 # 9007199254740992)
    by (vm_compute; discriminate).
  pose proof (pow2_pos (-1075)) as P4.
  pose proof (Qabs_nonneg l) as A0.
  destruct (@round64_error l ltac:(lra)) as (l1 & H1 & E1 & _).
  change (pow2 (-53)) with (1 # 9007199254740992) in E1.
  assert (B1 : Qabs l1 <= 747).
  { apply Qabs_Qle_condition. apply Qabs_Qle_condition in E1.
    pose proof (Qle_Qabs l) as X1. pose proof (Qle_Qabs (- l)) as X2.
    rewrite Qabs_opp in X2.
    revert E1 X1 X2 A0 Hl P3 P4. generalize (Qabs l) (pow2 (-1075)).
    intros. lra. }
  set (K := 6243314768165359 # 9007199254740992).
  assert (HK : value JSMath.LN2 = Some K) by reflexivity.
  assert (HK0 : ~ K == 0) by discriminate.
  assert (EK : forall x, x / K == x * (9007199254740992 # 6243314768165359)).
  { intros x. unfold K. field. }
  assert (B1' : Qabs (l1 / K) <= 1078).
  { rewrite EK, Qabs_Qmult.
    change (Qabs (9007199254740992 # 6243314768165359))
      with (9007199254740992 # 6243314768165359).
    revert B1. generalize (Qabs l1). intros. lra. }
  destruct (@div_error (round64 l) JSMath.LN2 l1 K H1 HK HK0 ltac:(lra))
    as (l2 & H2 & E2 & _).
  change (pow2 (-53)) with (1 # 9007199254740992) in E2.
  assert (B2 : Qabs l2 <= 1079).
  { apply Qabs_Qle_condition. apply Qabs_Qle_condition in E2.
    pose proof (Qle_Qabs (l1 / K)) as X1.
    pose proof (Qle_Qabs (- (l1 / K))) as X2. rewrite Qabs_opp in X2.
    pose proof (Qabs_nonneg (l1 / K)) as A1.
    revert E2 X1 X2 A1 B1' P3 P4.
    generalize (Qabs (l1 / K)) (l1 / K) (pow2 (-1075)). intros. lra. }
  assert (B2' : Qabs (1200 * l2) <= pow2 1023).
  { rewrite Qabs_Qmult. change (Qabs 1200) with 1200.
    revert B2. generalize (Qabs l2). intros. lra. }
  destruct (@mul_error (num 1200) (div (round64 l) JSMath.LN2) 1200 l2
              eq_refl H2 B2') as (c & Hc & E3 & _).
  change (pow2 (-53)) with (1 # 9007199254740992) in E3.
  exists c. split; [exact Hc|].
  rewrite Qabs_Qmult in E3. change (Qabs 1200) with 1200 in E3.
  apply Qabs_Qle_condition in E1. apply Qabs_Qle_condition in E2.
  apply Qabs_Qle_condition in E3. apply Qabs_Qle_condition.
  rewrite !EK in *.
  revert E1 E2 E3 A0 Hl B1 B1' B2 P3 P4.
  rewrite Qabs_Qmult.
  change (Qabs (9007199254740992 # 6243314768165359))
    with (9007199254740992 # 6243314768165359).
  generalize (Qabs l) (Qabs l1) (Qabs l2) (pow2 (-1075)).
  intros al al1 al2 e E1 E2 E3 A0 Hl B1 B1' B2 P3 P4. lra.
Qed.

End ErrorFacts.

Module AngleClaims.
Import JSString JSNumber JSConv RegExp SVG Utils_js Vocabulary.
Import LayoutFacts NumberFacts RoundFacts ErrorFacts.
Local Open Scope Q_scope.

(** The angle the code computes is the exact angle less a whole number of
    turns, up to the rounding of the quotient and of its product with
    360. *)
Lemma angle_error (c p : number) (vc vp : Q) :
  value c = Some vc -> value p = Some vp -> ~ vp == 0 ->
  Qabs (vc / vp) <= pow2 1000 ->
  exists (d : Q) (t : Z),
    value (angleDeg c p) = Some d /\ -360 < d < 360 /\
    Qabs (d - (360 * (vc / vp) - 360 * inject_Z t))
    <= 360 * (Qabs (vc / vp) + 1) * pow2 (-51).
Proof.
  intros Hc Hp Hp0 Hx. unfold angleDeg.
  assert (P1 : 2 <= pow2 1000) by (vm_compute; discriminate).
  assert (P2 : 1024 * pow2 1000 <= pow2 1023) by (vm_compute; discriminate).
  assert (P3 : pow2 (-1075) <= 1 # 9007199254740992)
    by (vm_compute; discriminate).
  pose proof (pow2_pos (-1075)) as P4.
  destruct (@div_error c p vc vp Hc Hp Hp0 ltac:(lra)) as (q1 & Hq1 & E1 & _).
  set (x := vc / vp) in *.
  pose proof (Qabs_nonneg x) as A0.
  apply Qabs_Qle_condition in E1.
  change (pow2 (-53)) with (1 # 9007199254740992) in E1.
  assert (Hq1b : Qabs (q1 * 360) <= pow2 1023).
  { assert (B : Qabs q1 <= 2 * pow2 1000 + 1).
    { apply Qabs_Qle_condition.
      pose proof (Qle_Qabs x) as X1. pose proof (Qle_Qabs (- x)) as X2.
      rewrite Qabs_opp in X2.
      revert E1 X1 X2 A0 Hx P1 P3 P4.
      generalize (Qabs x) (pow2 1000) (pow2 (-1075)). intros. lra. }
    rewrite Qabs_Qmult. change (Qabs 360) with 360.
    revert B P1 P2. generalize (Qabs q1) (pow2 1000) (pow2 1023).
    intros. lra. }
  destruct (@mul_error (div c p) (num 360) q1 360 Hq1 eq_refl Hq1b)
    as (m & Hm & E2 & _).
  destruct (rem_360 _ Hm) as (d & Hd & Ed & Rd & _).
  exists d, (Qtrunc (m / 360)). split; [exact Hd|]. split; [exact Rd|].
  apply Qabs_Qle_condition in E2.
  change (pow2 (-53)) with (1 # 9007199254740992) in E2.
  change (pow2 (-51)) with (1 # 2251799813685248).
  rewrite Qabs_Qmult in E2. change (Qabs 360) with 360 in E2.
  assert (B : Qabs q1 <= Qabs x * (1 + (1 # 9007199254740992)) + pow2 (-1075)).
  { apply Qabs_Qle_condition.
    pose proof (Qle_Qabs x) as X1. pose proof (Qle_Qabs (- x)) as X2.
    rewrite Qabs_opp in X2.
    revert E1 X1 X2 A0. generalize (Qabs x) (pow2 (-1075)). intros. lra. }
  pose proof (Qabs_nonneg q1) as A1.
  apply Qabs_Qle_condition.
  revert E1 E2 B A0 A1 P3 P4 Ed.
  generalize (Qabs x) (Qabs q1) (pow2 (-1075)) (inject_Z (Qtrunc (m / 360))).
  intros ax aq e t E1 E2 B A0 A1 P3 P4 Ed. rewrite Ed. lra.
Qed.

(** C3, as the code has it.  Shifting the cents by whole periods moves
    the angle by whole turns, up to the rounding of the two quotients and
    of their products with 360: when [cents + k * period] is a number and
    neither quotient overflows, the angles of [cents] and of
    [cents + k * period] are finite, each is less than 360 degrees in
    magnitude, and they differ by a multiple of 360 degrees, up to
    360 * (|cents / period| + |cents / period + k| + 2) * 2^-51
    degrees. *)
Theorem angle_periodic_rounding (c c' p : number) (vc vp : Q) (k : Z) :
  value c = Some vc -> value p = Some vp -> ~ vp == 0 ->
  denotes c' (vc + inject_Z k * vp) ->
  Qabs (vc / vp) <= pow2 1000 ->
  Qabs (vc / vp + inject_Z k) <= pow2 1000 ->
  exists (d d' : Q) (j : Z),
    value (angleDeg c p) = Some d /\
    value (angleDeg c' p) = Some d' /\
    -360 < d < 360 /\ -360 < d' < 360 /\
    Qabs (d' - d - 360 * inject_Z j)
    <= 360 * (Qabs (vc / vp) + Qabs (vc / vp + inject_Z k) + 2)
       * pow2 (-51).
Proof.
  intros Hc Hp Hp0 (vc' & Hc' & Ec') Hx Hx'.
  assert (Ex' : vc' / vp == vc / vp + inject_Z k)
    by (rewrite Ec'; field; exact Hp0).
  destruct (@angle_error c p vc vp Hc Hp Hp0 Hx) as (d & t & Hd & Rd & Bd).
  destruct (@angle_error c' p vc' vp Hc' Hp Hp0 ltac:(now rewrite Ex'))
    as (d' & t' & Hd' & Rd' & Bd').
  exists d, d', (k - t' + t)%Z. split; [exact Hd|]. split; [exact Hd'|].
  split; [exact Rd|]. split; [exact Rd'|].
  rewrite Ex' in Bd'.
  unfold Z.sub. rewrite !inject_Z_plus, inject_Z_opp.
  apply Qabs_Qle_condition in Bd. apply Qabs_Qle_condition in Bd'.
  apply Qabs_Qle_condition.
  change (pow2 (-51)) with (1 # 2251799813685248) in *.
  revert Bd Bd'.
  generalize (Qabs (vc / vp)) (Qabs (vc / vp + inject_Z k)) (vc / vp)
             (inject_Z k) (inject_Z t) (inject_Z t').
  intros. lra.
Qed.

Lemma angle_periodic_rounding_witness :
  value (num 1) = Some 1 /\ value (num 1200) = Some 1200 /\ ~ 1200 == 0 /\
  denotes (add (num 1) (mul (num 1) (num 1200))) (1 + inject_Z 1 * 1200) /\
  Qabs (1 / 1200) <= pow2 1000 /\
  Qabs (1 / 1200 + inject_Z 1) <= pow2 1000 /\
  exists (d d' : Q) (j : Z),
    value (angleDeg (num 1) (num 1200)) = Some d /\
    value (angleDeg (add (num 1) (mul (num 1) (num 1200))) (num 1200))
    = Some d' /\
    -360 < d < 360 /\ -360 < d' < 360 /\
    Qabs (d' - d - 360 * inject_Z j)
    <= 360 * (Qabs (1 / 1200) + Qabs (1 / 1200 + inject_Z 1) + 2)
       * pow2 (-51).
Proof.
  assert (H1 : value (num 1) = Some 1) by reflexivity.
  assert (H2 : value (num 1200) = Some 1200) by reflexivity.
  assert (H3 : ~ 1200 == 0) by discriminate.
  assert (H4 : denotes (add (num 1) (mul (num 1) (num 1200)))
                 (1 + inject_Z 1 * 1200))
    by (eexists; split; [vm_compute|]; reflexivity).
  assert (H5 : Qabs (1 / 1200) <= pow2 1000) by (vm_compute; discriminate).
  assert (H6 : Qabs (1 / 1200 + inject_Z 1) <= pow2 1000)
    by (vm_compute; discriminate).
  repeat (split; [assumption|]).
  exact (@angle_periodic_rounding _ _ _ 1 1200 1 H1 H2 H3 H4 H5 H6).
Defined.

End AngleClaims.

(* ================================================================== *)
(** * Part XV. The logarithm, and the cents of a ratio *)
(* ================================================================== *)

Module ShapeFacts.
Import JSString JSNumber JSConv RegExp Vocabulary.
Import LayoutFacts NumberFacts RoundFacts ErrorFacts.
Local Open Scope Q_scope.

Lemma Qred_size (x : Q) :
  (Z.abs (Qnum (Qred x)) <= Z.abs (Qnum x))%Z /\
  (Z.pos (Qden (Qred x)) <= Z.pos (Qden x))%Z.
Proof.
  destruct x as [n d]. unfold Qred.
  pose proof (Z.ggcd_correct_divisors n (Z.pos d)) as Hd.
  pose proof (Z.ggcd_gcd n (Z.pos d)) as Hg.
  pose proof (Z.gcd_nonneg n (Z.pos d)) as Hg0.
  destruct (Z.ggcd n (Z.pos d)) as [g [n' d']]. cbn [fst snd] in *.
  destruct Hd as [En Ed]. cbn [Qnum Qden].
  assert (Hg1 : (0 < g)%Z).
  { destruct (Z.eq_dec g 0) as [E0|]; [|lia]. rewrite E0 in Ed. lia. }
  assert (Hd' : (0 < d')%Z) by nia.
  rewrite Z2Pos.id by exact Hd'. split; nia.
Qed.

Lemma round64_rounded (x : Q) : rounded (round64 x).
Proof.
  intros q Hq Hq0.
  destruct (round64_cases x) as [[_ E]|(a & m & ue & Hx0 & Ea & Ha & -> & -> & E)];
    rewrite E in Hq.
  { injection Hq as <-. exfalso. now apply Hq0. }
  clear E. set (ue := Z.max (ilog2 a - 52) (-1074)) in *.
  set (m := roundHalfEven (a / pow2 ue)) in *.
  pose proof (pow2_pos ue) as Hp.
  assert (Hm0 : (0 <= m)%Z).
  { apply roundHalfEven_ge. apply Qle_shift_div_l; [exact Hp|].
    change (inject_Z 0) with 0. rewrite Qmult_0_l. now apply Qlt_le_weak. }
  destruct (m =? 0)%Z eqn:Em.
  { rewrite value_zero in Hq. injection Hq as <-. exfalso. now apply Hq0. }
  apply Z.eqb_neq in Em.
  destruct (Qle_bool (pow2 1024) (inject_Z m * pow2 ue)) eqn:Eo.
  { destruct (Qltb x 0); discriminate Hq. }
  injection Hq as <-.
  assert (Ho : inject_Z m * pow2 ue < pow2 1024).
  { apply Qnot_le_lt. intros H. apply Qle_bool_iff in H. congruence. }
  assert (Hm1 : 1 <= inject_Z m).
  { change 1 with (inject_Z 1). rewrite <- Zle_Qle. lia. }
  set (s := if Qltb x 0 then -1 else 1).
  assert (Eabs : Qabs (Qred (s * (inject_Z m * pow2 ue)))
                 == inject_Z m * pow2 ue).
  { rewrite Qred_correct, Qabs_Qmult.
    rewrite (Qabs_pos (inject_Z m * pow2 ue)) by nra.
    unfold s. destruct (Qltb x 0); cbn [Qabs Z.abs Qnum Qden]; ring. }
  split; [|split].
  - rewrite Eabs.
    assert (H74 : pow2 (-1074) <= pow2 ue) by (apply pow2_le; lia).
    nra.
  - now rewrite Eabs.
  - destruct (Qred_size (s * (inject_Z m * pow2 ue))) as [Sn Sd].
    assert (Hs : (Z.abs (Qnum (s * (inject_Z m * pow2 ue)))
                  = m * Qnum (pow2 ue))%Z).
    { unfold s. destruct (Qltb x 0); cbn [Qmult Qnum Qden inject_Z];
        assert (0 < Qnum (pow2 ue))%Z
          by (pose proof Hp as Hp'; unfold Qlt in Hp'; simpl in Hp'; lia);
        nia. }
    assert (Hd : Z.pos (Qden (s * (inject_Z m * pow2 ue)))
                 = Z.pos (Qden (pow2 ue))).
    { unfold s. destruct (Qltb x 0); reflexivity. }
    rewrite Hs in Sn. rewrite Hd in Sd.
    assert (Hsz : (m * Qnum (pow2 ue) < 2 ^ 2100)%Z /\
                  (Z.pos (Qden (pow2 ue)) < 2 ^ 2100)%Z).
    { destruct (Z_le_gt_dec 0 ue) as [Hu|Hu].
      - rewrite pow2_nonneg in * by exact Hu. cbn [Qnum Qden inject_Z].
        split; [|reflexivity].
        rewrite <- inject_Z_mult in Ho.
        change (pow2 1024) with (inject_Z (2 ^ 1024)) in Ho.
        rewrite <- Zlt_Qlt in Ho.
        assert ((2 ^ 1024 < 2 ^ 2100)%Z) by reflexivity. lia.
      - destruct ue as [|p|p] eqn:Eu; try lia.
        cbn [pow2 Qnum Qden]. rewrite Pos2Z.inj_pow.
        assert (Hp74 : (Z.pos p <= 1074)%Z) by (unfold ue in Eu; lia).
        assert (Hpw : (2 ^ Z.pos p <= 2 ^ 1074)%Z)
          by (apply Z.pow_le_mono_r; lia).
        assert ((2 ^ 1074 < 2 ^ 2100)%Z) by reflexivity.
        split; [|lia].
        assert (Hm' : inject_Z m < pow2 1024 * inject_Z (2 ^ Z.pos p)).
        { assert (E1 : pow2 (Z.neg p) * inject_Z (2 ^ Z.pos p) == 1).
          { rewrite <- pow2_nonneg, <- pow2_plus by lia.
            replace (Z.neg p + Z.pos p)%Z with 0%Z by lia. reflexivity. }
          assert (0 < inject_Z (2 ^ Z.pos p)).
          { change 0 with (inject_Z 0). rewrite <- Zlt_Qlt.
            apply Z.pow_pos_nonneg; lia. }
          revert Ho E1 H0.
          generalize (inject_Z m) (pow2 (Z.neg p)) (pow2 1024)
                     (inject_Z (2 ^ Z.pos p)).
          intros M p2 P I Ho E1 HI.
          assert (E2 : M == M * p2 * I) by (rewrite <- Qmult_assoc, E1; ring).
          rewrite E2. now apply Qmult_lt_r. }
        change (pow2 1024) with (inject_Z (2 ^ 1024)) in Hm'.
        rewrite <- inject_Z_mult, <- Zlt_Qlt in Hm'.
        assert ((2 ^ 1024 * 2 ^ 1074 < 2 ^ 2100)%Z) by reflexivity.
        nia. }
    split; [eapply Z.le_lt_trans; [exact Sn | apply Hsz]
           | eapply Z.le_lt_trans; [exact Sd | apply Hsz]].
Qed.

Lemma neg_rounded (x : number) : rounded x -> rounded (neg x).
Proof.
  intros Hx q Hq Hq0. destruct x as [| | | |v]; try discriminate.
  - injection Hq as <-. exfalso. now apply Hq0.
  - cbn [neg] in Hq. destruct (Qeq_bool v 0) eqn:E.
    + injection Hq as <-. exfalso. now apply Hq0.
    + injection Hq as <-. apply Qeq_bool_neq in E.
      destruct (Hx v eq_refl E) as (H1 & H2 & H3 & H4).
      unfold sized. rewrite Qabs_opp. repeat split; try assumption.
      destruct v as [n d]. cbn [Qopp Qnum] in *. lia.
Qed.

Lemma special_rounded (x : number) : value x = None -> rounded x.
Proof. intros E q Hq. congruence. Qed.

Lemma zero_rounded (s : bool) : rounded (zero s).
Proof.
  intros q Hq Hq0. rewrite value_zero in Hq. injection Hq as <-.
  exfalso. now apply Hq0.
Qed.

Lemma div_rounded (x y : number) : rounded (div x y).
Proof.
  unfold div.
  destruct (classify x) as [|sx|sx|vx], (classify y) as [|sy|sy|vy];
    try (now apply special_rounded); try apply zero_rounded;
    try apply round64_rounded;
    try (destruct (xorb _ _); now apply special_rounded).
Qed.

Lemma parseUnsignedDecimal_rounded (s : jsstring) (v : number)
    (rest : jsstring) :
  parseUnsignedDecimal s = Some (v, rest) -> rounded v.
Proof.
  unfold parseUnsignedDecimal.
  destruct (startsWith s (str "Infinity")).
  { intros H. injection H as <- _. now apply special_rounded. }
  destruct (span isDigit s) as [ip r1].
  destruct (match r1 with
            | [] => (false, [], r1)
            | c :: r =>
                if (c =? POINT)%N
                then let (fp, r') := span isDigit r in (true, fp, r')
                else (false, [], r1)
            end) as [[dot fp] r2].
  destruct (isEmpty ip && isEmpty fp); [discriminate|].
  destruct (parseExponent r2) as [e rest0].
  intros H. injection H as <- _. apply round64_rounded.
Qed.

Lemma parseDecimal_rounded (s : jsstring) (v : number) (rest : jsstring) :
  parseDecimal s = Some (v, rest) -> rounded v.
Proof.
  unfold parseDecimal. destruct s as [|c r]; [discriminate|].
  destruct (c =? PLUS)%N; [apply parseUnsignedDecimal_rounded|].
  destruct (c =? MINUS)%N; [|apply parseUnsignedDecimal_rounded].
  destruct (parseUnsignedDecimal r) as [[v' rest']|] eqn:E; [|discriminate].
  intros H. injection H as <- _. apply neg_rounded.
  now apply parseUnsignedDecimal_rounded in E.
Qed.

Lemma parseNonDecimal_rounded (s : jsstring) (v : number) :
  parseNonDecimal s = Some v -> rounded v.
Proof.
  unfold parseNonDecimal. destruct s as [|z [|p ds]]; try discriminate.
  match goal with |- context [if ?b then _ else _] => destruct b end;
    [|discriminate].
  intros H. injection H as <-. apply round64_rounded.
Qed.

Lemma Number_rounded (s : jsstring) : rounded (Number s).
Proof.
  unfold Number. destruct (isEmpty (trim s)).
  { intros q Hq Hq0. injection Hq as <-. exfalso. now apply Hq0. }
  destruct (parseNonDecimal (trim s)) as [v|] eqn:E1.
  { now apply parseNonDecimal_rounded in E1. }
  destruct (parseDecimal (trim s)) as [[v [|x rest]]|] eqn:E2;
    try (now apply special_rounded).
  now apply parseDecimal_rounded in E2.
Qed.

(** The ratio of a valid ratio token is such a number. *)
Lemma RatioToken_rounded (token : jsstring) (r : number) :
  RatioToken token r -> rounded r.
Proof.
  intros [a b _ _ _ _ _ | s _ _ _]; [apply div_rounded | apply Number_rounded].
Qed.

End ShapeFacts.

Module LogAnalysis.
Import Reals Lra Qreals Analysis.
Local Open Scope R_scope.

Lemma lim_value (f : R -> R) (x l l' : R) :
  l = l' -> derivable_pt_lim f x l -> derivable_pt_lim f x l'.
Proof. now intros ->. Qed.

Lemma atanh_lim (c : R) :
  -1 < c < 1 -> derivable_pt_lim atanh c (/ (1 - c * c)).
Proof.
  intros Hc.
  assert (H1 : derivable_pt_lim (fun t => 1 + t) c (0 + 1)).
  { exact (derivable_pt_lim_plus (fct_cte 1) id c 0 1
             (derivable_pt_lim_const 1 c) (derivable_pt_lim_id c)). }
  assert (H2 : derivable_pt_lim (fun t => 1 - t) c (0 - 1)).
  { exact (derivable_pt_lim_minus (fct_cte 1) id c 0 1
             (derivable_pt_lim_const 1 c) (derivable_pt_lim_id c)). }
  assert (L1 : derivable_pt_lim (fun t => ln (1 + t)) c (/ (1 + c) * (0 + 1))).
  { exact (derivable_pt_lim_comp (fun t => 1 + t) ln c (0 + 1) (/ (1 + c))
             H1 (derivable_pt_lim_ln (1 + c) ltac:(lra))). }
  assert (L2 : derivable_pt_lim (fun t => ln (1 - t)) c (/ (1 - c) * (0 - 1))).
  { exact (derivable_pt_lim_comp (fun t => 1 - t) ln c (0 - 1) (/ (1 - c))
             H2 (derivable_pt_lim_ln (1 - c) ltac:(lra))). }
  apply lim_value
    with (l := / 2 * (/ (1 + c) * (0 + 1) - / (1 - c) * (0 - 1))).
  { field. split; nra. }
  exact (derivable_pt_lim_scal
           (fun t => ln (1 + t) - ln (1 - t)) (/ 2) c _
           (derivable_pt_lim_minus _ _ c _ _ L1 L2)).
Qed.

Lemma atanhSum_lim (n k : nat) (c : R) :
  derivable_pt_lim (atanhSum n k) c (evenSum n k c).
Proof.
  revert k. induction n as [|n IH]; intros k.
  - exact (derivable_pt_lim_const 0 c).
  - assert (INR (S (2 * k)) <> 0) by (apply not_0_INR; discriminate).
    apply lim_value
      with (l := / INR (S (2 * k)) * (INR (S (2 * k)) * c ^ (2 * k))
                 + evenSum n (S k) c).
    { cbn [evenSum]. field. assumption. }
    exact (derivable_pt_lim_plus
             (mult_real_fct (/ INR (S (2 * k))) (fun y => y ^ S (2 * k)))
             (atanhSum n (S k)) c _ _
             (derivable_pt_lim_scal _ _ c _
                (derivable_pt_lim_pow c (S (2 * k))))
             (IH (S k))).
Qed.

Lemma evenSum_geom (n k : nat) (t : R) :
  (1 - t * t) * evenSum n k t = t ^ (2 * k) - t ^ (2 * (k + n)).
Proof.
  revert k. induction n as [|n IH]; intros k.
  - cbn [evenSum]. replace (k + 0)%nat with k by lia. ring.
  - cbn [evenSum]. rewrite Rmult_plus_distr_l, IH.
    replace (2 * (k + S n))%nat with (2 * (S k + n))%nat by lia.
    replace (2 * S k)%nat with (S (S (2 * k))) by lia.
    cbn [pow]. ring.
Qed.

Lemma evenSum_closed (n : nat) (t : R) :
  0 < 1 - t * t -> evenSum n 0 t = (1 - t ^ (2 * n)) / (1 - t * t).
Proof.
  intros Ht. pose proof (evenSum_geom n 0 t) as Hg.
  change (t ^ (2 * 0)) with 1 in Hg. change (0 + n)%nat with n in Hg.
  rewrite <- Hg. field. lra.
Qed.

Lemma atanhSum_0 (n k : nat) : atanhSum n k 0 = 0.
Proof.
  revert k. induction n as [|n IH]; intros k; [reflexivity|].
  cbn [atanhSum]. rewrite IH, pow_ne_zero by discriminate. ring.
Qed.

Lemma atanh_0 : atanh 0 = 0.
Proof.
  unfold atanh. replace (1 + 0) with 1 by ring. replace (1 - 0) with 1 by ring.
  rewrite ln_1. ring.
Qed.

Lemma pow_even_nonneg (t : R) (n : nat) : 0 <= t ^ (2 * n).
Proof. rewrite pow_mult. apply pow_le. nra. Qed.

(** The partial sums are below the function, *)
Lemma atanhSum_le (n : nat) (t : R) :
  0 <= t < 1 -> atanhSum n 0 t <= atanh t.
Proof.
  intros [[Ht|<-] Ht1]; [|rewrite atanhSum_0, atanh_0; lra].
  destruct (MVT_cor2 (fun x => atanh x - atanhSum n 0 x)
              (fun c => / (1 - c * c) - evenSum n 0 c) 0 t Ht)
    as (c & E & Hc).
  { intros c Hc.
    exact (derivable_pt_lim_minus atanh (atanhSum n 0) c _ _
             (@atanh_lim c ltac:(lra)) (atanhSum_lim n 0 c)). }
  rewrite atanhSum_0, atanh_0 in E.
  assert (Hs : 0 < 1 - c * c) by nra.
  assert (D : / (1 - c * c) - evenSum n 0 c = c ^ (2 * n) * / (1 - c * c)).
  { rewrite evenSum_closed by lra. field. lra. }
  rewrite D in E.
  assert (0 <= c ^ (2 * n) * / (1 - c * c) * (t - 0)).
  { apply Rmult_le_pos; [|lra]. apply Rmult_le_pos.
    - apply pow_even_nonneg.
    - left. now apply Rinv_0_lt_compat. }
  lra.
Qed.

(** and above it less a power of the argument, up to one third. *)
Lemma atanh_le (n : nat) (t : R) :
  (1 <= n)%nat -> 0 <= t <= / 3 ->
  atanh t <= atanhSum n 0 t + t ^ S (2 * n).
Proof.
  intros Hn [[Ht|<-] Ht1];
    [|rewrite atanhSum_0, atanh_0, pow_ne_zero by discriminate; lra].
  destruct (MVT_cor2 (fun x => atanhSum n 0 x + x ^ S (2 * n) - atanh x)
              (fun c => evenSum n 0 c + INR (S (2 * n)) * c ^ (2 * n)
                        - / (1 - c * c)) 0 t Ht)
    as (c & E & Hc).
  { intros c Hc.
    exact (derivable_pt_lim_minus
             (atanhSum n 0 + (fun y => y ^ S (2 * n)))%F atanh c _ _
             (derivable_pt_lim_plus _ _ c _ _ (atanhSum_lim n 0 c)
                (derivable_pt_lim_pow c (S (2 * n))))
             (@atanh_lim c ltac:(lra))). }
  rewrite atanhSum_0, atanh_0, pow_ne_zero in E by discriminate.
  assert (Hs : 8 / 9 <= 1 - c * c) by nra.
  assert (Hi : / (1 - c * c) <= 9 / 8).
  { apply Rmult_le_reg_l with (1 - c * c); [lra|].
    rewrite Rinv_r by lra. nra. }
  assert (D : evenSum n 0 c + INR (S (2 * n)) * c ^ (2 * n) - / (1 - c * c)
              = c ^ (2 * n) * (INR (S (2 * n)) - / (1 - c * c))).
  { rewrite evenSum_closed by lra. field. lra. }
  rewrite D in E.
  assert (H3 : 3 <= INR (S (2 * n))).
  { replace 3 with (INR 3) by (simpl; lra). apply le_INR. lia. }
  assert (0 <= c ^ (2 * n) * (INR (S (2 * n)) - / (1 - c * c)) * (t - 0)).
  { apply Rmult_le_pos; [|lra]. apply Rmult_le_pos.
    - apply pow_even_nonneg.
    - lra. }
  lra.
Qed.

(** It grows, by at most nine eighths of the step up to one third. *)
Lemma atanh_step (s t : R) :
  0 <= s <= t -> t <= / 3 ->
  atanh s <= atanh t <= atanh s + 9 / 8 * (t - s).
Proof.
  intros [Hs [Hst|<-]] Ht; [|lra].
  destruct (MVT_cor2 atanh (fun c => / (1 - c * c)) s t Hst) as (c & E & Hc).
  { intros c Hc. apply atanh_lim. lra. }
  assert (Hs' : 8 / 9 <= 1 - c * c) by nra.
  assert (Hi : / (1 - c * c) <= 9 / 8).
  { apply Rmult_le_reg_l with (1 - c * c); [lra|].
    rewrite Rinv_r by lra. nra. }
  assert (Hp : 0 < / (1 - c * c)) by (apply Rinv_0_lt_compat; lra).
  assert (0 <= / (1 - c * c) * (t - s)) by (apply Rmult_le_pos; lra).
  assert (/ (1 - c * c) * (t - s) <= 9 / 8 * (t - s))
    by (apply Rmult_le_compat_r; lra).
  lra.
Qed.

End LogAnalysis.

Module LogFacts.
Import Reals Lra Qreals Analysis.
Import LogAnalysis.
Local Open Scope R_scope.

(** ** Integer division, in the reals *)

Lemma div_IZR (a b : Z) :
  (0 < b)%Z -> IZR a / IZR b - 1 < IZR (a / b) <= IZR a / IZR b.
Proof.
  intros Hb.
  assert (Hb' : 0 < IZR b) by now apply IZR_lt.
  pose proof (Z.mul_div_le a b Hb) as H1.
  pose proof (Z.mul_succ_div_gt a b Hb) as H2.
  apply IZR_le in H1. apply IZR_lt in H2.
  unfold Z.succ in H2. rewrite mult_IZR in H1. rewrite mult_IZR, plus_IZR in H2.
  split.
  - apply Rmult_lt_reg_r with (IZR b); [exact Hb'|].
    unfold Rdiv. rewrite Rmult_minus_distr_r, Rmult_assoc, Rinv_l by lra.
    lra.
  - apply Rmult_le_reg_r with (IZR b); [exact Hb'|].
    unfold Rdiv. rewrite Rmult_assoc, Rinv_l by lra. lra.
Qed.

(** ** The series, in fixed point *)

Section Series.
Variables (one zz : Z) (t : R).
Hypothesis Hone : (0 < one)%Z.
Hypothesis Hzz : (0 <= zz)%Z.
Hypothesis Ht : 0 <= t <= / 3.
Hypothesis Hsq : IZR one * (t * t) - 1 <= IZR zz <= IZR one * (t * t).

Lemma pow_third (n : nat) : 0 <= t ^ n <= 1.
Proof.
  split; [apply pow_le; lra|].
  induction n as [|n IH]; [cbn; lra|].
  cbn [pow]. assert (0 <= t ^ n) by (apply pow_le; lra). nra.
Qed.

Lemma oddSeries_bounds (n k : nat) (pw acc : Z) :
  (0 <= pw)%Z ->
  IZR one * t ^ S (2 * k) - 3 <= IZR pw <= IZR one * t ^ S (2 * k) ->
  IZR one * atanhSum n k t - 4 * INR n
  <= IZR (JSMath.oddSeries false n (Z.of_nat k) pw zz one acc) - IZR acc
  <= IZR one * atanhSum n k t.
Proof.
  revert k pw acc. induction n as [|n IH]; intros k pw acc Hpw Bpw.
  - cbn [JSMath.oddSeries atanhSum INR]. lra.
  - cbn [JSMath.oddSeries atanhSum andb].
    assert (Ho : 0 < IZR one) by now apply IZR_lt.
    assert (Hzz' : 0 <= IZR zz) by now apply IZR_le.
    assert (Hpw' : 0 <= IZR pw) by now apply IZR_le.
    set (T := IZR one * t ^ S (2 * k)) in *.
    pose proof (pow_third (S (2 * k))) as Hpk.
    assert (Hm : (0 < 2 * Z.of_nat k + 1)%Z) by lia.
    assert (Em : IZR (2 * Z.of_nat k + 1) = INR (S (2 * k))).
    { rewrite INR_IZR_INZ. f_equal. lia. }
    assert (Hm' : 1 <= INR (S (2 * k))).
    { replace 1 with (INR 1) by reflexivity. apply le_INR. lia. }
    (* the next power *)
    assert (Hnext : IZR one * t ^ S (2 * S k) - 3
                    <= IZR (pw * zz / one)
                    <= IZR one * t ^ S (2 * S k)).
    { replace (S (2 * S k)) with (S (S (S (2 * k)))) by lia.
      replace (IZR one * t ^ S (S (S (2 * k)))) with (T * (t * t))
        by (unfold T; cbn [pow]; ring).
      pose proof (@div_IZR (pw * zz) one Hone) as [L U].
      rewrite mult_IZR in L, U.
      assert (Et : T = t ^ S (2 * k) * IZR one) by (unfold T; ring).
      assert (Hq : IZR pw * IZR zz / IZR one <= T * (t * t)).
      { apply Rmult_le_reg_r with (IZR one); [exact Ho|].
        unfold Rdiv. rewrite Rmult_assoc, Rinv_l, Rmult_1_r by lra.
        apply Rle_trans with (T * IZR zz).
        - apply Rmult_le_compat_r; lra.
        - rewrite Rmult_assoc. apply Rmult_le_compat_l; [nra|]. lra. }
      split; [|lra].
      assert (Hl : T * (t * t) - 2 <= IZR pw * IZR zz / IZR one).
      { assert (Hnn : 0 <= IZR pw * IZR zz / IZR one).
        { apply Rmult_le_pos; [now apply Rmult_le_pos|].
          left. now apply Rinv_0_lt_compat. }
        assert (Htt : 0 <= t * t <= / 9) by nra.
        destruct (Rle_lt_dec T 3) as [HT|HT]; [nra|].
        destruct (Rle_lt_dec (IZR one * (t * t)) 1) as [Hs|Hs].
        - assert (T * (t * t) <= 1).
          { rewrite Et, Rmult_assoc. destruct Hpk as [Hp0 Hp1].
            replace 1 with (1 * 1) by ring.
            apply Rmult_le_compat; lra. }
          lra.
        - apply Rmult_le_reg_r with (IZR one); [exact Ho|].
          unfold Rdiv. rewrite Rmult_assoc, Rinv_l, Rmult_1_r by lra.
          apply Rle_trans with ((T - 3) * (IZR one * (t * t) - 1)).
          + assert (T <= IZR one) by (rewrite Et; nra). nra.
          + apply Rmult_le_compat; lra. }
      lra. }
    (* the term *)
    pose proof (@div_IZR pw (2 * Z.of_nat k + 1) Hm) as [L U].
    rewrite Em in L, U.
    assert (Ei : / INR (S (2 * k)) <= 1).
    { rewrite <- Rinv_1. apply Rinv_le_contravar; lra. }
    assert (Ei0 : 0 < / INR (S (2 * k))) by (apply Rinv_0_lt_compat; lra).
    assert (Bq : T * / INR (S (2 * k)) - 4 <= IZR (pw / (2 * Z.of_nat k + 1))
                 <= T * / INR (S (2 * k))).
    { unfold Rdiv in L, U. split.
      - assert ((T - 3) * / INR (S (2 * k)) <= IZR pw * / INR (S (2 * k)))
          by (apply Rmult_le_compat_r; lra).
        assert (3 * / INR (S (2 * k)) <= 3) by lra. lra.
      - assert (IZR pw * / INR (S (2 * k)) <= T * / INR (S (2 * k)))
          by (apply Rmult_le_compat_r; lra).
        lra. }
    assert (Hpw2 : (0 <= pw * zz / one)%Z).
    { apply Z.div_pos; [|exact Hone]. now apply Z.mul_nonneg_nonneg. }
    specialize (IH (S k) (pw * zz / one)%Z
                  (acc + pw / (2 * Z.of_nat k + 1))%Z Hpw2 Hnext).
    replace (Z.of_nat (S k)) with (Z.of_nat k + 1)%Z in IH by lia.
    rewrite plus_IZR in IH.
    replace (INR (S n)) with (INR n + 1) by (rewrite S_INR; ring).
    replace (IZR one * (/ INR (S (2 * k)) * t ^ S (2 * k) + atanhSum n (S k) t))
      with (T * / INR (S (2 * k)) + IZR one * atanhSum n (S k) t)
      by (unfold T; ring).
    lra.
Qed.

End Series.

(** ** The logarithm, in fixed point *)

Lemma scale_pos : 0 < scale.
Proof. unfold scale. apply IZR_lt. reflexivity. Qed.

Lemma scale_third : scale * (/ 3) ^ 217 <= 1.
Proof.
  unfold scale. rewrite pow_inv.
  replace 3 with (IZR 3) by reflexivity. rewrite pow_IZR.
  assert (H : (2 ^ JSMath.LOG_BITS <= 3 ^ Z.of_nat 217)%Z)
    by (vm_compute; discriminate).
  apply IZR_le in H.
  assert (H0 : 0 < IZR (2 ^ JSMath.LOG_BITS)) by (apply IZR_lt; reflexivity).
  revert H H0.
  generalize (IZR (2 ^ JSMath.LOG_BITS)) (IZR (3 ^ Z.of_nat 217)).
  intros a b H H0.
  apply Rmult_le_reg_r with b; [lra|].
  rewrite Rmult_assoc, Rinv_l by lra. lra.
Qed.

(** [atanhFix] is the inverse hyperbolic tangent of the argument, scaled,
    less at most 435 units. *)
Lemma atanhFix_bounds (z : Z) (tau : R) :
  (0 <= z)%Z -> 0 <= tau <= / 3 ->
  tau * scale - 1 <= IZR z <= tau * scale ->
  atanh tau * scale - 435 <= IZR (JSMath.atanhFix JSMath.LOG_BITS z)
  <= atanh tau * scale.
Proof.
  intros Hz Htau Bz. pose proof scale_pos as Ho.
  unfold JSMath.atanhFix.
  change (Z.to_nat (JSMath.LOG_BITS / 3) + 2)%nat with 108%nat.
  set (one := (2 ^ JSMath.LOG_BITS)%Z) in *.
  assert (Hone : (0 < one)%Z) by reflexivity.
  fold scale in Bz. change (IZR one) with scale in *.
  set (t := IZR z / scale).
  assert (Ez : IZR z = scale * t) by (unfold t; field; lra).
  assert (Hz' : 0 <= IZR z) by now apply IZR_le.
  assert (Ht : 0 <= t <= / 3).
  { split.
    - unfold t. apply Rmult_le_pos; [exact Hz'|].
      left. now apply Rinv_0_lt_compat.
    - apply Rmult_le_reg_l with scale; [exact Ho|]. rewrite <- Ez. nra. }
  assert (Htt : t <= tau).
  { apply Rmult_le_reg_l with scale; [exact Ho|]. rewrite <- Ez. lra. }
  assert (Hgap : scale * (tau - t) <= 1).
  { rewrite Rmult_minus_distr_l, <- Ez. lra. }
  assert (Hzz : (0 <= z * z / one)%Z).
  { apply Z.div_pos; [|exact Hone]. now apply Z.mul_nonneg_nonneg. }
  assert (Hsq : IZR one * (t * t) - 1 <= IZR (z * z / one)
                <= IZR one * (t * t)).
  { pose proof (@div_IZR (z * z) one Hone) as [L U].
    rewrite mult_IZR in L, U. change (IZR one) with scale in *.
    replace (scale * (t * t)) with (IZR z * IZR z / scale)
      by (rewrite Ez; field; lra).
    lra. }
  pose proof (@oddSeries_bounds one (z * z / one) t Hone Hzz Ht Hsq
                108 0 z 0 Hz) as B.
  change (Z.of_nat 0) with 0%Z in B. change (IZR one) with scale in B.
  replace (scale * t ^ S (2 * 0)) with (IZR z) in B
    by (rewrite Ez; simpl; ring).
  specialize (B ltac:(lra)).
  replace (INR 108) with 108 in B by (rewrite INR_IZR_INZ; reflexivity).
  replace (IZR 0) with 0 in B by reflexivity.
  pose proof (@atanhSum_le 108 t ltac:(lra)) as S1.
  pose proof (@atanh_le 108 t ltac:(lia) Ht) as S2.
  pose proof (@atanh_step t tau ltac:(lra) ltac:(lra)) as [S3 S4].
  assert (Htail : scale * t ^ S (2 * 108) <= 1).
  { apply Rle_trans with (scale * (/ 3) ^ 217); [|exact scale_third].
    apply Rmult_le_compat_l; [lra|].
    change (S (2 * 108)) with 217%nat. apply pow_incr. lra. }
  assert (M1 : scale * atanhSum 108 0 t <= scale * atanh t)
    by (apply Rmult_le_compat_l; lra).
  assert (M2 : scale * atanh t <= scale * atanh tau)
    by (apply Rmult_le_compat_l; lra).
  assert (M3 : scale * atanh t
               <= scale * atanhSum 108 0 t + scale * t ^ S (2 * 108)).
  { rewrite <- Rmult_plus_distr_l. apply Rmult_le_compat_l; lra. }
  assert (M4 : scale * atanh tau
               <= scale * atanh t + 9 / 8 * (scale * (tau - t))).
  { replace (scale * atanh t + 9 / 8 * (scale * (tau - t)))
      with (scale * (atanh t + 9 / 8 * (tau - t))) by ring.
    apply Rmult_le_compat_l; lra. }
  lra.
Qed.

(** ** The logarithm and the inverse hyperbolic tangent *)

Lemma ln_atanh (n D : R) :
  0 < D <= n -> ln n - ln D = 2 * atanh ((n - D) / (n + D)).
Proof.
  intros [HD Hn]. unfold atanh.
  assert (Hs : 0 < / (n + D)) by (apply Rinv_0_lt_compat; lra).
  replace (1 + (n - D) / (n + D)) with (2 * n * / (n + D)) by (field; lra).
  replace (1 - (n - D) / (n + D)) with (2 * D * / (n + D)) by (field; lra).
  rewrite !ln_mult by lra. lra.
Qed.

Lemma ln2_atanh : ln 2 = 2 * atanh (/ 3).
Proof.
  pose proof (@ln_atanh 2 1 ltac:(lra)) as H. rewrite ln_1 in H.
  replace ((2 - 1) / (2 + 1)) with (/ 3) in H by field. lra.
Qed.

Lemma ln_pow2 (d : nat) : ln (2 ^ d) = INR d * ln 2.
Proof.
  induction d as [|d IH]; [cbn; rewrite ln_1; ring|].
  rewrite S_INR. cbn [pow]. rewrite ln_mult, IH; [ring | lra |].
  apply pow_lt. lra.
Qed.

(** [lnFix] is the logarithm of the integer, scaled, less at most 870
    units for the integer and for each of its bits. *)
Lemma lnFix_bounds (n : Z) :
  (1 <= n)%Z ->
  ln (IZR n) * scale - 870 * (1 + IZR (Z.log2 n))
  <= IZR (JSMath.lnFix JSMath.LOG_BITS n)
  <= ln (IZR n) * scale.
Proof.
  intros Hn. pose proof scale_pos as Ho. unfold JSMath.lnFix.
  set (d := Z.log2 n).
  assert (Hd : (0 <= d)%Z) by apply Z.log2_nonneg.
  destruct (Z.log2_spec n ltac:(lia)) as [L U]. fold d in L, U.
  set (D := (2 ^ d)%Z) in *.
  assert (HD : (0 < D)%Z) by (apply Z.pow_pos_nonneg; lia).
  assert (U' : (n < 2 * D)%Z).
  { unfold D. unfold Z.succ in U. rewrite Z.pow_add_r in U by lia.
    change (2 ^ 1)%Z with 2%Z in U. lia. }
  set (one := (2 ^ JSMath.LOG_BITS)%Z).
  assert (Hone : (0 < one)%Z) by reflexivity.
  assert (Eo : IZR one = scale) by reflexivity.
  set (z := ((n - D) * one / (n + D))%Z).
  set (tau := (IZR n - IZR D) / (IZR n + IZR D)).
  assert (HD' : 0 < IZR D) by now apply IZR_lt.
  assert (Ln : IZR D <= IZR n) by now apply IZR_le.
  assert (Un : IZR n < 2 * IZR D).
  { apply IZR_lt in U'. now rewrite mult_IZR in U'. }
  assert (Htau : 0 <= tau <= / 3).
  { unfold tau. split.
    - apply Rmult_le_pos; [lra|]. left. apply Rinv_0_lt_compat. lra.
    - apply Rmult_le_reg_r with (IZR n + IZR D); [lra|].
      unfold Rdiv. rewrite Rmult_assoc, Rinv_l by lra. lra. }
  assert (Hz : (0 <= z)%Z).
  { apply Z.div_pos; [|lia]. apply Z.mul_nonneg_nonneg; lia. }
  assert (Bz : tau * scale - 1 <= IZR z <= tau * scale).
  { pose proof (@div_IZR ((n - D) * one) (n + D) ltac:(lia)) as [Lz Uz].
    rewrite mult_IZR, minus_IZR, plus_IZR, Eo in Lz, Uz.
    replace (tau * scale) with ((IZR n - IZR D) * scale / (IZR n + IZR D))
      by (unfold tau; field; lra).
    fold z in Lz, Uz. lra. }
  pose proof (@atanhFix_bounds z tau Hz Htau Bz) as B1.
  assert (Hz3 : (0 <= one / 3)%Z) by (apply Z.div_pos; lia).
  assert (Bz3 : / 3 * scale - 1 <= IZR (one / 3) <= / 3 * scale).
  { pose proof (@div_IZR one 3 ltac:(lia)) as [L3 U3].
    rewrite Eo in L3, U3. lra. }
  pose proof (@atanhFix_bounds (one / 3) (/ 3) Hz3 ltac:(lra) Bz3) as B3.
  (* the logarithm of the integer *)
  assert (El : ln (IZR n) = IZR d * ln 2 + 2 * atanh tau).
  { pose proof (@ln_atanh (IZR n) (IZR D) ltac:(lra)) as H. fold tau in H.
    assert (ED : ln (IZR D) = IZR d * ln 2).
    { unfold D. rewrite <- (Z2Nat.id d) at 1 by exact Hd.
      rewrite <- pow_IZR, ln_pow2, INR_IZR_INZ, Z2Nat.id by exact Hd.
      reflexivity. }
    lra. }
  rewrite El, ln2_atanh.
  rewrite plus_IZR, !mult_IZR.
  assert (Hd' : 0 <= IZR d) by now apply IZR_le.
  revert B1 B3.
  generalize (IZR (JSMath.atanhFix JSMath.LOG_BITS z))
             (IZR (JSMath.atanhFix JSMath.LOG_BITS (one / 3)))
             (atanh tau) (atanh (/ 3)).
  intros a a3 A A3 B1 B3. nra.
Qed.

End LogFacts.

Module LogModel.
Import Reals Lra Qreals Analysis.
Import JSString JSNumber JSConv Vocabulary.
Import LayoutFacts RoundFacts ErrorFacts ShapeFacts.
Import LogAnalysis LogFacts.
Local Open Scope R_scope.

Lemma log_value (q : Q) :
  (0 < q)%Q -> JSMath.log (Fin q) = round64 (logFix q).
Proof.
  intros Hq. unfold JSMath.log.
  rewrite DimensionProps.classify_Fin by (intros E; rewrite E in Hq; discriminate).
  replace (Qltb q 0) with false; [reflexivity|].
  symmetry. apply Qltb_ge. now apply Qlt_le_weak.
Qed.

Lemma Q2R_inject_Z (z : Z) : Q2R (inject_Z z) = IZR z.
Proof. unfold Q2R. cbn [inject_Z Qnum Qden]. field. Qed.

Lemma Rabs_between (x b : R) : Rabs x <= b -> - b <= x <= b.
Proof. unfold Rabs. destruct (Rcase_abs x); lra. Qed.

Lemma Q2R_abs_le (x b : Q) : (Qabs x <= b)%Q -> Rabs (Q2R x) <= Q2R b.
Proof.
  intros H. apply Qabs_Qle_condition in H. destruct H as [H1 H2].
  apply Qle_Rle in H1, H2. rewrite Q2R_opp in H1.
  apply Rabs_le. lra.
Qed.

Lemma abs_le_Q2R (x b : Q) : Rabs (Q2R x) <= Q2R b -> (Qabs x <= b)%Q.
Proof.
  intros H. apply Qabs_Qle_condition.
  assert (H' : - Q2R b <= Q2R x <= Q2R b).
  { revert H. unfold Rabs. destruct (Rcase_abs (Q2R x)); lra. }
  split; apply Rle_Qle; [rewrite Q2R_opp|]; lra.
Qed.

Lemma ln_le (x y : R) : 0 < x -> x <= y -> ln x <= ln y.
Proof.
  intros Hx [H|<-]; [|lra]. left. now apply ln_increasing.
Qed.

(** ** The logarithm of two *)

Lemma ln2_bounds :
  693147180559945309 / 1000000000000000000 <= ln 2
  <= 693147180559945310 / 1000000000000000000.
Proof.
  rewrite ln2_atanh.
  pose proof (@atanhSum_le 20 (/ 3) ltac:(lra)) as L.
  pose proof (@atanh_le 20 (/ 3) ltac:(lia) ltac:(lra)) as U.
  cbn [atanhSum] in L, U.
  rewrite !INR_IZR_INZ in L, U.
  cbn [Z.of_nat Nat.mul Nat.add Pos.of_succ_nat Pos.succ pow] in L, U.
  lra.
Qed.

(** ** The logarithm the model rounds *)

(** It is the logarithm, up to 2^-299. *)
Lemma logFix_close (q : Q) :
  (0 < q)%Q -> sized q ->
  Rabs (Q2R (logFix q) - ln (Q2R q)) <= / 10 ^ 80.
Proof.
  intros Hq (_ & _ & Sn & Sd). pose proof scale_pos as Ho.
  destruct q as [n d]. cbn [Qnum Qden] in *.
  assert (Hn : (1 <= n)%Z) by (unfold Qlt in Hq; simpl in Hq; lia).
  assert (Hd : (1 <= Z.pos d)%Z) by lia.
  rewrite Z.abs_eq in Sn by lia.
  pose proof (lnFix_bounds Hn) as Bn. pose proof (lnFix_bounds Hd) as Bd.
  assert (Ln : IZR (Z.log2 n) <= 2100).
  { apply IZR_le. apply Z.lt_le_incl. apply Z.log2_lt_pow2; lia. }
  assert (Ld : IZR (Z.log2 (Z.pos d)) <= 2100).
  { apply IZR_le. apply Z.lt_le_incl. apply Z.log2_lt_pow2; lia. }
  assert (Ln0 : 0 <= IZR (Z.log2 n)) by (apply IZR_le, Z.log2_nonneg).
  assert (Ld0 : 0 <= IZR (Z.log2 (Z.pos d))) by (apply IZR_le, Z.log2_nonneg).
  assert (Hn' : 0 < IZR n) by (apply IZR_lt; lia).
  assert (Hd' : 0 < IZR (Z.pos d)) by (apply IZR_lt; lia).
  assert (El : ln (Q2R (n # d)) = ln (IZR n) - ln (IZR (Z.pos d))).
  { unfold Q2R. cbn [Qnum Qden].
    rewrite ln_mult, ln_Rinv; [ring | exact Hd' | exact Hn' |].
    now apply Rinv_0_lt_compat. }
  assert (Ef : Q2R (logFix (n # d))
               = (IZR (JSMath.lnFix JSMath.LOG_BITS n)
                  - IZR (JSMath.lnFix JSMath.LOG_BITS (Z.pos d))) / scale).
  { unfold logFix, Q2R. cbn [Qnum Qden]. rewrite minus_IZR. reflexivity. }
  rewrite El, Ef.
  assert (Hs : 2000000 * 10 ^ 80 <= scale).
  { unfold scale. replace 10 with (IZR 10) by reflexivity.
    replace 2000000 with (IZR 2000000) by reflexivity.
    rewrite pow_IZR, <- mult_IZR. apply IZR_le. vm_compute. discriminate. }
  assert (Hp : 0 < 10 ^ 80) by (apply pow_lt; lra).
  apply Rabs_le.
  revert Bn Bd Ln Ld Ln0 Ld0 Hs Hp Ho.
  generalize (IZR (JSMath.lnFix JSMath.LOG_BITS n))
             (IZR (JSMath.lnFix JSMath.LOG_BITS (Z.pos d)))
             (ln (IZR n)) (ln (IZR (Z.pos d)))
             (IZR (Z.log2 n)) (IZR (Z.log2 (Z.pos d))) (10 ^ 80) scale.
  intros fn fd ln_n ln_d bn bd T s Bn Bd Ln Ld Ln0 Ld0 Hs Hp Ho.
  assert (Hi : 0 < / T) by now apply Rinv_0_lt_compat.
  assert (E1 : (fn - fd) / s - (ln_n - ln_d)
               = (fn - ln_n * s - (fd - ln_d * s)) / s) by (field; lra).
  rewrite E1.
  assert (B : - (2000000) <= fn - ln_n * s - (fd - ln_d * s) <= 2000000)
    by (split; nra).
  revert B. generalize (fn - ln_n * s - (fd - ln_d * s)). intros w B.
  assert (Hw : 2000000 / s <= / T).
  { apply Rmult_le_reg_r with (s * T); [nra|].
    replace (2000000 / s * (s * T)) with (2000000 * T) by (field; lra).
    replace (/ T * (s * T)) with s by (field; lra).
    lra. }
  assert (Hs' : 0 < / s) by (apply Rinv_0_lt_compat; lra).
  unfold Rdiv in *. split; nra.
Qed.

(** The logarithm of a binary64 number is at most 745 in magnitude. *)
Lemma ln_range (q : Q) :
  (0 < q)%Q -> sized q -> Rabs (ln (Q2R q)) <= 745.
Proof.
  intros Hq (Sl & Su & _ & _).
  assert (Ea : (Qabs q == q)%Q) by (apply Qabs_pos; now apply Qlt_le_weak).
  rewrite Ea in Sl, Su.
  apply Qle_Rle in Sl. apply Qlt_Rlt in Su.
  assert (Hq' : 0 < Q2R q).
  { replace 0 with (Q2R 0) by (unfold Q2R; simpl; lra). now apply Qlt_Rlt. }
  assert (E1 : Q2R (pow2 1024) = 2 ^ 1024).
  { change (pow2 1024) with (inject_Z (2 ^ Z.of_nat 1024)).
    rewrite Q2R_inject_Z, <- pow_IZR. reflexivity. }
  assert (E2 : Q2R (pow2 (-1074)) = / 2 ^ 1074).
  { unfold pow2, Q2R. cbn [Qnum Qden]. rewrite Pos2Z.inj_pow.
    change (Z.pos 1074) with (Z.of_nat 1074). rewrite <- pow_IZR. lra. }
  rewrite E1 in Su. rewrite E2 in Sl.
  assert (P1 : 0 < 2 ^ 1074) by (apply pow_lt; lra).
  pose proof (@ln_le _ _ Hq' (Rlt_le _ _ Su)) as U.
  pose proof (@ln_le (/ 2 ^ 1074) (Q2R q)
                ltac:(now apply Rinv_0_lt_compat) Sl) as L.
  rewrite ln_Rinv in L by exact P1. rewrite ln_pow2 in U, L.
  replace (INR 1024) with 1024 in U by (rewrite INR_IZR_INZ; reflexivity).
  replace (INR 1074) with 1074 in L by (rewrite INR_IZR_INZ; reflexivity).
  pose proof ln2_bounds as [B1 B2].
  apply Rabs_le. lra.
Qed.

(** ** From the ratio to cents *)

(** The cents [1200 * log2(r)] of a binary64 ratio greater than zero, as
    the code computes them, are within a billionth of a cent of 1200
    times the binary logarithm of the ratio. *)
Lemma cents_close (r : number) (q : Q) :
  rounded r -> value r = Some q -> (0 < q)%Q ->
  exists c,
    value (mul (num 1200) (Utils_js.log2 r)) = Some c /\
    Rabs (Q2R c - 1200 * (ln (Q2R q) / ln 2)) <= / 10 ^ 9.
Proof.
  intros Hr Hv Hq.
  assert (Hq0 : ~ (q == 0)%Q) by (intros E; rewrite E in Hq; discriminate).
  pose proof (Hr q Hv Hq0) as Hs.
  rewrite (IntegerFacts.value_Fin _ Hv Hq0).
  unfold Utils_js.log2. rewrite (log_value Hq).
  pose proof (logFix_close Hq Hs) as Hc. pose proof (ln_range Hq Hs) as Hl.
  pose proof ln2_bounds as [L2 U2].
  set (l := logFix q) in *. set (L := ln (Q2R q)) in *.
  assert (P80 : 0 < / 10 ^ 80 <= 1 / 100000000000000000000).
  { split.
    - apply Rinv_0_lt_compat, pow_lt. lra.
    - replace (1 / 100000000000000000000) with (/ 10 ^ 20) by (simpl; lra).
      apply Rinv_le_contravar; [apply pow_lt; lra|].
      apply Rle_pow; [lra | lia]. }
  assert (Hl' : (Qabs l <= 746)%Q).
  { apply abs_le_Q2R. replace (Q2R 746) with 746 by (unfold Q2R; simpl; lra).
    apply Rabs_le. apply Rabs_between in Hc, Hl.
    lra. }
  destruct (@cents_error l Hl') as (c & Hcv & Ec).
  exists c. split; [exact Hcv|].
  apply Q2R_abs_le in Ec.
  rewrite Q2R_minus, Q2R_mult, Q2R_div in Ec by discriminate.
  replace (Q2R 1200) with 1200 in Ec by (unfold Q2R; simpl; lra).
  replace (Q2R (45 # 100000000000)) with (45 / 100000000000) in Ec
    by (unfold Q2R; simpl; lra).
  replace (Q2R (6243314768165359 # 9007199254740992))
    with (6243314768165359 / 9007199254740992) in Ec
    by (unfold Q2R; simpl; lra).
  apply Rabs_between in Ec, Hc, Hl.
  (* the binary logarithm, and how far the quotient by Math.LN2 is off *)
  set (w := L / ln 2).
  assert (EL : L = w * ln 2) by (unfold w; field; lra).
  assert (Hw : - 1076 <= w <= 1076) by (split; nra).
  set (b := ln 2 - 6243314768165359 / 9007199254740992).
  assert (Hb : 0 <= b <= 24 / 1000000000000000000) by (unfold b; lra).
  assert (Hp : - (1076 * (24 / 1000000000000000000)) <= w * b
               <= 1076 * (24 / 1000000000000000000)) by (split; nra).
  assert (Ey : Q2R l = w * (6243314768165359 / 9007199254740992) + w * b
                       + (Q2R l - L)).
  { rewrite EL. unfold b. ring. }
  revert Ec Hc Hp Ey P80.
  generalize (Q2R l) (Q2R c) (w * b) (/ 10 ^ 80) (Q2R l - L).
  intros y cc p e a Ec Hc Hp Ey [P1 P2]. subst y.
  assert (P9 : / 10 ^ 9 = 1 / 1000000000) by (simpl; lra).
  rewrite P9 in *. apply Rabs_le.
  unfold Rdiv in *. split; lra.
Qed.

End LogModel.

Module RatioClaims.
Import Reals Qreals.
Import JSString JSNumber JSConv RegExp SVG Utils_js Vocabulary.
Import ShapeFacts LogModel.
Local Open Scope R_scope.

(** C4, as the code has it.  A valid ratio token, a fraction [a/b] with
    finite sides and [b] not zero or a positive decimal that is not a
    cents text, whose ratio as the code computes it is a finite number
    greater than zero, is returned as a token of kind Ratio, and its
    cents are within a billionth of a cent of 1200 times the binary
    logarithm of that ratio. *)
Theorem ratio_token_cents_log2 (token : jsstring) (r : number) (q : Q) :
  RatioToken token r -> value r = Some q -> (0 < q)%Q ->
  exists (t : Token.t) (c : Q),
    parseCentsOrRatioToCents token = Some t /\
    Token.raw t = trim token /\ Token.type t = Ratio /\
    value (Token.cents t) = Some c /\
    Rabs (Q2R c - 1200 * (ln (Q2R q) / ln 2)) <= / 10 ^ 9.
Proof.
  intros Ht Hv Hq.
  destruct (@cents_close r q (RatioToken_rounded Ht) Hv Hq) as (c & Hc & Bc).
  exists (Token.mk (mul (num 1200) (log2 r)) (trim token) Ratio), c.
  split; [now apply TokenClaims.ratio_token_cents|].
  now repeat split.
Qed.

Lemma ratio_token_cents_log2_witness :
  RatioToken (str "3/2") (div (Number (str "3")) (Number (str "2"))) /\
  value (div (Number (str "3")) (Number (str "2"))) = Some (3 # 2)%Q /\
  (0 < 3 # 2)%Q /\
  exists (t : Token.t) (c : Q),
    parseCentsOrRatioToCents (str "3/2") = Some t /\
    Token.raw t = trim (str "3/2") /\ Token.type t = Ratio /\
    value (Token.cents t) = Some c /\
    Rabs (Q2R c - 1200 * (ln (Q2R (3 # 2)) / ln 2)) <= / 10 ^ 9.
Proof.
  assert (H1 : RatioToken (str "3/2")
                 (div (Number (str "3")) (Number (str "2")))).
  { apply (@RT_fraction (str "3") (str "2")).
    - intros [H|[]]; discriminate H.
    - intros [H|[]]; discriminate H.
    - reflexivity.
    - reflexivity.
    - reflexivity. }
  assert (H2 : value (div (Number (str "3")) (Number (str "2")))
               = Some (3 # 2)%Q) by (vm_compute; reflexivity).
  assert (H3 : (0 < 3 # 2)%Q) by reflexivity.
  split; [exact H1|]. split; [exact H2|]. split; [exact H3|].
  exact (@ratio_token_cents_log2 _ _ _ H1 H2 H3).
Defined.

(** C4, as stated, fails where the quotient overflows: [1e308/1e-308] is
    a valid ratio token, its ratio is 10^616 and 1200 times its binary
    logarithm is about 2455569, but the quotient is Infinity in binary64
    and so are the cents. *)
Lemma ratio_token_overflow :
  RatioToken (str "1e308/1e-308")
    (div (Number (str "1e308")) (Number (str "1e-308"))) /\
  isFinite (Number (str "1e308")) = true /\
  isFinite (Number (str "1e-308")) = true /\
  strictEq (Number (str "1e-308")) (num 0) = false /\
  parseCentsOrRatioToCents (str "1e308/1e-308")
  = Some (Token.mk PInf (str "1e308/1e-308") Ratio).
Proof.
  assert (Fa : isFinite (Number (str "1e308")) = true)
    by (vm_compute; reflexivity).
  assert (Fb : isFinite (Number (str "1e-308")) = true)
    by (vm_compute; reflexivity).
  assert (Zb : strictEq (Number (str "1e-308")) (num 0) = false)
    by (vm_compute; reflexivity).
  split; [|split; [exact Fa | split; [exact Fb | split; [exact Zb|]]]].
  - apply (@RT_fraction (str "1e308") (str "1e-308")); try assumption.
    + clear. intros H. repeat (destruct H as [H|H]; [discriminate H|]).
      exact H.
    + clear. intros H. repeat (destruct H as [H|H]; [discriminate H|]).
      exact H.
  - vm_compute. reflexivity.
Qed.

End RatioClaims.
